(** * Photonic circuits: leaf and composite structures of [src/structures.py]

    A shallow embedding of the structure library ([Waveguide], [Source],
    [DirectionalCoupler], [RingResonator], [AddDropFilter]) and of the
    part of [base.py] those classes rely on.

    Numbers.  The program computes with [float64] and [complex128]; the
    embedding reads every arithmetic expression of the source over the
    real numbers of the Standard Library and over pairs of reals, so a
    statement about a value is a statement about the exact value of the
    expression the source evaluates, not about its rounding.

    Effects.  Pin identities come from a process-wide counter; the
    constructors are written in a state-and-exception monad whose state
    is the next free identity. *)

From Stdlib Require Import Reals Lra RNsatz List Arith Lia.
From stdpp Require Import base option list gmap.
Import ListNotations.

(* ------------------------------------------------------------------ *)
(** ** Complex numbers, as numpy's [complex128] read over the reals    *)
(* ------------------------------------------------------------------ *)

Module Cplx.
Local Open Scope R_scope.

Record C : Type := mkC { re : R; im : R }.

Definition RtoC (x : R) : C := mkC x 0.
Definition Ci : C := mkC 0 1.                      (* the literal [1j] *)
Definition Cadd (a b : C) : C := mkC (re a + re b) (im a + im b).
Definition Copp (a : C) : C := mkC (- re a) (- im a).
Definition Cmul (a b : C) : C :=
  mkC (re a * re b - im a * im b) (re a * im b + im a * re b).
Definition conj (a : C) : C := mkC (re a) (- im a).           (* np.conj *)
(* np.exp on a complex argument *)
Definition Cexp (a : C) : C := mkC (exp (re a) * cos (im a)) (exp (re a) * sin (im a)).
(* np.abs on a complex argument *)
Definition Cabs (a : C) : R := sqrt (re a * re a + im a * im a).

End Cplx.
Export Cplx.

(* ------------------------------------------------------------------ *)
(** ** Exceptions, results and the construction monad                  *)
(* ------------------------------------------------------------------ *)

(** The exceptions of the model.  [IndexError] and [ZeroDivisionError]
    are Python's own; [PinCountError] is the rejection of a pin list of
    the wrong length by the base class; the last three are the error
    classes of the specification's taxonomy. *)
Inductive exn : Type :=
| IndexError
| ZeroDivisionError
| PinCountError
| ParameterDomainError
| StructuralValidationError
| NumericalSolveError.

(** A property either returns or raises. *)
Definition res (A : Type) : Type := (exn + A)%type.

Definition rbind {A B : Type} (m : res A) (k : A -> res B) : res B :=
  match m with
  | inl e => inl e
  | inr a => k a
  end.

Notation "'try!' x ':=' m 'in' k" := (rbind m (fun x => k))
  (at level 10, x name, m at level 100, k at level 200).

(** [pins[i]] on a Python list, for a non-negative literal [i]. *)
Definition getitem {A : Type} (l : list A) (i : nat) : res A :=
  match l !! i with
  | Some a => inr a
  | None => inl IndexError
  end.

(** A constructor runs against the pin counter: it receives the next
    free identity and gives back its outcome with the counter as it
    left it (the counter keeps its value when an exception is raised). *)
Definition M (A : Type) : Type := nat -> res A * nat.

Definition ret {A : Type} (a : A) : M A := fun n => (inr a, n).
Definition raise {A : Type} (e : exn) : M A := fun n => (inl e, n).
Definition bind {A B : Type} (m : M A) (k : A -> M B) : M B :=
  fun n => match m n with
           | (inl e, n') => (inl e, n')
           | (inr a, n') => k a n'
           end.
Definition lift {A : Type} (r : res A) : M A := fun n => (r, n).

Notation "'let!' x ':=' m 'in' k" := (bind m (fun x => k))
  (at level 10, x name, m at level 100, k at level 200).

(* ------------------------------------------------------------------ *)
(** ** Pins and the base class                                         *)
(* ------------------------------------------------------------------ *)

(** Modelled from the spec: the class [Pin] of [base.py], which is not
    among the sources.  A pin is its integer identity, "monotonically
    assigned from a process-wide counter at construction time", and the
    identity is "the sole key used to locate a variable's coefficient". *)
Abbreviation Pin := nat (only parsing).

Module PinRegistry.

(** Modelled from the spec: [Pin()], "allocate() returns a fresh unique
    identity". *)
Definition allocate : M Pin := fun n => (inr n, S n).

(** Modelled from the spec: [Pin.reset_id_iterator()], "reset()
    restarts the counter at zero". *)
Definition reset_id_iterator : M unit := fun _ => (inr tt, 0).

(** [[Pin() for _ in range(k)]]. *)
Fixpoint allocate_many (k : nat) : M (list Pin) :=
  match k with
  | O => ret []
  | S k' => let! p := allocate in
            let! ps := allocate_many k' in
            ret (p :: ps)
  end.

End PinRegistry.

Module BaseStructure.

(** Modelled from the spec: [BaseStructure.__init__(pins)] of [base.py],
    which is not among the sources.  A structure creates its [num_pins]
    pins itself or borrows "an optional explicit list of Pins to reuse",
    and "[len(pins) == num_pins] at all times": a supplied list of
    another length is rejected. *)
Definition init (num_pins : nat) (pins : option (list Pin)) : M (list Pin) :=
  match pins with
  | None => PinRegistry.allocate_many num_pins
  | Some ps => if length ps =? num_pins then ret ps else raise PinCountError
  end.

End BaseStructure.

(* ------------------------------------------------------------------ *)
(** ** Field equations                                                 *)
(* ------------------------------------------------------------------ *)

(** A coefficient is a scalar or, where it depends on the frequency, an
    array with one entry per sample of the sweep. *)
Inductive coef : Type :=
| Scalar (z : C)
| Sweep (zs : list C).

(** The value of a coefficient at the [i]-th sample (a scalar
    broadcasts). *)
Definition coef_at (k : coef) (i : nat) : C :=
  match k with
  | Scalar z => z
  | Sweep zs => nth i zs (RtoC 0)
  end.

(** One field equation: the Python dict from pin to coefficient. *)
Abbreviation equation := (gmap nat coef) (only parsing).

(** [scipy.constants.c], the speed of light in m/s. *)
Definition c : R := 299792458%R.

(* ------------------------------------------------------------------ *)
(** ** Leaf structures                                                 *)
(* ------------------------------------------------------------------ *)

Module Waveguide.
Local Open Scope R_scope.

Definition num_pins : nat := 2.
Definition num_equations : nat := 1.

Record t : Type := mk {
  pins : list Pin;
  length : R;
  effective_refractive_index : R;
  group_refractive_index : R;
  GVD : R;
  loss_dB : R;
  central_wavelength : R;
  angular_frequencies : list R;
  central_frequency : R
}.

(** [Waveguide.__init__].  The base class runs first; the division by
    [central_wavelength] raises on a zero float. *)
Definition init (length effective_refractive_index group_refractive_index
                 GVD loss_dB central_wavelength : R)
                (angular_frequencies : list R)
                (pins : option (list Pin)) : M t :=
  let! ps := BaseStructure.init num_pins pins in
  if Req_dec_T central_wavelength 0 then raise ZeroDivisionError
  else ret (mk ps length effective_refractive_index group_refractive_index
               GVD loss_dB central_wavelength angular_frequencies
               (2 * PI / central_wavelength * c)).

(** The [wavevector] property: one value per sample of the sweep. *)
Definition wavevector (self : t) : list R :=
  let zero_order_term :=
    effective_refractive_index self * central_frequency self / c in
  map (fun omega =>
         let first_order_term :=
           group_refractive_index self * (omega - central_frequency self) / c in
         let second_order_term :=
           1 / 2 * GVD self * (omega - central_frequency self) ^ 2 in
         zero_order_term + first_order_term + second_order_term)
      (angular_frequencies self).

(** The [field_equations] property. *)
Definition field_equations (self : t) : res (list equation) :=
  let loss_amplitude_coefficient :=
    exp (- loss_dB self * ln 10 / 20 * length self) in
  try! p0 := getitem (pins self) 0 in
  try! p1 := getitem (pins self) 1 in
  inr [ <[p1 := Scalar (RtoC 1)]>
          (<[p0 := Sweep (map (fun k =>
                    Cmul (RtoC (- loss_amplitude_coefficient))
                         (Cexp (Cmul (Cmul Ci (RtoC k)) (RtoC (length self)))))
                    (wavevector self))]> (∅ : gmap nat coef)) ].

End Waveguide.

Module Source.

Definition num_pins : nat := 1.
Definition num_equations : nat := 1.

Record t : Type := mk {
  pins : list Pin;
  amplitude : C;
  phase : R
}.

(** [Source.__init__]. *)
Definition init (amplitude : C) (phase : R) (pins : option (list Pin)) : M t :=
  let! ps := BaseStructure.init num_pins pins in
  ret (mk ps amplitude phase).

Definition field_equations (self : t) : res (list equation) :=
  try! p0 := getitem (pins self) 0 in
  inr [ <[p0 := Scalar (RtoC 1)]> (∅ : gmap nat coef) ].

Definition ordinate_vector (self : t) : list C := [amplitude self].

End Source.

Module DirectionalCoupler.
Local Open Scope R_scope.

Definition num_pins : nat := 4.
Definition num_equations : nat := 2.

Record t : Type := mk {
  pins : list Pin;
  kappa : C;
  sigma : C
}.

(** The defaults of the keyword arguments of [__init__]. *)
Definition default_cross_coupling_coefficient : R := sqrt (3 / 4).
Definition default_self_coupling_phase : R := 0.
Definition default_cross_coupling_phase : R := PI / 2.

(** [DirectionalCoupler.__init__].  There is no test on the coupling
    coefficient.  [np.sqrt] is read as the real square root; where
    [1 - cross_coupling_coefficient^2] is negative numpy yields [nan]
    (with a warning, not an exception), and the theorems below give
    the value of [sigma] only where that quantity is not negative. *)
Definition init (cross_coupling_coefficient self_coupling_phase
                 cross_coupling_phase : R)
                (pins : option (list Pin)) : M t :=
  let! ps := BaseStructure.init num_pins pins in
  ret (mk ps
          (Cmul (RtoC cross_coupling_coefficient)
                (Cexp (Cmul Ci (RtoC cross_coupling_phase))))
          (Cmul (RtoC (sqrt (1 - cross_coupling_coefficient ^ 2)))
                (Cexp (Cmul Ci (RtoC self_coupling_phase))))).

Definition field_equations (self : t) : res (list equation) :=
  try! p0 := getitem (pins self) 0 in
  try! p1 := getitem (pins self) 1 in
  try! p2 := getitem (pins self) 2 in
  try! p0' := getitem (pins self) 0 in
  try! p1' := getitem (pins self) 1 in
  try! p3 := getitem (pins self) 3 in
  inr [ <[p2 := Scalar (RtoC (-1))]>
          (<[p1 := Scalar (kappa self)]>
             (<[p0 := Scalar (sigma self)]> (∅ : gmap nat coef)));
        <[p3 := Scalar (RtoC (-1))]>
          (<[p1' := Scalar (conj (sigma self))]>
             (<[p0' := Scalar (Copp (conj (kappa self)))]> (∅ : gmap nat coef))) ].

End DirectionalCoupler.

(* ------------------------------------------------------------------ *)
(** ** Composite structures                                            *)
(* ------------------------------------------------------------------ *)

Module Composite.

(** Modelled from the spec: the attributes of [CompositeStructure] in
    [base.py], which is not among the sources: "effective refractive
    index, group refractive index, group-velocity dispersion
    coefficient, loss in dB/length, central wavelength, and the
    angular-frequency sweep", its pins and its [structures] list. *)
Record t (child : Type) : Type := mk {
  pins : list Pin;
  effective_refractive_index : R;
  group_refractive_index : R;
  GVD : R;
  loss_dB : R;
  central_wavelength : R;
  angular_frequencies : list R;
  structures : list child
}.
Arguments mk {child}.
Arguments pins {child}.
Arguments effective_refractive_index {child}.
Arguments group_refractive_index {child}.
Arguments GVD {child}.
Arguments loss_dB {child}.
Arguments central_wavelength {child}.
Arguments angular_frequencies {child}.
Arguments structures {child}.

End Composite.

(** Any circuit element: a leaf, or a composite of elements. *)
#[local] Unset Elimination Schemes.
Inductive Structure : Type :=
| OfWaveguide (w : Waveguide.t)
| OfSource (s : Source.t)
| OfDirectionalCoupler (d : DirectionalCoupler.t)
| OfComposite (k : Composite.t Structure).
#[local] Set Elimination Schemes.

Module CompositeStructure.

Abbreviation t := (Composite.t Structure) (only parsing).

(** Modelled from the spec: [CompositeStructure.__init__] of [base.py],
    called by the subclasses as [super().__init__(effective_refractive_index,
    group_refractive_index, GVD, loss_dB, central_wavelength, pins,
    angular_frequencies)]; it keeps the attributes it is given and starts
    with no children. *)
Definition init (num_pins : nat)
                (effective_refractive_index group_refractive_index
                 GVD loss_dB central_wavelength : R)
                (pins : option (list Pin))
                (angular_frequencies : list R) : M t :=
  let! ps := BaseStructure.init num_pins pins in
  ret (Composite.mk ps effective_refractive_index group_refractive_index
                    GVD loss_dB central_wavelength angular_frequencies []).

(** [self.structures = l]. *)
Definition set_structures (self : t) (l : list Structure) : t :=
  Composite.mk (Composite.pins self)
               (Composite.effective_refractive_index self)
               (Composite.group_refractive_index self)
               (Composite.GVD self)
               (Composite.loss_dB self)
               (Composite.central_wavelength self)
               (Composite.angular_frequencies self) l.

(** [self.structures.append(s)]: how a boundary [Source] is attached. *)
Definition append (self : t) (s : Structure) : t :=
  set_structures self (Composite.structures self ++ [s]).

End CompositeStructure.

(** Modelled from the spec: the [field_equations] of a composite in
    [base.py], "the flattened concatenation of every child's
    [field_equations]", recursively; a leaf contributes its own. *)
Fixpoint field_equations (s : Structure) : res (list equation) :=
  match s with
  | OfWaveguide w => Waveguide.field_equations w
  | OfSource s => Source.field_equations s
  | OfDirectionalCoupler d => DirectionalCoupler.field_equations d
  | OfComposite k =>
      (fix extend (l : list Structure) : res (list equation) :=
         match l with
         | [] => inr []
         | child :: rest =>
             try! eqs := field_equations child in
             try! more := extend rest in
             inr (eqs ++ more)
         end) (Composite.structures k)
  end.

(** Modelled from the spec: the ordinate vector, in the order of the
    equations; "non-zero only for equations contributed by a Source". *)
Fixpoint ordinate_vector (s : Structure) : list C :=
  match s with
  | OfWaveguide _ => repeat (RtoC 0) Waveguide.num_equations
  | OfSource s => Source.ordinate_vector s
  | OfDirectionalCoupler _ => repeat (RtoC 0) DirectionalCoupler.num_equations
  | OfComposite k =>
      (fix extend (l : list Structure) : list C :=
         match l with
         | [] => []
         | child :: rest => ordinate_vector child ++ extend rest
         end) (Composite.structures k)
  end.

(** The pins appearing anywhere in a structure. *)
Fixpoint all_pins (s : Structure) : gset nat :=
  match s with
  | OfWaveguide w => list_to_set (Waveguide.pins w)
  | OfSource s => list_to_set (Source.pins s)
  | OfDirectionalCoupler d => list_to_set (DirectionalCoupler.pins d)
  | OfComposite k =>
      list_to_set (Composite.pins k) ∪
      (fix collect (l : list Structure) : gset nat :=
         match l with
         | [] => ∅
         | child :: rest => all_pins child ∪ collect rest
         end) (Composite.structures k)
  end.

(* ------------------------------------------------------------------ *)
(** ** The solved field array                                          *)
(* ------------------------------------------------------------------ *)

(** A two-dimensional complex array with its shape. *)
Record ndarray : Type := mkArray {
  shape0 : nat;
  shape1 : nat;
  rows : list (list C)
}.

(** [a[:, j]] for a non-negative literal [j]. *)
Definition column (a : ndarray) (j : nat) : res (list C) :=
  if j <? shape1 a then inr (map (fun row => nth j row (RtoC 0)) (rows a))
  else inl IndexError.

Section Solver.

(** The dense linear solve ([None] on a singular matrix). *)
Variable solve : list (list C) -> list C -> option (list C).

(** Modelled from the spec: the coefficient matrix at the [i]-th sample,
    "row r, column c holds the coefficient that equation r assigns to
    pin c (0 if absent from that equation's mapping)". *)
Definition coefficient_matrix (eqs : list equation) (n i : nat) : list (list C) :=
  map (fun eq : gmap nat coef =>
         map (fun col => match eq !! col with
                         | Some k => coef_at k i
                         | None => RtoC 0
                         end) (seq 0 n)) eqs.

(** Modelled from the spec: one solve per sample, stacked in the order
    of the sweep; a singular matrix "fails with a numerical solve
    error". *)
Fixpoint solve_sweep (eqs : list equation) (b : list C) (n : nat)
                     (samples : list nat) : res (list (list C)) :=
  match samples with
  | [] => inr []
  | i :: rest =>
      match solve (coefficient_matrix eqs n i) b with
      | None => inl NumericalSolveError
      | Some x => try! xs := solve_sweep eqs b n rest in inr (x :: xs)
      end
  end.

(** Modelled from the spec: the [fields] property of [base.py], which is
    not among the sources.  "Equation count does not equal distinct-pin
    count for the structure being solved" is a structural-validation
    error that "must be detected before attempting a solve"; otherwise
    the result is the (frequency x pin) array of the solved amplitudes. *)
Definition fields (self : CompositeStructure.t) : res ndarray :=
  try! eqs := field_equations (OfComposite self) in
  let n := size (all_pins (OfComposite self)) in
  if length eqs =? n then
    let m := length (Composite.angular_frequencies self) in
    try! xs := solve_sweep eqs (ordinate_vector (OfComposite self)) n (seq 0 m) in
    inr (mkArray m n xs)
  else inl StructuralValidationError.

End Solver.

Module RingResonator.
Local Open Scope R_scope.

Definition num_pins : nat := 4.
Definition num_equations : nat := 3.

Record t : Type := mk {
  base : CompositeStructure.t;
  radius : R;
  cross_coupling_coefficient : R
}.

(** [RingResonator.__init__]: a coupler on the ring's own pins and a
    waveguide of one circumference between [pins[3]] and [pins[1]]. *)
Definition init (radius cross_coupling_coefficient
                 effective_refractive_index group_refractive_index
                 GVD loss_dB central_wavelength : R)
                (angular_frequencies : list R)
                (pins : option (list Pin)) : M t :=
  let! self := CompositeStructure.init num_pins effective_refractive_index
                 group_refractive_index GVD loss_dB central_wavelength
                 pins angular_frequencies in
  let! coupler := DirectionalCoupler.init cross_coupling_coefficient
                    DirectionalCoupler.default_self_coupling_phase
                    DirectionalCoupler.default_cross_coupling_phase
                    (Some (Composite.pins self)) in
  let! p3 := lift (getitem (Composite.pins self) 3) in
  let! p1 := lift (getitem (Composite.pins self) 1) in
  let! waveguide := Waveguide.init (2 * PI * radius)
                      (Composite.effective_refractive_index self)
                      (Composite.group_refractive_index self)
                      (Composite.GVD self)
                      (Composite.loss_dB self)
                      (Composite.central_wavelength self)
                      (Composite.angular_frequencies self)
                      (Some [p3; p1]) in
  ret (mk (CompositeStructure.set_structures self
             [OfDirectionalCoupler coupler; OfWaveguide waveguide])
          radius cross_coupling_coefficient).

(** The theoretical curve that [plot_spectrum] draws beside the
    simulated one, for the wavevector samples of the ring (the
    [wavevector] property of the composite is in [base.py]; its samples
    are an argument here).  Where the denominator is zero numpy yields
    [inf] or [nan] with a warning; nothing is stated there. *)
Definition teo_transmission (self : t) (wavevector : list R) : list R :=
  let sigma := sqrt (1 - cross_coupling_coefficient self ^ 2) in
  let loss := exp (- Composite.loss_dB (base self) * ln 10 / 20
                     * radius self * 2 * PI) in
  map (fun k =>
         let phase := k * radius self * 2 * PI in
         (sigma ^ 2 + loss ^ 2 - 2 * sigma * loss * cos phase) /
         (1 + (sigma * loss) ^ 2 - 2 * sigma * loss * cos phase))
      wavevector.

End RingResonator.

Module AddDropFilter.
Local Open Scope R_scope.

Definition num_pins : nat := 8.
Definition num_equations : nat := 6.

Record t : Type := mk {
  base : CompositeStructure.t;
  radius : R;
  input_cross_coupling_coefficient : R;
  auxiliary_cross_coupling_coefficient : R
}.

(** [AddDropFilter.__init__]: a coupler on [pins[:4]], a coupler on
    [pins[4:]] and two half-circumference waveguides between them. *)
Definition init (radius input_cross_coupling_coefficient
                 auxiliary_cross_coupling_coefficient
                 effective_refractive_index group_refractive_index
                 GVD loss_dB central_wavelength : R)
                (angular_frequencies : list R)
                (pins : option (list Pin)) : M t :=
  let! self := CompositeStructure.init num_pins effective_refractive_index
                 group_refractive_index GVD loss_dB central_wavelength
                 pins angular_frequencies in
  let! coupler_in := DirectionalCoupler.init input_cross_coupling_coefficient
                       DirectionalCoupler.default_self_coupling_phase
                       DirectionalCoupler.default_cross_coupling_phase
                       (Some (take 4 (Composite.pins self))) in
  let! coupler_aux := DirectionalCoupler.init auxiliary_cross_coupling_coefficient
                        DirectionalCoupler.default_self_coupling_phase
                        DirectionalCoupler.default_cross_coupling_phase
                        (Some (drop 4 (Composite.pins self))) in
  let! p3 := lift (getitem (Composite.pins self) 3) in
  let! p5 := lift (getitem (Composite.pins self) 5) in
  let! waveguide_a := Waveguide.init (radius * PI)
                        (Composite.effective_refractive_index self)
                        (Composite.group_refractive_index self)
                        (Composite.GVD self)
                        (Composite.loss_dB self)
                        (Composite.central_wavelength self)
                        (Composite.angular_frequencies self)
                        (Some [p3; p5]) in
  let! p7 := lift (getitem (Composite.pins self) 7) in
  let! p1 := lift (getitem (Composite.pins self) 1) in
  let! waveguide_b := Waveguide.init (radius * PI)
                        (Composite.effective_refractive_index self)
                        (Composite.group_refractive_index self)
                        (Composite.GVD self)
                        (Composite.loss_dB self)
                        (Composite.central_wavelength self)
                        (Composite.angular_frequencies self)
                        (Some [p7; p1]) in
  ret (mk (CompositeStructure.set_structures self
             [OfDirectionalCoupler coupler_in; OfDirectionalCoupler coupler_aux;
              OfWaveguide waveguide_a; OfWaveguide waveguide_b])
          radius input_cross_coupling_coefficient
          auxiliary_cross_coupling_coefficient).

(** The [field_enhancement] property: [np.abs(self.fields[:, 3])]. *)
Definition field_enhancement (solve : list (list C) -> list C -> option (list C))
                             (self : t) : res (list R) :=
  try! f := fields solve (base self) in
  try! col := column f 3 in
  inr (map Cabs col).

(** The [transmission] property: [np.power(np.abs(self.fields[:, 6]), 2)]. *)
Definition transmission (solve : list (list C) -> list C -> option (list C))
                        (self : t) : res (list R) :=
  try! f := fields solve (base self) in
  try! col := column f 6 in
  inr (map (fun z => Cabs z ^ 2) col).

(** The theoretical drop-port curve that [plot_spectrum] draws beside
    the simulated one, for the wavevector samples of the filter. *)
Definition teo_transmission (self : t) (wavevector : list R) : list R :=
  let sigma := sqrt (1 - input_cross_coupling_coefficient self ^ 2) in
  let sigma_aux := sqrt (1 - auxiliary_cross_coupling_coefficient self ^ 2) in
  let loss := exp (- Composite.loss_dB (base self) * ln 10 / 20
                     * radius self * 2 * PI) in
  map (fun k =>
         let phase := k * 2 * radius self * PI in
         (input_cross_coupling_coefficient self *
          auxiliary_cross_coupling_coefficient self) ^ 2 /
         (1 + (sigma * sigma_aux * loss) ^ 2
            - 2 * sigma * sigma_aux * loss * cos phase))
      wavevector.

End AddDropFilter.

(* ------------------------------------------------------------------ *)
(** ** The quantities the specification names                          *)
(* ------------------------------------------------------------------ *)

Section Specification.
Local Open Scope R_scope.

(** The wavevector the claim describes, around [omega0 = 2 pi c / lam0]. *)
Definition taylor_wavevector (n_eff n_g D lam0 omega : R) : R :=
  let omega0 := 2 * PI * c / lam0 in
  n_eff * omega0 / c + n_g * (omega - omega0) / c + D / 2 * (omega - omega0) ^ 2.

(** The transfer factor the claim describes: [a exp(i k L)], with
    [a = 10^(-loss L / 20)]. *)
Definition transfer_factor (L n_eff n_g D loss lam0 omega : R) : C :=
  Cmul (RtoC (Rpower 10 (- (loss * L) / 20)))
       (Cexp (Cmul Ci (RtoC (taylor_wavevector n_eff n_g D lam0 omega * L)))).

(** The left-hand side of a field equation at the [i]-th sample, for
    the pin amplitudes [A]: "the sum over all (pin, coefficient) pairs,
    each multiplied by that pin's unknown complex field amplitude". *)
Definition equation_lhs (A : nat -> C) (i : nat) (eq : gmap nat coef) : C :=
  map_fold (fun pin k acc => Cadd (Cmul (coef_at k i) (A pin)) acc) (RtoC 0) eq.

(** The coupler that [DirectionalCoupler(kap, pins=ps)] stores, with
    the default phases. *)
Definition coupler_on (ps : list Pin) (kap : R) : DirectionalCoupler.t :=
  DirectionalCoupler.mk ps
    (Cmul (RtoC kap)
          (Cexp (Cmul Ci (RtoC DirectionalCoupler.default_cross_coupling_phase))))
    (Cmul (RtoC (sqrt (1 - kap ^ 2)))
          (Cexp (Cmul Ci (RtoC DirectionalCoupler.default_self_coupling_phase)))).

(** The ring resonator over the pins [p0 .. p3]. *)
Definition ring_on (p0 p1 p2 p3 : Pin)
    (radius kap n_eff n_g D loss lam0 : R) (omegas : list R) : RingResonator.t :=
  RingResonator.mk
    (Composite.mk [p0; p1; p2; p3] n_eff n_g D loss lam0 omegas
       [ OfDirectionalCoupler (coupler_on [p0; p1; p2; p3] kap);
         OfWaveguide
           (Waveguide.mk [p3; p1] (2 * PI * radius) n_eff n_g D loss lam0 omegas
                         (2 * PI / lam0 * c)) ])
    radius kap.

(** The add-drop filter over the pins [p0 .. p7]. *)
Definition filter_on (p0 p1 p2 p3 p4 p5 p6 p7 : Pin)
    (radius kap_in kap_aux n_eff n_g D loss lam0 : R) (omegas : list R)
    : AddDropFilter.t :=
  AddDropFilter.mk
    (Composite.mk [p0; p1; p2; p3; p4; p5; p6; p7] n_eff n_g D loss lam0 omegas
       [ OfDirectionalCoupler (coupler_on [p0; p1; p2; p3] kap_in);
         OfDirectionalCoupler (coupler_on [p4; p5; p6; p7] kap_aux);
         OfWaveguide
           (Waveguide.mk [p3; p5] (radius * PI) n_eff n_g D loss lam0 omegas
                         (2 * PI / lam0 * c));
         OfWaveguide
           (Waveguide.mk [p7; p1] (radius * PI) n_eff n_g D loss lam0 omegas
                         (2 * PI / lam0 * c)) ])
    radius kap_in kap_aux.

(** A child waveguide carries the dispersion and loss attributes and
    the sweep of the composite [k]. *)
Definition inherits (k : CompositeStructure.t) (w : Waveguide.t) : Prop :=
  Waveguide.effective_refractive_index w = Composite.effective_refractive_index k /\
  Waveguide.group_refractive_index w = Composite.group_refractive_index k /\
  Waveguide.GVD w = Composite.GVD k /\
  Waveguide.loss_dB w = Composite.loss_dB k /\
  Waveguide.central_wavelength w = Composite.central_wavelength k /\
  Waveguide.angular_frequencies w = Composite.angular_frequencies k.

(** *** Closing a circuit with a source, and solving it *)

(** [k.structures.append(Source(amplitude, pins=[k.pins[i]]))]: the
    statement by which [ring_degub] and [add_drop_filter_debug] close a
    pin of an assembled circuit with a source (the phase keeps its
    default). *)
Definition attach_source (k : CompositeStructure.t) (amplitude : C) (i : nat)
    : M CompositeStructure.t :=
  let! p := lift (getitem (Composite.pins k) i) in
  let! src := Source.init amplitude 0%R (Some [p]) in
  ret (CompositeStructure.append k (OfSource src)).

(** The amplitudes [A] satisfy, at the [i]-th sample, every field
    equation of [s] with its ordinate as right-hand side. *)
Definition solves (A : nat -> C) (i : nat) (s : Structure) : Prop :=
  exists eqs, field_equations s = inr eqs /\
              Forall2 (fun eq b => equation_lhs A i eq = b) eqs (ordinate_vector s).

End Specification.

(* ================================================================== *)
(** * Properties                                                       *)
(* ================================================================== *)

Local Open Scope R_scope.

(** ** Complex arithmetic *)

Lemma C_eq (a b : C) : re a = re b -> im a = im b -> a = b.
Proof. destruct a, b; simpl; intros -> ->; reflexivity. Qed.

(** [1j * x * y] for real [x] and [y] is the imaginary number [x y]. *)
Lemma Ci_mul_real (x y : R) :
  Cmul (Cmul Ci (RtoC x)) (RtoC y) = mkC 0 (x * y).
Proof. apply C_eq; simpl; ring. Qed.

Lemma Ci_mul_real1 (x : R) : Cmul Ci (RtoC x) = mkC 0 x.
Proof. apply C_eq; simpl; ring. Qed.

(** Euler's formula, as [np.exp] computes it. *)
Lemma Cexp_imaginary (x : R) : Cexp (mkC 0 x) = mkC (cos x) (sin x).
Proof. unfold Cexp; simpl; rewrite exp_0; apply C_eq; simpl; ring. Qed.

Lemma cos2_sin2 (x : R) : cos x * cos x + sin x * sin x = 1.
Proof. pose proof (sin2_cos2 x) as H; unfold Rsqr in H; lra. Qed.

Lemma Cabs_Cexp_imaginary (x : R) : Cabs (Cexp (mkC 0 x)) = 1.
Proof.
  rewrite Cexp_imaginary; unfold Cabs; simpl.
  rewrite cos2_sin2; apply sqrt_1.
Qed.

(** The modulus of a real multiple of a unit phasor. *)
Lemma Cabs_scale_phasor (r x : R) :
  Cabs (Cmul (RtoC r) (mkC (cos x) (sin x))) = Rabs r.
Proof.
  unfold Cabs; simpl.
  replace ((r * cos x - 0 * sin x) * (r * cos x - 0 * sin x) +
           (r * sin x + 0 * cos x) * (r * sin x + 0 * cos x))
    with (r * r * (cos x * cos x + sin x * sin x)) by ring.
  rewrite cos2_sin2, Rmult_1_r.
  fold (Rsqr r). apply sqrt_Rsqr_abs.
Qed.

Lemma Cabs_Copp (z : C) : Cabs (Copp z) = Cabs z.
Proof. unfold Cabs; simpl; f_equal; ring. Qed.

(** ** The pin counter *)

Lemma allocate_many_seq (k n : nat) :
  PinRegistry.allocate_many k n = (inr (seq n k), (n + k)%nat).
Proof.
  revert n; induction k as [|k IH]; intros n; simpl.
  - unfold ret; f_equal; lia.
  - unfold bind, PinRegistry.allocate at 1; simpl.
    rewrite IH; unfold ret; f_equal; lia.
Qed.

(** What the base class leaves in [self.pins] when it returns. *)
Lemma BaseStructure_init_inv (k : nat) (pins : option (list Pin)) (n n' : nat)
      (ps : list Pin) :
  BaseStructure.init k pins n = (inr ps, n') ->
  length ps = k /\
  match pins with
  | None => ps = seq n k /\ n' = (n + k)%nat
  | Some l => ps = l /\ n' = n
  end.
Proof.
  destruct pins as [l|]; simpl.
  - destruct (Nat.eqb_spec (length l) k) as [E|E]; unfold ret, raise; intros H.
    + injection H as <- <-; auto.
    + discriminate.
  - rewrite allocate_many_seq; intros H; injection H as <- <-.
    rewrite length_seq; auto.
Qed.

Lemma BaseStructure_init_default (k n : nat) :
  BaseStructure.init k None n = (inr (seq n k), (n + k)%nat).
Proof. apply allocate_many_seq. Qed.

Lemma BaseStructure_init_supplied (k n : nat) (l : list Pin) :
  length l = k -> BaseStructure.init k (Some l) n = (inr l, n).
Proof. intros <-; simpl; rewrite Nat.eqb_refl; reflexivity. Qed.

(** The base class never raises anything but its own rejection. *)
Lemma BaseStructure_init_exn (k : nat) (pins : option (list Pin)) (n n' : nat)
      (e : exn) :
  BaseStructure.init k pins n = (inl e, n') -> e = PinCountError.
Proof.
  destruct pins as [l|]; simpl.
  - destruct (length l =? k)%nat; unfold ret, raise; intros H;
      [discriminate | injection H as <- _; reflexivity].
  - rewrite allocate_many_seq; discriminate.
Qed.

(** ** Waveguide *)

(** A two-element list, from its length. *)
Lemma list_length_2 {A : Type} (l : list A) :
  length l = 2%nat -> exists a b, l = [a; b].
Proof.
  destruct l as [|a [|b [|? ?]]]; simpl; try discriminate; eauto.
Qed.

(** What [Waveguide.__init__] returns, when it returns. *)
Lemma Waveguide_init_inv (L n_eff n_g D loss lam0 : R) (omegas : list R)
      (pins : option (list Pin)) (n n' : nat) (wg : Waveguide.t) :
  Waveguide.init L n_eff n_g D loss lam0 omegas pins n = (inr wg, n') ->
  lam0 <> 0 /\
  exists ps, BaseStructure.init Waveguide.num_pins pins n = (inr ps, n') /\
             wg = Waveguide.mk ps L n_eff n_g D loss lam0 omegas
                               (2 * PI / lam0 * c).
Proof.
  unfold Waveguide.init, bind.
  destruct (BaseStructure.init Waveguide.num_pins pins n) as [[e|ps] m];
    [discriminate|].
  destruct (Req_dec_T lam0 0) as [E|E]; unfold raise, ret; intros H;
    [discriminate|].
  injection H as <- <-; eauto.
Qed.

Lemma Waveguide_init_ok (L n_eff n_g D loss lam0 : R) (omegas : list R)
      (pins : option (list Pin)) (n n' : nat) (ps : list Pin) :
  lam0 <> 0 ->
  BaseStructure.init Waveguide.num_pins pins n = (inr ps, n') ->
  Waveguide.init L n_eff n_g D loss lam0 omegas pins n =
    (inr (Waveguide.mk ps L n_eff n_g D loss lam0 omegas (2 * PI / lam0 * c)), n').
Proof.
  intros Hl Hb; unfold Waveguide.init, bind; rewrite Hb.
  destruct (Req_dec_T lam0 0); [contradiction | reflexivity].
Qed.

(** The loss factor of the source is the decibel law [10^(-loss L / 20)]. *)
Lemma loss_amplitude_dB (loss L : R) :
  exp (- loss * ln 10 / 20 * L) = Rpower 10 (- (loss * L) / 20).
Proof. unfold Rpower; f_equal; field. Qed.

Lemma Copp_Cmul_real (a : R) (z : C) : Cmul (RtoC (- a)) z = Copp (Cmul (RtoC a) z).
Proof. apply C_eq; simpl; ring. Qed.

Lemma wavevector_taylor (ps : list Pin) (L n_eff n_g D loss lam0 : R)
      (omegas : list R) :
  Waveguide.wavevector
    (Waveguide.mk ps L n_eff n_g D loss lam0 omegas (2 * PI / lam0 * c)) =
  map (taylor_wavevector n_eff n_g D lam0) omegas.
Proof.
  unfold Waveguide.wavevector; simpl.
  apply map_ext; intros omega; unfold taylor_wavevector.
  unfold Rdiv; ring.
Qed.

Lemma waveguide_coefficient (ps : list Pin) (L n_eff n_g D loss lam0 : R)
      (omegas : list R) :
  let self := Waveguide.mk ps L n_eff n_g D loss lam0 omegas (2 * PI / lam0 * c) in
  map (fun k => Cmul (RtoC (- exp (- loss * ln 10 / 20 * L)))
                     (Cexp (Cmul (Cmul Ci (RtoC k)) (RtoC L))))
      (Waveguide.wavevector self) =
  map (fun omega => Copp (transfer_factor L n_eff n_g D loss lam0 omega)) omegas.
Proof.
  intros self; unfold self; rewrite wavevector_taylor, map_map.
  apply map_ext; intros omega.
  rewrite Copp_Cmul_real, loss_amplitude_dB; unfold transfer_factor.
  rewrite Ci_mul_real, Ci_mul_real1; reflexivity.
Qed.

(** The one equation of a constructed waveguide, in closed form. *)
Lemma Waveguide_equation_closed_form
    (L n_eff n_g D loss lam0 : R) (omegas : list R)
    (pins : option (list Pin)) (n n' : nat) (wg : Waveguide.t) :
  Waveguide.init L n_eff n_g D loss lam0 omegas pins n = (inr wg, n') ->
  exists pin_in pin_out,
    Waveguide.pins wg = [pin_in; pin_out] /\
    Waveguide.field_equations wg =
      inr [ <[pin_out := Scalar (RtoC 1)]>
              (<[pin_in := Sweep (map (fun omega =>
                    Copp (transfer_factor L n_eff n_g D loss lam0 omega)) omegas)]> ∅) ].
Proof.
  intros H. apply Waveguide_init_inv in H as (Hl & ps & Hb & ->).
  apply BaseStructure_init_inv in Hb as [Hlen _].
  apply list_length_2 in Hlen as (pin_in & pin_out & ->).
  exists pin_in, pin_out; split; [reflexivity|].
  unfold Waveguide.field_equations; cbn [Waveguide.pins getitem rbind].
  simpl. cbn [Waveguide.loss_dB Waveguide.length].
  rewrite waveguide_coefficient. reflexivity.
Qed.

(** C1.  A waveguide returned by the constructor has two pins and
    exactly one field equation, the dict [{pin_in: -a exp(i k(omega) L),
    pin_out: 1}]: the entry of [pin_in] holds, for each angular frequency
    of the sweep, minus the loss factor [a = 10^(-loss L / 20) =
    exp(-loss ln(10)/20 L)] times the phase factor of the second-order
    wavevector around [omega0 = 2 pi c / lam0], and the entry of
    [pin_out] is 1.  With two different pins the two entries are read
    back as written. *)
Theorem waveguide_field_equations
    (L n_eff n_g D loss lam0 : R) (omegas : list R)
    (pins : option (list Pin)) (n n' : nat) (wg : Waveguide.t) :
  Waveguide.init L n_eff n_g D loss lam0 omegas pins n = (inr wg, n') ->
  exists pin_in pin_out (eq : gmap nat coef),
    Waveguide.pins wg = [pin_in; pin_out] /\
    Waveguide.field_equations wg = inr [eq] /\
    eq = <[pin_out := Scalar (RtoC 1)]>
           (<[pin_in := Sweep (map (fun omega =>
                 Copp (transfer_factor L n_eff n_g D loss lam0 omega)) omegas)]> ∅) /\
    Rpower 10 (- (loss * L) / 20) = exp (- loss * ln 10 / 20 * L) /\
    (pin_in <> pin_out ->
     eq !! pin_out = Some (Scalar (RtoC 1)) /\
     forall (i : nat) (omega : R),
       omegas !! i = Some omega ->
       exists k, eq !! pin_in = Some k /\
                 coef_at k i = Copp (transfer_factor L n_eff n_g D loss lam0 omega)).
Proof.
  intros H.
  destruct (Waveguide_equation_closed_form _ _ _ _ _ _ _ _ _ _ _ H)
    as (pin_in & pin_out & Hp & Hf).
  exists pin_in, pin_out; eexists; split; [exact Hp|].
  split; [exact Hf|]. split; [reflexivity|]. split.
  - symmetry; apply loss_amplitude_dB.
  - intros Hne; split.
    + apply lookup_insert_eq.
    + intros i omega Hi; eexists; split.
      * rewrite lookup_insert_ne by congruence. apply lookup_insert_eq.
      * simpl. erewrite nth_lookup_Some; [reflexivity|].
        rewrite list_lookup_fmap, Hi; reflexivity.
Qed.

(** A lossless unit waveguide on fresh pins 0 and 1, swept at one
    frequency. *)
Lemma waveguide_field_equations_witness :
  exists wg,
    Waveguide.init 1 1 1 0 0 1 [0] None 0%nat = (inr wg, 2%nat) /\
    exists (eq : gmap nat coef),
      Waveguide.pins wg = [0; 1]%nat /\
      Waveguide.field_equations wg = inr [eq] /\
      eq !! 1%nat = Some (Scalar (RtoC 1)) /\
      exists k, eq !! 0%nat = Some k /\
                coef_at k 0 = Copp (transfer_factor 1 1 1 0 0 1 0).
Proof.
  assert (H : Waveguide.init 1 1 1 0 0 1 [0] None 0%nat =
              (inr (Waveguide.mk [0%nat; 1%nat] 1 1 1 0 0 1 [0] (2 * PI / 1 * c)),
               2%nat)).
  { apply Waveguide_init_ok; [lra | reflexivity]. }
  eexists; split; [exact H|].
  destruct (waveguide_field_equations _ _ _ _ _ _ _ _ _ _ _ H)
    as (pin_in & pin_out & eq & Hp & Hf & _ & _ & Hread).
  simpl in Hp; injection Hp as <- <-.
  destruct (Hread ltac:(lia)) as [Hout Hin].
  exists eq. split; [reflexivity|]. split; [exact Hf|]. split; [exact Hout|].
  exact (Hin 0%nat 0 eq_refl).
Defined.

(** The modulus of the transfer factor is the loss factor alone: the
    phase factor has modulus one whatever the frequency. *)
Lemma Cabs_transfer_factor (L n_eff n_g D loss lam0 omega : R) :
  Cabs (transfer_factor L n_eff n_g D loss lam0 omega) =
  Rpower 10 (- (loss * L) / 20).
Proof.
  unfold transfer_factor.
  rewrite Ci_mul_real1, Cexp_imaginary, Cabs_scale_phasor.
  apply Rabs_pos_eq; unfold Rpower; left; apply exp_pos.
Qed.

Lemma Copp_involutive (z : C) : Copp (Copp z) = z.
Proof. apply C_eq; simpl; ring. Qed.

(** C5.  In the single field equation [{pin_in: zs, pin_out: 1}] of a
    waveguide returned by the constructor, [zs] has one entry per
    sample of the sweep, and the transfer coefficient [-z] of every
    entry [z] has modulus 1 when [loss_dB = 0] and modulus
    [10^(-loss L / 20)] when [loss_dB > 0]: a value in which the
    frequency does not occur.  With two different pins [zs] is what the
    equation holds at [pin_in]. *)
Theorem waveguide_transfer_magnitude
    (L n_eff n_g D loss lam0 : R) (omegas : list R)
    (pins : option (list Pin)) (n n' : nat) (wg : Waveguide.t) :
  Waveguide.init L n_eff n_g D loss lam0 omegas pins n = (inr wg, n') ->
  exists pin_in pin_out (zs : list C),
    Waveguide.pins wg = [pin_in; pin_out] /\
    Waveguide.field_equations wg =
      inr [ <[pin_out := Scalar (RtoC 1)]> (<[pin_in := Sweep zs]> ∅) ] /\
    length zs = length omegas /\
    (forall (i : nat) (z : C),
       zs !! i = Some z ->
       (loss = 0 -> Cabs (Copp z) = 1) /\
       (0 < loss -> Cabs (Copp z) = Rpower 10 (- (loss * L) / 20))) /\
    (pin_in <> pin_out ->
     (<[pin_out := Scalar (RtoC 1)]> (<[pin_in := Sweep zs]> ∅) : gmap nat coef)
       !! pin_in = Some (Sweep zs)).
Proof.
  intros H.
  destruct (Waveguide_equation_closed_form _ _ _ _ _ _ _ _ _ _ _ H)
    as (pin_in & pin_out & Hp & Hf).
  exists pin_in, pin_out; eexists; split; [exact Hp|].
  split; [exact Hf|]. split; [apply length_map|]. split.
  - intros i z Hz.
    rewrite list_lookup_fmap in Hz.
    destruct (omegas !! i) as [omega|]; [|discriminate].
    injection Hz as <-.
    rewrite Copp_involutive, Cabs_transfer_factor; split.
    + intros ->.
      replace (- (0 * L) / 20) with 0 by field.
      apply Rpower_O; lra.
    + reflexivity.
  - intros Hne. rewrite lookup_insert_ne by congruence. apply lookup_insert_eq.
Qed.

(** A unit waveguide with 20 dB/m of loss, swept at two frequencies:
    both transfer coefficients have modulus [10^(-1)]. *)
Lemma waveguide_transfer_magnitude_witness :
  exists wg,
    Waveguide.init 1 1 1 0 20 1 [0; 1] None 0%nat = (inr wg, 2%nat) /\
    exists (zs : list C),
      Waveguide.field_equations wg =
        inr [ <[1%nat := Scalar (RtoC 1)]> (<[0%nat := Sweep zs]> ∅) ] /\
      length zs = 2%nat /\
      (<[1%nat := Scalar (RtoC 1)]> (<[0%nat := Sweep zs]> ∅) : gmap nat coef)
        !! 0%nat = Some (Sweep zs) /\
      forall (i : nat) (z : C),
        zs !! i = Some z -> Cabs (Copp z) = Rpower 10 (- (20 * 1) / 20).
Proof.
  assert (H : Waveguide.init 1 1 1 0 20 1 [0; 1] None 0%nat =
              (inr (Waveguide.mk [0%nat; 1%nat] 1 1 1 0 20 1 [0; 1]
                                 (2 * PI / 1 * c)), 2%nat)).
  { apply Waveguide_init_ok; [lra | reflexivity]. }
  eexists; split; [exact H|].
  destruct (waveguide_transfer_magnitude _ _ _ _ _ _ _ _ _ _ _ H)
    as (pin_in & pin_out & zs & Hp & Hf & Hlen & Hz & Hread).
  simpl in Hp; injection Hp as <- <-.
  exists zs; split; [exact Hf|]. split; [exact Hlen|].
  split; [apply Hread; lia|].
  intros i z Hi. apply (Hz i z Hi). lra.
Defined.

(** ** Directional coupler *)

Lemma list_length_4 {A : Type} (l : list A) :
  length l = 4%nat -> exists a b c d, l = [a; b; c; d].
Proof.
  destruct l as [|a [|b [|c0 [|d [|? ?]]]]]; simpl; try discriminate.
  intros _; exists a, b, c0, d; reflexivity.
Qed.

(** What [DirectionalCoupler.__init__] returns, when it returns. *)
Lemma DirectionalCoupler_init_inv (kap phi_self phi_cross : R)
      (pins : option (list Pin)) (n n' : nat) (dc : DirectionalCoupler.t) :
  DirectionalCoupler.init kap phi_self phi_cross pins n = (inr dc, n') ->
  exists ps,
    BaseStructure.init DirectionalCoupler.num_pins pins n = (inr ps, n') /\
    dc = DirectionalCoupler.mk ps
           (Cmul (RtoC kap) (Cexp (Cmul Ci (RtoC phi_cross))))
           (Cmul (RtoC (sqrt (1 - kap ^ 2))) (Cexp (Cmul Ci (RtoC phi_self)))).
Proof.
  unfold DirectionalCoupler.init, bind.
  destruct (BaseStructure.init DirectionalCoupler.num_pins pins n) as [[e|ps] m];
    [discriminate|].
  unfold ret; intros H; injection H as <- <-; eauto.
Qed.

Lemma DirectionalCoupler_init_ok (kap phi_self phi_cross : R)
      (pins : option (list Pin)) (n n' : nat) (ps : list Pin) :
  BaseStructure.init DirectionalCoupler.num_pins pins n = (inr ps, n') ->
  DirectionalCoupler.init kap phi_self phi_cross pins n =
    (inr (DirectionalCoupler.mk ps
            (Cmul (RtoC kap) (Cexp (Cmul Ci (RtoC phi_cross))))
            (Cmul (RtoC (sqrt (1 - kap ^ 2))) (Cexp (Cmul Ci (RtoC phi_self))))),
     n').
Proof. intros Hb; unfold DirectionalCoupler.init, bind; rewrite Hb; reflexivity. Qed.

(** A real magnitude rotated by a phase, in Cartesian form. *)
Lemma polar_form (r phi : R) :
  Cmul (RtoC r) (Cexp (Cmul Ci (RtoC phi))) = mkC (r * cos phi) (r * sin phi).
Proof.
  rewrite Ci_mul_real1, Cexp_imaginary; apply C_eq; simpl; ring.
Qed.

Lemma Cabs_polar (r phi : R) :
  Cabs (Cmul (RtoC r) (Cexp (Cmul Ci (RtoC phi)))) = Rabs r.
Proof. rewrite Ci_mul_real1, Cexp_imaginary; apply Cabs_scale_phasor. Qed.

(** Summation of the terms of an equation does not depend on the order. *)
Lemma equation_term_comm (A : nat -> C) (i : nat) (j1 j2 : nat) (z1 z2 : coef) (y : C) :
  Cadd (Cmul (coef_at z1 i) (A j1)) (Cadd (Cmul (coef_at z2 i) (A j2)) y) =
  Cadd (Cmul (coef_at z2 i) (A j2)) (Cadd (Cmul (coef_at z1 i) (A j1)) y).
Proof. apply C_eq; simpl; ring. Qed.

(** The left-hand side of a three-term equation over different pins. *)
Lemma equation_lhs_three (A : nat -> C) (i : nat) (pa pb pc : nat) (ka kb kc : C) :
  pa <> pb -> pa <> pc -> pb <> pc ->
  equation_lhs A i (<[pc := Scalar kc]> (<[pb := Scalar kb]> (<[pa := Scalar ka]> ∅))) =
  Cadd (Cmul kc (A pc)) (Cadd (Cmul kb (A pb)) (Cadd (Cmul ka (A pa)) (RtoC 0))).
Proof.
  intros Hab Hac Hbc; unfold equation_lhs.
  rewrite map_fold_insert_L; cycle 1.
  { intros; apply equation_term_comm. }
  { rewrite !lookup_insert_ne by congruence; apply lookup_empty. }
  rewrite map_fold_insert_L; cycle 1.
  { intros; apply equation_term_comm. }
  { rewrite lookup_insert_ne by congruence; apply lookup_empty. }
  rewrite map_fold_insert_L; cycle 1.
  { intros; apply equation_term_comm. }
  { apply lookup_empty. }
  rewrite map_fold_empty; reflexivity.
Qed.

(** [s a + k b - x = 0] says [x = s a + k b]. *)
Lemma scattering_row (s k a b x : C) :
  Cadd (Cmul (RtoC (-1)) x) (Cadd (Cmul k b) (Cadd (Cmul s a) (RtoC 0))) = RtoC 0 <->
  x = Cadd (Cmul s a) (Cmul k b).
Proof.
  destruct s as [sr si], k as [kr ki], a as [ar ai], b as [br bi], x as [xr xi].
  unfold Cadd, Cmul, RtoC; simpl; split; intros H.
  - injection H as H1 H2; f_equal; lra.
  - injection H as -> ->; f_equal; lra.
Qed.

(** The two equations of a constructed coupler. *)
Lemma DirectionalCoupler_equations (ps : list Pin) (k s : C) :
  length ps = 4%nat ->
  exists p0 p1 p2 p3,
    ps = [p0; p1; p2; p3] /\
    DirectionalCoupler.field_equations (DirectionalCoupler.mk ps k s) =
      inr [ <[p2 := Scalar (RtoC (-1))]>
              (<[p1 := Scalar k]> (<[p0 := Scalar s]> ∅));
            <[p3 := Scalar (RtoC (-1))]>
              (<[p1 := Scalar (conj s)]> (<[p0 := Scalar (Copp (conj k))]> ∅)) ].
Proof.
  intros Hlen; apply list_length_4 in Hlen as (p0 & p1 & p2 & p3 & ->).
  exists p0, p1, p2, p3; split; reflexivity.
Qed.

(** C2.  A coupler returned by the constructor has four pins, stores
    [k = kappa e^(i phi_cross)] and (where [1 - kappa^2] has a real
    square root) [sigma = sqrt(1 - kappa^2) e^(i phi_self)], and has
    exactly the two field equations [{pin0: sigma, pin1: k, pin2: -1}]
    and [{pin0: -conj(k), pin1: conj(sigma), pin3: -1}].  Over four
    different pins the first vanishes exactly when [A2 = sigma A0 + k A1]
    and the second exactly when [A3 = -conj(k) A0 + conj(sigma) A1]. *)
Theorem coupler_field_equations
    (kap phi_self phi_cross : R) (pins : option (list Pin)) (n n' : nat)
    (dc : DirectionalCoupler.t) :
  DirectionalCoupler.init kap phi_self phi_cross pins n = (inr dc, n') ->
  exists p0 p1 p2 p3 (eq1 eq2 : gmap nat coef),
    let k := DirectionalCoupler.kappa dc in
    let s := DirectionalCoupler.sigma dc in
    DirectionalCoupler.pins dc = [p0; p1; p2; p3] /\
    k = mkC (kap * cos phi_cross) (kap * sin phi_cross) /\
    (0 <= 1 - kap ^ 2 ->
     s = mkC (sqrt (1 - kap ^ 2) * cos phi_self) (sqrt (1 - kap ^ 2) * sin phi_self)) /\
    DirectionalCoupler.field_equations dc = inr [eq1; eq2] /\
    eq1 = <[p2 := Scalar (RtoC (-1))]> (<[p1 := Scalar k]> (<[p0 := Scalar s]> ∅)) /\
    eq2 = <[p3 := Scalar (RtoC (-1))]>
            (<[p1 := Scalar (conj s)]> (<[p0 := Scalar (Copp (conj k))]> ∅)) /\
    (NoDup [p0; p1; p2; p3] ->
     forall (A : nat -> C) (i : nat),
       (equation_lhs A i eq1 = RtoC 0 <->
        A p2 = Cadd (Cmul s (A p0)) (Cmul k (A p1))) /\
       (equation_lhs A i eq2 = RtoC 0 <->
        A p3 = Cadd (Cmul (Copp (conj k)) (A p0)) (Cmul (conj s) (A p1)))).
Proof.
  intros H. apply DirectionalCoupler_init_inv in H as (ps & Hb & ->).
  apply BaseStructure_init_inv in Hb as [Hlen _].
  destruct (DirectionalCoupler_equations ps
              (Cmul (RtoC kap) (Cexp (Cmul Ci (RtoC phi_cross))))
              (Cmul (RtoC (sqrt (1 - kap ^ 2))) (Cexp (Cmul Ci (RtoC phi_self))))
              Hlen) as (p0 & p1 & p2 & p3 & -> & Hf).
  exists p0, p1, p2, p3; do 2 eexists; cbn zeta.
  split; [reflexivity|].
  split; [apply polar_form|]. split; [intros _; apply polar_form|].
  split; [exact Hf|]. split; [reflexivity|]. split; [reflexivity|].
  intros Hnd A i.
  apply NoDup_cons in Hnd as [H0 Hnd]. apply NoDup_cons in Hnd as [H1 Hnd].
  apply NoDup_cons in Hnd as [H2 _].
  repeat rewrite not_elem_of_cons in H0.
  repeat rewrite not_elem_of_cons in H1.
  repeat rewrite not_elem_of_cons in H2.
  destruct H0 as (H01 & H02 & H03 & _), H1 as (H12 & H13 & _), H2 as (H23 & _).
  cbn [DirectionalCoupler.kappa DirectionalCoupler.sigma].
  rewrite !equation_lhs_three by congruence.
  split; apply scattering_row.
Qed.

(** The coupler with [kappa = 1] and the default phases, on fresh pins
    0 to 3. *)
Lemma coupler_field_equations_witness :
  exists dc (eq1 eq2 : gmap nat coef),
    DirectionalCoupler.init 1 0 (PI / 2) None 0%nat = (inr dc, 4%nat) /\
    DirectionalCoupler.pins dc = [0; 1; 2; 3]%nat /\
    DirectionalCoupler.field_equations dc = inr [eq1; eq2] /\
    DirectionalCoupler.sigma dc = mkC (sqrt (1 - 1 ^ 2) * cos 0) (sqrt (1 - 1 ^ 2) * sin 0) /\
    forall (A : nat -> C),
      (equation_lhs A 0 eq1 = RtoC 0 <->
       A 2%nat = Cadd (Cmul (DirectionalCoupler.sigma dc) (A 0%nat))
                      (Cmul (DirectionalCoupler.kappa dc) (A 1%nat))) /\
      (equation_lhs A 0 eq2 = RtoC 0 <->
       A 3%nat = Cadd (Cmul (Copp (conj (DirectionalCoupler.kappa dc))) (A 0%nat))
                      (Cmul (conj (DirectionalCoupler.sigma dc)) (A 1%nat))).
Proof.
  pose proof (DirectionalCoupler_init_ok 1 0 (PI / 2) None 0 4 (seq 0 4) eq_refl) as H.
  destruct (coupler_field_equations _ _ _ _ _ _ _ H)
    as (p0 & p1 & p2 & p3 & eq1 & eq2 & Hp & _ & Hs & Hf & _ & _ & Hrel).
  simpl in Hp; injection Hp as <- <- <- <-.
  eexists; exists eq1, eq2. split; [exact H|].
  split; [reflexivity|]. split; [exact Hf|].
  split; [apply Hs; lra|].
  intros A. exact (Hrel (NoDup_seq 0 4) A 0%nat).
Defined.

(** C4.  For a cross-coupling magnitude [kappa] between 0 and 1 and any
    two phases, a coupler returned by the constructor stores the
    cross-coupling coefficient [k = kappa e^(i phi_cross)] and the
    derived self-coupling coefficient
    [sigma = sqrt(1 - kappa^2) e^(i phi_self)], of moduli [kappa] and
    [sqrt(1 - kappa^2)], and they satisfy [|sigma|^2 + |k|^2 = 1]. *)
Theorem coupler_unitarity
    (kap phi_self phi_cross : R) (pins : option (list Pin)) (n n' : nat)
    (dc : DirectionalCoupler.t) :
  0 <= kap <= 1 ->
  DirectionalCoupler.init kap phi_self phi_cross pins n = (inr dc, n') ->
  let k := DirectionalCoupler.kappa dc in
  let s := DirectionalCoupler.sigma dc in
  k = Cmul (RtoC kap) (Cexp (Cmul Ci (RtoC phi_cross))) /\
  k = mkC (kap * cos phi_cross) (kap * sin phi_cross) /\
  s = Cmul (RtoC (sqrt (1 - kap ^ 2))) (Cexp (Cmul Ci (RtoC phi_self))) /\
  s = mkC (sqrt (1 - kap ^ 2) * cos phi_self) (sqrt (1 - kap ^ 2) * sin phi_self) /\
  Cabs k = kap /\
  Cabs s = sqrt (1 - kap ^ 2) /\
  Cabs s ^ 2 + Cabs k ^ 2 = 1.
Proof.
  intros [H0 H1] H. apply DirectionalCoupler_init_inv in H as (ps & _ & ->).
  cbn zeta. cbn [DirectionalCoupler.kappa DirectionalCoupler.sigma].
  split; [reflexivity|]. split; [apply polar_form|].
  split; [reflexivity|]. split; [apply polar_form|].
  rewrite !Cabs_polar.
  assert (Hk : Rabs kap = kap) by (apply Rabs_pos_eq; exact H0).
  assert (Hs : Rabs (sqrt (1 - kap ^ 2)) = sqrt (1 - kap ^ 2))
    by (apply Rabs_pos_eq, sqrt_pos).
  rewrite Hk, Hs. split; [reflexivity|]. split; [reflexivity|].
  rewrite <- !Rsqr_pow2.
  rewrite Rsqr_sqrt by (unfold Rsqr; nra).
  unfold Rsqr; ring.
Qed.

(** The coupler with [kappa = 1/2], self phase 1 and cross phase 2. *)
Lemma coupler_unitarity_witness :
  exists dc,
    0 <= 1 / 2 <= 1 /\
    DirectionalCoupler.init (1 / 2) 1 2 None 0%nat = (inr dc, 4%nat) /\
    DirectionalCoupler.kappa dc = mkC (1 / 2 * cos 2) (1 / 2 * sin 2) /\
    DirectionalCoupler.sigma dc =
      mkC (sqrt (1 - (1 / 2) ^ 2) * cos 1) (sqrt (1 - (1 / 2) ^ 2) * sin 1) /\
    Cabs (DirectionalCoupler.kappa dc) = 1 / 2 /\
    Cabs (DirectionalCoupler.sigma dc) ^ 2 + Cabs (DirectionalCoupler.kappa dc) ^ 2 = 1.
Proof.
  pose proof (DirectionalCoupler_init_ok (1 / 2) 1 2 None 0 4 (seq 0 4) eq_refl) as H.
  destruct (coupler_unitarity (1 / 2) 1 2 None 0 4 _ ltac:(lra) H)
    as (_ & Hk & _ & Hs & Hmk & _ & Hsum).
  eexists; split; [lra|]. split; [exact H|].
  split; [exact Hk|]. split; [exact Hs|]. split; [exact Hmk | exact Hsum].
Defined.

(** ** Source *)

(** C10.  Two sources constructed on the same pin with the same
    amplitude and any two phases have the same field equations, the
    single dict [{pin: 1}], and the same ordinate vector, [[amplitude]]:
    the phase argument reaches no output of a source. *)
Theorem source_phase_unobservable
    (amplitude : C) (phase1 phase2 : R) (pin : nat) (n : nat) :
  exists s1 s2,
    Source.init amplitude phase1 (Some [pin]) n = (inr s1, n) /\
    Source.init amplitude phase2 (Some [pin]) n = (inr s2, n) /\
    Source.field_equations s1 = inr [ <[pin := Scalar (RtoC 1)]> ∅ ] /\
    Source.field_equations s2 = inr [ <[pin := Scalar (RtoC 1)]> ∅ ] /\
    field_equations (OfSource s1) = field_equations (OfSource s2) /\
    Source.ordinate_vector s1 = [amplitude] /\
    Source.ordinate_vector s2 = [amplitude] /\
    ordinate_vector (OfSource s1) = ordinate_vector (OfSource s2).
Proof.
  exists (Source.mk [pin] amplitude phase1), (Source.mk [pin] amplitude phase2).
  repeat split.
Qed.

(** ** Ring resonator *)

(** What [RingResonator.__init__] returns, when it returns. *)
Lemma RingResonator_init_inv
    (radius kap n_eff n_g D loss lam0 : R) (omegas : list R)
    (pins : option (list Pin)) (n n' : nat) (ring : RingResonator.t) :
  RingResonator.init radius kap n_eff n_g D loss lam0 omegas pins n = (inr ring, n') ->
  lam0 <> 0 /\
  exists p0 p1 p2 p3,
    BaseStructure.init RingResonator.num_pins pins n = (inr [p0; p1; p2; p3], n') /\
    ring = ring_on p0 p1 p2 p3 radius kap n_eff n_g D loss lam0 omegas.
Proof.
  unfold RingResonator.init, CompositeStructure.init, bind at 1 2.
  destruct (BaseStructure.init RingResonator.num_pins pins n) as [[e|ps] m] eqn:Hb;
    [discriminate|].
  destruct (BaseStructure_init_inv _ _ _ _ _ Hb) as [Hlen _].
  apply list_length_4 in Hlen as (p0 & p1 & p2 & p3 & ->).
  unfold ret at 1, bind at 1.
  rewrite (DirectionalCoupler_init_ok kap _ _ (Some [p0; p1; p2; p3]) m m
             [p0; p1; p2; p3] eq_refl).
  unfold bind, lift, getitem; cbn [Composite.pins lookup list_lookup].
  simpl.
  unfold Waveguide.init, bind; simpl.
  destruct (Req_dec_T lam0 0) as [E|E]; unfold raise, ret; intros H;
    [discriminate|].
  injection H as <- <-. split; [exact E|].
  exists p0, p1, p2, p3; split; reflexivity.
Qed.

(** The constructor returns whenever the base class accepts the pins
    and the central wavelength is not zero. *)
Lemma RingResonator_init_ok
    (radius kap n_eff n_g D loss lam0 : R) (omegas : list R)
    (pins : option (list Pin)) (n n' : nat) (p0 p1 p2 p3 : Pin) :
  lam0 <> 0 ->
  BaseStructure.init RingResonator.num_pins pins n = (inr [p0; p1; p2; p3], n') ->
  RingResonator.init radius kap n_eff n_g D loss lam0 omegas pins n =
    (inr (ring_on p0 p1 p2 p3 radius kap n_eff n_g D loss lam0 omegas), n').
Proof.
  intros Hl Hb.
  unfold RingResonator.init, CompositeStructure.init, bind at 1 2.
  rewrite Hb. unfold ret at 1, bind at 1.
  rewrite (DirectionalCoupler_init_ok kap _ _ (Some [p0; p1; p2; p3]) n' n'
             [p0; p1; p2; p3] eq_refl).
  unfold bind, lift, getitem; cbn [Composite.pins lookup list_lookup].
  simpl.
  unfold Waveguide.init, bind; simpl.
  destruct (Req_dec_T lam0 0) as [E|E]; [contradiction | reflexivity].
Qed.

(** C3.  A ring resonator returned by the constructor exposes four
    pins; its children are one coupler, built on the ring's own four
    pins, and one waveguide of length [2 pi R] between the ring's
    [pins[3]] and [pins[1]]; the ring contributes exactly three field
    equations, the coupler's two followed by the waveguide's one; and
    the children draw no pin from the counter. *)
Theorem ring_resonator_structure
    (radius kap n_eff n_g D loss lam0 : R) (omegas : list R)
    (pins : option (list Pin)) (n n' : nat) (ring : RingResonator.t) :
  RingResonator.init radius kap n_eff n_g D loss lam0 omegas pins n = (inr ring, n') ->
  exists p0 p1 p2 p3 dc wg e1 e2 e3,
    Composite.pins (RingResonator.base ring) = [p0; p1; p2; p3] /\
    Composite.structures (RingResonator.base ring) =
      [OfDirectionalCoupler dc; OfWaveguide wg] /\
    DirectionalCoupler.pins dc = Composite.pins (RingResonator.base ring) /\
    Waveguide.pins wg = [p3; p1] /\
    Waveguide.length wg = 2 * PI * radius /\
    DirectionalCoupler.field_equations dc = inr [e1; e2] /\
    Waveguide.field_equations wg = inr [e3] /\
    field_equations (OfComposite (RingResonator.base ring)) = inr [e1; e2; e3] /\
    n' = match pins with
         | None => (n + RingResonator.num_pins)%nat
         | Some _ => n
         end.
Proof.
  intros H.
  apply RingResonator_init_inv in H as (Hl & p0 & p1 & p2 & p3 & Hb & ->).
  exists p0, p1, p2, p3. do 5 eexists.
  cbn [RingResonator.base Composite.pins Composite.structures].
  split; [reflexivity|]. split; [reflexivity|]. split; [reflexivity|].
  split; [reflexivity|]. split; [reflexivity|].
  split; [reflexivity|]. split; [reflexivity|]. split; [reflexivity|].
  apply BaseStructure_init_inv in Hb as [_ Hp].
  destruct pins; tauto.
Qed.

(** A ring of unit radius built first after a reset of the counter. *)
Lemma ring_resonator_structure_witness :
  exists ring,
    RingResonator.init 1 (1 / 2) 1 1 0 0 1 [0] None 0%nat = (inr ring, 4%nat) /\
    Composite.pins (RingResonator.base ring) = [0; 1; 2; 3]%nat /\
    exists dc wg e1 e2 e3,
      Composite.structures (RingResonator.base ring) =
        [OfDirectionalCoupler dc; OfWaveguide wg] /\
      DirectionalCoupler.pins dc = [0; 1; 2; 3]%nat /\
      Waveguide.pins wg = [3; 1]%nat /\
      field_equations (OfComposite (RingResonator.base ring)) = inr [e1; e2; e3].
Proof.
  assert (H : RingResonator.init 1 (1 / 2) 1 1 0 0 1 [0] None 0%nat =
              (inr (ring_on 0 1 2 3 1 (1 / 2) 1 1 0 0 1 [0]), 4%nat)).
  { apply RingResonator_init_ok; [lra | reflexivity]. }
  eexists; split; [exact H|].
  destruct (ring_resonator_structure _ _ _ _ _ _ _ _ _ _ _ _ H)
    as (p0 & p1 & p2 & p3 & dc & wg & e1 & e2 & e3
        & Hp & Hs & Hd & Hw & _ & _ & _ & Hf & _).
  simpl in Hp; injection Hp as <- <- <- <-.
  split; [reflexivity|].
  exists dc, wg, e1, e2, e3.
  split; [exact Hs|]. split; [exact Hd|]. split; [exact Hw | exact Hf].
Defined.

(** ** Add-drop filter *)

Lemma list_length_8 {A : Type} (l : list A) :
  length l = 8%nat ->
  exists a0 a1 a2 a3 a4 a5 a6 a7, l = [a0; a1; a2; a3; a4; a5; a6; a7].
Proof.
  destruct l as [|a0 [|a1 [|a2 [|a3 [|a4 [|a5 [|a6 [|a7 [|? ?]]]]]]]]];
    simpl; try discriminate.
  intros _; exists a0, a1, a2, a3, a4, a5, a6, a7; reflexivity.
Qed.

(** The steps of [AddDropFilter.__init__] after the base class has
    returned the eight pins. *)
Lemma AddDropFilter_init_steps
    (radius kap_in kap_aux n_eff n_g D loss lam0 : R) (omegas : list R)
    (pins : option (list Pin)) (n n' : nat) (p0 p1 p2 p3 p4 p5 p6 p7 : Pin) :
  BaseStructure.init AddDropFilter.num_pins pins n =
    (inr [p0; p1; p2; p3; p4; p5; p6; p7], n') ->
  AddDropFilter.init radius kap_in kap_aux n_eff n_g D loss lam0 omegas pins n =
    if Req_dec_T lam0 0 then (inl ZeroDivisionError, n')
    else (inr (filter_on p0 p1 p2 p3 p4 p5 p6 p7
                 radius kap_in kap_aux n_eff n_g D loss lam0 omegas), n').
Proof.
  intros Hb.
  unfold AddDropFilter.init, CompositeStructure.init, bind at 1 2.
  rewrite Hb. unfold ret at 1, bind at 1. cbn [Composite.pins take drop].
  rewrite (DirectionalCoupler_init_ok kap_in _ _ (Some [p0; p1; p2; p3]) n' n'
             [p0; p1; p2; p3] eq_refl).
  unfold bind at 1.
  rewrite (DirectionalCoupler_init_ok kap_aux _ _ (Some [p4; p5; p6; p7]) n' n'
             [p4; p5; p6; p7] eq_refl).
  unfold bind, lift, getitem; cbn [Composite.pins lookup list_lookup].
  simpl.
  unfold Waveguide.init, bind; simpl.
  destruct (Req_dec_T lam0 0) as [E|E]; reflexivity.
Qed.

(** What [AddDropFilter.__init__] returns, when it returns. *)
Lemma AddDropFilter_init_inv
    (radius kap_in kap_aux n_eff n_g D loss lam0 : R) (omegas : list R)
    (pins : option (list Pin)) (n n' : nat) (adf : AddDropFilter.t) :
  AddDropFilter.init radius kap_in kap_aux n_eff n_g D loss lam0 omegas pins n =
    (inr adf, n') ->
  lam0 <> 0 /\
  exists p0 p1 p2 p3 p4 p5 p6 p7,
    BaseStructure.init AddDropFilter.num_pins pins n =
      (inr [p0; p1; p2; p3; p4; p5; p6; p7], n') /\
    adf = filter_on p0 p1 p2 p3 p4 p5 p6 p7
            radius kap_in kap_aux n_eff n_g D loss lam0 omegas.
Proof.
  destruct (BaseStructure.init AddDropFilter.num_pins pins n) as [[e|ps] m] eqn:Hb.
  - unfold AddDropFilter.init, CompositeStructure.init, bind at 1 2.
    rewrite Hb; discriminate.
  - destruct (BaseStructure_init_inv _ _ _ _ _ Hb) as [Hlen _].
    apply list_length_8 in Hlen as (p0 & p1 & p2 & p3 & p4 & p5 & p6 & p7 & ->).
    rewrite (AddDropFilter_init_steps _ _ _ _ _ _ _ _ _ _ _ _ _ _ _ _ _ _ _ _ Hb).
    destruct (Req_dec_T lam0 0) as [E|E]; intros H; [discriminate|].
    injection H as <- <-. split; [exact E|].
    exists p0, p1, p2, p3, p4, p5, p6, p7; split; reflexivity.
Qed.

Lemma AddDropFilter_init_ok
    (radius kap_in kap_aux n_eff n_g D loss lam0 : R) (omegas : list R)
    (pins : option (list Pin)) (n n' : nat) (p0 p1 p2 p3 p4 p5 p6 p7 : Pin) :
  lam0 <> 0 ->
  BaseStructure.init AddDropFilter.num_pins pins n =
    (inr [p0; p1; p2; p3; p4; p5; p6; p7], n') ->
  AddDropFilter.init radius kap_in kap_aux n_eff n_g D loss lam0 omegas pins n =
    (inr (filter_on p0 p1 p2 p3 p4 p5 p6 p7
            radius kap_in kap_aux n_eff n_g D loss lam0 omegas), n').
Proof.
  intros Hl Hb. rewrite (AddDropFilter_init_steps _ _ _ _ _ _ _ _ _ _ _ _ _ _ _ _ _ _ _ _ Hb).
  destruct (Req_dec_T lam0 0); [contradiction | reflexivity].
Qed.

(** C7.  In a ring resonator and in an add-drop filter returned by the
    constructor, the composite holds the effective index, group index,
    GVD coefficient, loss, central wavelength and sweep it was given,
    and every waveguide among its children was constructed with exactly
    those values. *)
Theorem composite_attributes_propagated :
  (forall (radius kap n_eff n_g D loss lam0 : R) (omegas : list R)
          (pins : option (list Pin)) (n n' : nat) (ring : RingResonator.t),
      RingResonator.init radius kap n_eff n_g D loss lam0 omegas pins n =
        (inr ring, n') ->
      let k := RingResonator.base ring in
      (Composite.effective_refractive_index k = n_eff /\
       Composite.group_refractive_index k = n_g /\
       Composite.GVD k = D /\
       Composite.loss_dB k = loss /\
       Composite.central_wavelength k = lam0 /\
       Composite.angular_frequencies k = omegas) /\
      forall w, In (OfWaveguide w) (Composite.structures k) -> inherits k w) /\
  (forall (radius kap_in kap_aux n_eff n_g D loss lam0 : R) (omegas : list R)
          (pins : option (list Pin)) (n n' : nat) (adf : AddDropFilter.t),
      AddDropFilter.init radius kap_in kap_aux n_eff n_g D loss lam0 omegas pins n =
        (inr adf, n') ->
      let k := AddDropFilter.base adf in
      (Composite.effective_refractive_index k = n_eff /\
       Composite.group_refractive_index k = n_g /\
       Composite.GVD k = D /\
       Composite.loss_dB k = loss /\
       Composite.central_wavelength k = lam0 /\
       Composite.angular_frequencies k = omegas) /\
      forall w, In (OfWaveguide w) (Composite.structures k) -> inherits k w).
Proof.
  split.
  - intros * H. apply RingResonator_init_inv in H as (_ & p0 & p1 & p2 & p3 & _ & ->).
    cbn zeta; split; [repeat split|].
    intros w [Hw|[Hw|[]]]; [discriminate|].
    injection Hw as <-. repeat split.
  - intros * H.
    apply AddDropFilter_init_inv in H
      as (_ & p0 & p1 & p2 & p3 & p4 & p5 & p6 & p7 & _ & ->).
    cbn zeta; split; [repeat split|].
    intros w [Hw|[Hw|[Hw|[Hw|[]]]]]; try discriminate;
      injection Hw as <-; repeat split.
Qed.

(** A ring and a filter built with six different attribute values. *)
Lemma composite_attributes_propagated_witness :
  (exists ring,
     RingResonator.init 1 (1 / 2) 2 3 4 5 6 [7; 8] None 0%nat = (inr ring, 4%nat) /\
     exists w, In (OfWaveguide w) (Composite.structures (RingResonator.base ring)) /\
               inherits (RingResonator.base ring) w /\
               Waveguide.effective_refractive_index w = 2 /\
               Waveguide.angular_frequencies w = [7; 8]) /\
  (exists adf,
     AddDropFilter.init 1 (1 / 2) (1 / 4) 2 3 4 5 6 [7; 8] None 0%nat =
       (inr adf, 8%nat) /\
     exists w, In (OfWaveguide w) (Composite.structures (AddDropFilter.base adf)) /\
               inherits (AddDropFilter.base adf) w /\
               Waveguide.loss_dB w = 5).
Proof.
  destruct composite_attributes_propagated as [Hring Hadf].
  split.
  - assert (H : RingResonator.init 1 (1 / 2) 2 3 4 5 6 [7; 8] None 0%nat =
                (inr (ring_on 0 1 2 3 1 (1 / 2) 2 3 4 5 6 [7; 8]), 4%nat)).
    { apply RingResonator_init_ok; [lra | reflexivity]. }
    eexists; split; [exact H|].
    destruct (Hring _ _ _ _ _ _ _ _ _ _ _ _ H) as [_ Hw].
    eexists; split; [right; left; reflexivity|].
    split; [apply Hw; right; left; reflexivity|]. split; reflexivity.
  - assert (H : AddDropFilter.init 1 (1 / 2) (1 / 4) 2 3 4 5 6 [7; 8] None 0%nat =
                (inr (filter_on 0 1 2 3 4 5 6 7 1 (1 / 2) (1 / 4) 2 3 4 5 6 [7; 8]),
                 8%nat)).
    { apply AddDropFilter_init_ok; [lra | reflexivity]. }
    eexists; split; [exact H|].
    destruct (Hadf _ _ _ _ _ _ _ _ _ _ _ _ _ H) as [_ Hw].
    eexists; split; [right; right; left; reflexivity|].
    split; [apply Hw; right; right; left; reflexivity | reflexivity].
Defined.

(** ** No test of the coupling coefficient *)

(** The steps of [RingResonator.__init__] after the base class has
    returned the four pins. *)
Lemma RingResonator_init_steps
    (radius kap n_eff n_g D loss lam0 : R) (omegas : list R)
    (pins : option (list Pin)) (n n' : nat) (p0 p1 p2 p3 : Pin) :
  BaseStructure.init RingResonator.num_pins pins n = (inr [p0; p1; p2; p3], n') ->
  RingResonator.init radius kap n_eff n_g D loss lam0 omegas pins n =
    if Req_dec_T lam0 0 then (inl ZeroDivisionError, n')
    else (inr (ring_on p0 p1 p2 p3 radius kap n_eff n_g D loss lam0 omegas), n').
Proof.
  intros Hb.
  destruct (Req_dec_T lam0 0) as [E|E].
  - unfold RingResonator.init, CompositeStructure.init, bind at 1 2.
    rewrite Hb. unfold ret at 1, bind at 1.
    rewrite (DirectionalCoupler_init_ok kap _ _ (Some [p0; p1; p2; p3]) n' n'
               [p0; p1; p2; p3] eq_refl).
    unfold bind, lift, getitem; cbn [Composite.pins lookup list_lookup].
    simpl. unfold Waveguide.init, bind; simpl.
    destruct (Req_dec_T lam0 0); [reflexivity | contradiction].
  - apply RingResonator_init_ok; assumption.
Qed.

(** The errors of the three constructors that build a coupler. *)
Lemma DirectionalCoupler_init_exn (kap phi_self phi_cross : R)
      (pins : option (list Pin)) (n n' : nat) (e : exn) :
  DirectionalCoupler.init kap phi_self phi_cross pins n = (inl e, n') ->
  e = PinCountError.
Proof.
  unfold DirectionalCoupler.init, bind.
  destruct (BaseStructure.init DirectionalCoupler.num_pins pins n) as [[e'|ps] m] eqn:Hb.
  - intros H; injection H as <- _. eapply BaseStructure_init_exn; eassumption.
  - discriminate.
Qed.

Lemma RingResonator_init_exn
    (radius kap n_eff n_g D loss lam0 : R) (omegas : list R)
    (pins : option (list Pin)) (n n' : nat) (e : exn) :
  RingResonator.init radius kap n_eff n_g D loss lam0 omegas pins n = (inl e, n') ->
  e = PinCountError \/ e = ZeroDivisionError.
Proof.
  destruct (BaseStructure.init RingResonator.num_pins pins n) as [[e'|ps] m] eqn:Hb.
  - unfold RingResonator.init, CompositeStructure.init, bind at 1 2.
    rewrite Hb; intros H; injection H as <- _.
    left; eapply BaseStructure_init_exn; eassumption.
  - destruct (BaseStructure_init_inv _ _ _ _ _ Hb) as [Hlen _].
    apply list_length_4 in Hlen as (p0 & p1 & p2 & p3 & ->).
    rewrite (RingResonator_init_steps _ _ _ _ _ _ _ _ _ _ _ _ _ _ _ Hb).
    destruct (Req_dec_T lam0 0); intros H; [|discriminate].
    injection H as <- _; right; reflexivity.
Qed.

Lemma AddDropFilter_init_exn
    (radius kap_in kap_aux n_eff n_g D loss lam0 : R) (omegas : list R)
    (pins : option (list Pin)) (n n' : nat) (e : exn) :
  AddDropFilter.init radius kap_in kap_aux n_eff n_g D loss lam0 omegas pins n =
    (inl e, n') ->
  e = PinCountError \/ e = ZeroDivisionError.
Proof.
  destruct (BaseStructure.init AddDropFilter.num_pins pins n) as [[e'|ps] m] eqn:Hb.
  - unfold AddDropFilter.init, CompositeStructure.init, bind at 1 2.
    rewrite Hb; intros H; injection H as <- _.
    left; eapply BaseStructure_init_exn; eassumption.
  - destruct (BaseStructure_init_inv _ _ _ _ _ Hb) as [Hlen _].
    apply list_length_8 in Hlen as (p0 & p1 & p2 & p3 & p4 & p5 & p6 & p7 & ->).
    rewrite (AddDropFilter_init_steps _ _ _ _ _ _ _ _ _ _ _ _ _ _ _ _ _ _ _ _ Hb).
    destruct (Req_dec_T lam0 0); intros H; [|discriminate].
    injection H as <- _; right; reflexivity.
Qed.

(** C8, as stated, fails: with the cross-coupling coefficient 2, outside
    [0, 1], the coupler constructor, the ring constructor and the
    filter constructor all return an object and raise nothing. *)
Lemma coupling_domain_error_counterexample :
  ~ (0 <= 2 <= 1) /\
  (exists dc,
     DirectionalCoupler.init 2 DirectionalCoupler.default_self_coupling_phase
         DirectionalCoupler.default_cross_coupling_phase None 0%nat =
       (inr dc, 4%nat) /\
     DirectionalCoupler.pins dc = [0; 1; 2; 3]%nat) /\
  (exists ring,
     RingResonator.init 1 2 1 1 0 0 1 [0] None 0%nat = (inr ring, 4%nat) /\
     Composite.pins (RingResonator.base ring) = [0; 1; 2; 3]%nat) /\
  (exists adf,
     AddDropFilter.init 1 2 2 1 1 0 0 1 [0] None 0%nat = (inr adf, 8%nat) /\
     Composite.pins (AddDropFilter.base adf) = [0; 1; 2; 3; 4; 5; 6; 7]%nat).
Proof.
  split; [lra|]. split; [|split].
  - eexists; split; [apply DirectionalCoupler_init_ok; reflexivity | reflexivity].
  - eexists; split; [apply RingResonator_init_ok; [lra | reflexivity] | reflexivity].
  - eexists; split; [apply AddDropFilter_init_ok; [lra | reflexivity] | reflexivity].
Qed.

(** C8, amended.  Constructing a coupler, directly or through a ring
    resonator or an add-drop filter, raises no parameter-domain error,
    whatever the cross-coupling coefficient: no constructor tests it.
    With default pins the coupler constructor returns for every
    coefficient, and the ring and filter constructors return for every
    coefficient when the central wavelength is not zero. *)
Theorem coupling_coefficient_unchecked :
  (forall (kap phi_self phi_cross : R) (n : nat),
      exists dc, DirectionalCoupler.init kap phi_self phi_cross None n =
                   (inr dc, (n + 4)%nat)) /\
  (forall (radius kap n_eff n_g D loss lam0 : R) (omegas : list R) (n : nat),
      lam0 <> 0 ->
      exists ring, RingResonator.init radius kap n_eff n_g D loss lam0 omegas None n =
                     (inr ring, (n + 4)%nat)) /\
  (forall (radius kap_in kap_aux n_eff n_g D loss lam0 : R) (omegas : list R) (n : nat),
      lam0 <> 0 ->
      exists adf, AddDropFilter.init radius kap_in kap_aux n_eff n_g D loss lam0
                    omegas None n = (inr adf, (n + 8)%nat)) /\
  (forall (kap phi_self phi_cross : R) (pins : option (list Pin)) (n n' : nat) (e : exn),
      DirectionalCoupler.init kap phi_self phi_cross pins n = (inl e, n') ->
      e <> ParameterDomainError) /\
  (forall (radius kap n_eff n_g D loss lam0 : R) (omegas : list R)
          (pins : option (list Pin)) (n n' : nat) (e : exn),
      RingResonator.init radius kap n_eff n_g D loss lam0 omegas pins n = (inl e, n') ->
      e <> ParameterDomainError) /\
  (forall (radius kap_in kap_aux n_eff n_g D loss lam0 : R) (omegas : list R)
          (pins : option (list Pin)) (n n' : nat) (e : exn),
      AddDropFilter.init radius kap_in kap_aux n_eff n_g D loss lam0 omegas pins n =
        (inl e, n') ->
      e <> ParameterDomainError).
Proof.
  split; [|split; [|split; [|split; [|split]]]].
  - intros; eexists. apply DirectionalCoupler_init_ok, BaseStructure_init_default.
  - intros * Hl; eexists.
    apply RingResonator_init_ok; [exact Hl | exact (BaseStructure_init_default 4 n)].
  - intros * Hl; eexists.
    apply AddDropFilter_init_ok; [exact Hl | exact (BaseStructure_init_default 8 n)].
  - intros * H; apply DirectionalCoupler_init_exn in H as ->; discriminate.
  - intros * H; apply RingResonator_init_exn in H as [-> | ->]; discriminate.
  - intros * H; apply AddDropFilter_init_exn in H as [-> | ->]; discriminate.
Qed.

(** Both composites built with the coefficient 2, and a ring with the
    coefficient 2 whose zero central wavelength raises the division
    error, not a parameter-domain error. *)
Lemma coupling_coefficient_unchecked_witness :
  (exists dc, DirectionalCoupler.init 2 0 0 None 0%nat = (inr dc, 4%nat)) /\
  (exists ring, RingResonator.init 1 2 1 1 0 0 1 [0] None 0%nat = (inr ring, 4%nat)) /\
  (exists adf, AddDropFilter.init 1 2 2 1 1 0 0 1 [0] None 0%nat = (inr adf, 8%nat)) /\
  RingResonator.init 1 2 1 1 0 0 0 [0] None 0%nat = (inl ZeroDivisionError, 4%nat) /\
  ZeroDivisionError <> ParameterDomainError.
Proof.
  destruct coupling_coefficient_unchecked as (Hdc & Hring & Hadf & _ & Hrexn & _).
  assert (Hz : RingResonator.init 1 2 1 1 0 0 0 [0] None 0%nat =
               (inl ZeroDivisionError, 4%nat)).
  { rewrite (RingResonator_init_steps 1 2 1 1 0 0 0 [0] None 0 4 0 1 2 3
               (BaseStructure_init_default 4 0)).
    destruct (Req_dec_T 0 0) as [_|E]; [reflexivity | exfalso; apply E; reflexivity]. }
  split; [|split; [|split; [|split]]].
  - apply (Hdc 2 0 0 0%nat).
  - apply (Hring 1 2 1 1 0 0 1 [0] 0%nat); lra.
  - apply (Hadf 1 2 2 1 1 0 0 1 [0] 0%nat); lra.
  - exact Hz.
  - exact (Hrexn 1 2 1 1 0 0 0 [0] None 0%nat 4%nat ZeroDivisionError Hz).
Defined.

(** ** Derived series of the add-drop filter *)

Lemma column_lookup (f : ndarray) (j : nat) (col : list C) :
  column f j = inr col ->
  length col = length (rows f) /\
  forall (i : nat) (row : list C),
    rows f !! i = Some row -> col !! i = Some (nth j row (RtoC 0)).
Proof.
  unfold column; destruct (j <? shape1 f)%nat; [|discriminate].
  intros H; injection H as <-. split; [apply length_map|].
  intros i row Hi. rewrite list_lookup_fmap, Hi; reflexivity.
Qed.

(** C6.  For an add-drop filter whose solved field array has columns 3
    and 6, [transmission] and [field_enhancement] return one value per
    row of the array, that is per frequency sample: the squared modulus
    of the row's entry in column 6 and the modulus of its entry in
    column 3 (column [c] of the array is the pin of identity [c]). *)
Theorem add_drop_filter_series
    (solve : list (list C) -> list C -> option (list C))
    (adf : AddDropFilter.t) (f : ndarray) :
  fields solve (AddDropFilter.base adf) = inr f ->
  (6 < shape1 f)%nat ->
  exists (T E : list R),
    AddDropFilter.transmission solve adf = inr T /\
    AddDropFilter.field_enhancement solve adf = inr E /\
    length T = length (rows f) /\
    length E = length (rows f) /\
    forall (i : nat) (row : list C),
      rows f !! i = Some row ->
      T !! i = Some (Cabs (nth 6 row (RtoC 0)) ^ 2) /\
      E !! i = Some (Cabs (nth 3 row (RtoC 0))).
Proof.
  intros Hf Hs.
  unfold AddDropFilter.transmission, AddDropFilter.field_enhancement.
  rewrite Hf; cbn [rbind].
  destruct (column f 6) as [e|c6] eqn:H6.
  { unfold column in H6. destruct (Nat.ltb_spec 6 (shape1 f)); [discriminate | lia]. }
  destruct (column f 3) as [e|c3] eqn:H3.
  { unfold column in H3. destruct (Nat.ltb_spec 3 (shape1 f)); [discriminate | lia]. }
  apply column_lookup in H6 as [L6 H6], H3 as [L3 H3].
  cbn [rbind]. do 2 eexists. split; [reflexivity|]. split; [reflexivity|].
  rewrite !length_map. split; [exact L6|]. split; [exact L3|].
  intros i row Hi.
  rewrite !list_lookup_fmap, (H6 i row Hi), (H3 i row Hi). split; reflexivity.
Qed.

(** A filter closed by a source on pin 0 and a zero source on pin 4,
    solved by a solver that answers the zero vector. *)
Lemma add_drop_filter_series_witness :
  exists (adf : AddDropFilter.t) (f : ndarray),
    let solve := fun (_ : list (list C)) (_ : list C) => Some (repeat (RtoC 0) 8) in
    fields solve (AddDropFilter.base adf) = inr f /\
    (6 < shape1 f)%nat /\
    exists (T E : list R),
      AddDropFilter.transmission solve adf = inr T /\
      AddDropFilter.field_enhancement solve adf = inr E /\
      T !! 0%nat = Some (Cabs (RtoC 0) ^ 2) /\
      E !! 0%nat = Some (Cabs (RtoC 0)).
Proof.
  pose (built := filter_on 0 1 2 3 4 5 6 7 1 (1 / 2) (1 / 2) 1 1 0 0 1 [0]).
  pose (k := CompositeStructure.append
               (CompositeStructure.append (AddDropFilter.base built)
                  (OfSource (Source.mk [0%nat] (RtoC 1) 0)))
               (OfSource (Source.mk [4%nat] (RtoC 0) 0))).
  pose (solve := fun (_ : list (list C)) (_ : list C) => Some (repeat (RtoC 0) 8)).
  assert (Hf : fields solve k = inr (mkArray 1 8 [repeat (RtoC 0) 8])).
  { assert (He : exists eqs, field_equations (OfComposite k) = inr eqs /\
                             length eqs = 8%nat).
    { eexists; split; reflexivity. }
    destruct He as (eqs & He & Hl).
    assert (Hs : size (all_pins (OfComposite k)) = 8%nat).
    { unfold k, built, filter_on, coupler_on, CompositeStructure.append,
             CompositeStructure.set_structures.
      cbn [all_pins AddDropFilter.base Composite.pins Composite.structures
           DirectionalCoupler.pins Waveguide.pins Source.pins app].
      vm_compute. reflexivity. }
    unfold fields. rewrite He; cbn [rbind]. rewrite Hl, Hs.
    reflexivity. }
  exists (AddDropFilter.mk k 1 (1 / 2) (1 / 2)), (mkArray 1 8 [repeat (RtoC 0) 8]).
  cbn zeta. split; [exact Hf|]. split; [simpl; lia|].
  destruct (add_drop_filter_series solve (AddDropFilter.mk k 1 (1 / 2) (1 / 2))
              (mkArray 1 8 [repeat (RtoC 0) 8]) Hf ltac:(simpl; lia))
    as (T & E & HT & HE & _ & _ & Hrow).
  exists T, E. split; [exact HT|]. split; [exact HE|].
  exact (Hrow 0%nat (repeat (RtoC 0) 8) eq_refl).
Defined.

(** ** Validation before the solve *)

Lemma ring_all_pins (p0 p1 p2 p3 : Pin)
      (radius kap n_eff n_g D loss lam0 : R) (omegas : list R) :
  all_pins (OfComposite (RingResonator.base
     (ring_on p0 p1 p2 p3 radius kap n_eff n_g D loss lam0 omegas))) =
  list_to_set [p0; p1; p2; p3].
Proof.
  unfold ring_on, coupler_on.
  cbn [all_pins RingResonator.base Composite.pins Composite.structures
       DirectionalCoupler.pins Waveguide.pins].
  apply set_eq; intros x.
  rewrite !elem_of_union, !elem_of_list_to_set, !elem_of_cons, elem_of_empty.
  rewrite !elem_of_nil. tauto.
Qed.

(** The validation step of [fields]. *)
Lemma fields_validation
    (solve : list (list C) -> list C -> option (list C))
    (k : CompositeStructure.t) (eqs : list (gmap nat coef)) :
  field_equations (OfComposite k) = inr eqs ->
  length eqs <> size (all_pins (OfComposite k)) ->
  fields solve k = inl StructuralValidationError.
Proof.
  intros He Hne. unfold fields. rewrite He; cbn [rbind].
  destruct (Nat.eqb_spec (length eqs) (size (all_pins (OfComposite k)))) as [E|E];
    [contradiction | reflexivity].
Qed.

(** C9.  When a composite contributes fewer field equations,
    recursively flattened, than it has distinct pins, [fields] raises
    the structural-validation error whatever the linear solver would
    do, and returns no array.  Such is a ring resonator as its
    constructor returns it over four different pins, with its three
    equations and no source. *)
Theorem fields_rejects_underdetermined :
  (forall (solve : list (list C) -> list C -> option (list C))
          (k : CompositeStructure.t) (eqs : list (gmap nat coef)),
      field_equations (OfComposite k) = inr eqs ->
      (length eqs < size (all_pins (OfComposite k)))%nat ->
      fields solve k = inl StructuralValidationError) /\
  (forall (solve : list (list C) -> list C -> option (list C))
          (radius kap n_eff n_g D loss lam0 : R) (omegas : list R)
          (pins : option (list Pin)) (n n' : nat) (ring : RingResonator.t),
      RingResonator.init radius kap n_eff n_g D loss lam0 omegas pins n =
        (inr ring, n') ->
      NoDup (Composite.pins (RingResonator.base ring)) ->
      exists eqs,
        field_equations (OfComposite (RingResonator.base ring)) = inr eqs /\
        length eqs = 3%nat /\
        size (all_pins (OfComposite (RingResonator.base ring))) = 4%nat /\
        fields solve (RingResonator.base ring) = inl StructuralValidationError).
Proof.
  split.
  - intros solve k eqs He Hlt. apply (fields_validation solve k eqs He). lia.
  - intros solve * H Hnd.
    apply RingResonator_init_inv in H as (_ & p0 & p1 & p2 & p3 & _ & ->).
    assert (Hsize : size (all_pins (OfComposite (RingResonator.base
                      (ring_on p0 p1 p2 p3 radius kap n_eff n_g D loss lam0 omegas))))
                    = 4%nat).
    { rewrite ring_all_pins, size_list_to_set; [reflexivity | exact Hnd]. }
    eexists. split; [reflexivity|]. split; [reflexivity|]. split; [exact Hsize|].
    eapply fields_validation; [reflexivity|].
    rewrite Hsize; simpl; lia.
Qed.

(** A ring built first after a reset of the counter, with no source. *)
Lemma fields_rejects_underdetermined_witness :
  exists ring,
    RingResonator.init 1 (1 / 2) 1 1 0 0 1 [0] None 0%nat = (inr ring, 4%nat) /\
    NoDup (Composite.pins (RingResonator.base ring)) /\
    forall solve, fields solve (RingResonator.base ring) = inl StructuralValidationError.
Proof.
  assert (H : RingResonator.init 1 (1 / 2) 1 1 0 0 1 [0] None 0%nat =
              (inr (ring_on 0 1 2 3 1 (1 / 2) 1 1 0 0 1 [0]), 4%nat)).
  { apply RingResonator_init_ok; [lra | reflexivity]. }
  assert (Hnd : NoDup (Composite.pins (RingResonator.base
                         (ring_on 0 1 2 3 1 (1 / 2) 1 1 0 0 1 [0])))).
  { exact (NoDup_seq 0 4). }
  eexists; split; [exact H|]. split; [exact Hnd|].
  intros solve.
  destruct fields_rejects_underdetermined as [Hgen Hring].
  destruct (Hring solve _ _ _ _ _ _ _ _ _ _ _ _ H Hnd) as (eqs & He & Hl & Hs & Hf).
  apply (Hgen solve _ eqs He). rewrite Hl, Hs. lia.
Defined.

(* ================================================================== *)
(** * Further properties of the structures                             *)
(* ================================================================== *)

(** ** Waveguide: wavevector *)

Lemma c_nonzero : c <> 0.
Proof. unfold c; lra. Qed.

(** X1.  The wavevector of a constructed waveguide has one value per
    sample of the sweep, and at a sample equal to the central frequency
    its value is [2 pi n_eff / lam0], whatever the group index and the
    dispersion. *)
Theorem wavevector_at_central_frequency
    (L n_eff n_g D loss lam0 : R) (omegas : list R)
    (pins : option (list Pin)) (n n' : nat) (wg : Waveguide.t) :
  Waveguide.init L n_eff n_g D loss lam0 omegas pins n = (inr wg, n') ->
  length (Waveguide.wavevector wg) = length omegas /\
  forall i : nat,
    omegas !! i = Some (Waveguide.central_frequency wg) ->
    Waveguide.wavevector wg !! i = Some (2 * PI * n_eff / lam0).
Proof.
  intros H. apply Waveguide_init_inv in H as (Hl & ps & _ & ->).
  split; [apply length_map|].
  intros i Hi. unfold Waveguide.wavevector.
  cbn [Waveguide.angular_frequencies Waveguide.central_frequency
       Waveguide.effective_refractive_index Waveguide.group_refractive_index
       Waveguide.GVD] in *.
  rewrite list_lookup_fmap, Hi. cbn [fmap option_fmap option_map]. f_equal.
  pose proof c_nonzero. field. split; assumption.
Qed.

(** A waveguide of index 3/2 at the wavelength 1, swept at its own
    central frequency. *)
Lemma wavevector_at_central_frequency_witness :
  exists wg,
    Waveguide.init 1 (3 / 2) 2 5 0 1 [2 * PI / 1 * c] None 0%nat = (inr wg, 2%nat) /\
    Waveguide.wavevector wg !! 0%nat = Some (2 * PI * (3 / 2) / 1).
Proof.
  assert (H : Waveguide.init 1 (3 / 2) 2 5 0 1 [2 * PI / 1 * c] None 0%nat =
              (inr (Waveguide.mk [0%nat; 1%nat] 1 (3 / 2) 2 5 0 1 [2 * PI / 1 * c]
                                 (2 * PI / 1 * c)), 2%nat)).
  { apply Waveguide_init_ok; [lra | reflexivity]. }
  eexists; split; [exact H|].
  destruct (wavevector_at_central_frequency _ _ _ _ _ _ _ _ _ _ _ H) as [_ Hk].
  exact (Hk 0%nat eq_refl).
Defined.

(** X2.  Without dispersion ([GVD = 0]) the wavevector is affine in the
    frequency with slope [n_g / c]: between any two samples it changes
    by [n_g (omega_j - omega_i) / c]. *)
Theorem wavevector_group_slope
    (L n_eff n_g loss lam0 : R) (omegas : list R)
    (pins : option (list Pin)) (n n' : nat) (wg : Waveguide.t)
    (i j : nat) (omega_i omega_j : R) :
  Waveguide.init L n_eff n_g 0 loss lam0 omegas pins n = (inr wg, n') ->
  omegas !! i = Some omega_i ->
  omegas !! j = Some omega_j ->
  exists k_i k_j,
    Waveguide.wavevector wg !! i = Some k_i /\
    Waveguide.wavevector wg !! j = Some k_j /\
    k_j - k_i = n_g * (omega_j - omega_i) / c.
Proof.
  intros H Hi Hj. apply Waveguide_init_inv in H as (Hl & ps & _ & ->).
  unfold Waveguide.wavevector.
  cbn [Waveguide.angular_frequencies Waveguide.central_frequency
       Waveguide.effective_refractive_index Waveguide.group_refractive_index
       Waveguide.GVD].
  rewrite !list_lookup_fmap, Hi, Hj. cbn [fmap option_fmap option_map].
  do 2 eexists. split; [reflexivity|]. split; [reflexivity|].
  unfold Rdiv; ring.
Qed.

Lemma wavevector_group_slope_witness :
  exists wg k_i k_j,
    Waveguide.init 1 1 2 0 0 1 [0; c] None 0%nat = (inr wg, 2%nat) /\
    Waveguide.wavevector wg !! 0%nat = Some k_i /\
    Waveguide.wavevector wg !! 1%nat = Some k_j /\
    k_j - k_i = 2 * (c - 0) / c.
Proof.
  assert (H : Waveguide.init 1 1 2 0 0 1 [0; c] None 0%nat =
              (inr (Waveguide.mk [0%nat; 1%nat] 1 1 2 0 0 1 [0; c]
                                 (2 * PI / 1 * c)), 2%nat)).
  { apply Waveguide_init_ok; [lra | reflexivity]. }
  destruct (wavevector_group_slope 1 1 2 0 1 [0; c] None 0 2 _ 0 1 0 c
              H eq_refl eq_refl) as (k_i & k_j & Hki & Hkj & Hd).
  eexists; exists k_i, k_j. split; [exact H|].
  split; [exact Hki|]. split; [exact Hkj | exact Hd].
Defined.

(** ** Waveguide: the field equation *)

Lemma Rpower_10_0 : Rpower 10 0 = 1.
Proof. apply Rpower_O; lra. Qed.

Lemma ln_10_pos : 0 < ln 10.
Proof. rewrite <- ln_1. apply ln_increasing; lra. Qed.

(** The transfer factor in Cartesian form. *)
Lemma transfer_factor_cartesian (L n_eff n_g D loss lam0 omega : R) :
  transfer_factor L n_eff n_g D loss lam0 omega =
  mkC (Rpower 10 (- (loss * L) / 20) * cos (taylor_wavevector n_eff n_g D lam0 omega * L))
      (Rpower 10 (- (loss * L) / 20) * sin (taylor_wavevector n_eff n_g D lam0 omega * L)).
Proof. unfold transfer_factor; apply polar_form. Qed.

(** X3.  A waveguide of length zero is a plain connection: the entry of
    [pin_in] in its equation is [-1] at every sample, whatever the loss,
    the indices and the dispersion, so the equation reads
    [A_out = A_in]. *)
Theorem waveguide_zero_length
    (n_eff n_g D loss lam0 : R) (omegas : list R)
    (pins : option (list Pin)) (n n' : nat) (wg : Waveguide.t) :
  Waveguide.init 0 n_eff n_g D loss lam0 omegas pins n = (inr wg, n') ->
  exists pin_in pin_out,
    Waveguide.pins wg = [pin_in; pin_out] /\
    Waveguide.field_equations wg =
      inr [ <[pin_out := Scalar (RtoC 1)]>
              (<[pin_in := Sweep (repeat (RtoC (-1)) (length omegas))]> ∅) ].
Proof.
  intros H.
  destruct (Waveguide_equation_closed_form _ _ _ _ _ _ _ _ _ _ _ H)
    as (pin_in & pin_out & Hp & Hf).
  exists pin_in, pin_out; split; [exact Hp|].
  assert (Hz : map (fun omega => Copp (transfer_factor 0 n_eff n_g D loss lam0 omega))
                   omegas = repeat (RtoC (-1)) (length omegas)).
  { clear. induction omegas as [|omega omegas IH]; [reflexivity|].
    cbn [map length repeat]. rewrite IH. f_equal.
    rewrite transfer_factor_cartesian.
    replace (- (loss * 0) / 20) with 0 by field.
    rewrite Rpower_10_0, Rmult_0_r, cos_0, sin_0.
    apply C_eq; simpl; ring. }
  rewrite Hf, Hz. reflexivity.
Qed.

Lemma waveguide_zero_length_witness :
  exists wg,
    Waveguide.init 0 2 3 4 5 1 [7; 8] None 0%nat = (inr wg, 2%nat) /\
    Waveguide.field_equations wg =
      inr [ <[1%nat := Scalar (RtoC 1)]>
              (<[0%nat := Sweep [RtoC (-1); RtoC (-1)]]> ∅) ].
Proof.
  assert (H : Waveguide.init 0 2 3 4 5 1 [7; 8] None 0%nat =
              (inr (Waveguide.mk [0%nat; 1%nat] 0 2 3 4 5 1 [7; 8]
                                 (2 * PI / 1 * c)), 2%nat)).
  { apply Waveguide_init_ok; [lra | reflexivity]. }
  eexists; split; [exact H|].
  destruct (waveguide_zero_length _ _ _ _ _ _ _ _ _ _ H)
    as (pin_in & pin_out & Hp & Hf).
  simpl in Hp; injection Hp as <- <-. exact Hf.
Defined.

(** The left-hand side of a two-term equation over different pins. *)
Lemma equation_lhs_two (A : nat -> C) (i : nat) (pa pb : nat) (ka kb : coef) :
  pa <> pb ->
  equation_lhs A i (<[pb := kb]> (<[pa := ka]> ∅)) =
  Cadd (Cmul (coef_at kb i) (A pb)) (Cadd (Cmul (coef_at ka i) (A pa)) (RtoC 0)).
Proof.
  intros Hab; unfold equation_lhs.
  rewrite map_fold_insert_L; cycle 1.
  { intros; apply equation_term_comm. }
  { rewrite lookup_insert_ne by congruence; apply lookup_empty. }
  rewrite map_fold_insert_L; cycle 1.
  { intros; apply equation_term_comm. }
  { apply lookup_empty. }
  rewrite map_fold_empty; reflexivity.
Qed.

(** [x - t a = 0] says [x = t a]. *)
Lemma transfer_row (t a x : C) :
  Cadd (Cmul (RtoC 1) x) (Cadd (Cmul (Copp t) a) (RtoC 0)) = RtoC 0 <->
  x = Cmul t a.
Proof.
  destruct t as [tr ti], a as [ar ai], x as [xr xi].
  unfold Cadd, Cmul, Copp, RtoC; simpl; split; intros H.
  - injection H as H1 H2; f_equal; lra.
  - injection H as -> ->; f_equal; lra.
Qed.

(** X4.  Over two different pins, amplitudes satisfy the equation of a
    constructed waveguide at a sample of frequency [omega] exactly when
    the output amplitude is the input amplitude attenuated by
    [10^(-loss L / 20)] and rotated by the phase [k(omega) L]. *)
Theorem waveguide_relation
    (L n_eff n_g D loss lam0 : R) (omegas : list R)
    (pins : option (list Pin)) (n n' : nat) (wg : Waveguide.t) :
  Waveguide.init L n_eff n_g D loss lam0 omegas pins n = (inr wg, n') ->
  exists pin_in pin_out (eq : gmap nat coef),
    Waveguide.pins wg = [pin_in; pin_out] /\
    Waveguide.field_equations wg = inr [eq] /\
    (pin_in <> pin_out ->
     forall (A : nat -> C) (i : nat) (omega : R),
       omegas !! i = Some omega ->
       (equation_lhs A i eq = RtoC 0 <->
        A pin_out = Cmul (transfer_factor L n_eff n_g D loss lam0 omega) (A pin_in))).
Proof.
  intros H.
  destruct (Waveguide_equation_closed_form _ _ _ _ _ _ _ _ _ _ _ H)
    as (pin_in & pin_out & Hp & Hf).
  exists pin_in, pin_out; eexists. split; [exact Hp|]. split; [exact Hf|].
  intros Hne A i omega Hi.
  rewrite equation_lhs_two by exact Hne.
  cbn [coef_at].
  erewrite nth_lookup_Some; [|rewrite list_lookup_fmap, Hi; reflexivity].
  apply transfer_row.
Qed.

Lemma waveguide_relation_witness :
  exists wg (eq : gmap nat coef),
    Waveguide.init 1 1 1 0 0 1 [0] None 0%nat = (inr wg, 2%nat) /\
    Waveguide.field_equations wg = inr [eq] /\
    forall A : nat -> C,
      equation_lhs A 0 eq = RtoC 0 <->
      A 1%nat = Cmul (transfer_factor 1 1 1 0 0 1 0) (A 0%nat).
Proof.
  assert (H : Waveguide.init 1 1 1 0 0 1 [0] None 0%nat =
              (inr (Waveguide.mk [0%nat; 1%nat] 1 1 1 0 0 1 [0] (2 * PI / 1 * c)),
               2%nat)).
  { apply Waveguide_init_ok; [lra | reflexivity]. }
  destruct (waveguide_relation _ _ _ _ _ _ _ _ _ _ _ H)
    as (pin_in & pin_out & eq & Hp & Hf & Hrel).
  simpl in Hp; injection Hp as <- <-.
  eexists; exists eq. split; [exact H|]. split; [exact Hf|].
  intros A. exact (Hrel ltac:(lia) A 0%nat 0 eq_refl).
Defined.

(** Propagation over [L1 + L2] is propagation over [L1] then [L2]. *)
Lemma transfer_factor_add (L1 L2 n_eff n_g D loss lam0 omega : R) :
  transfer_factor (L1 + L2) n_eff n_g D loss lam0 omega =
  Cmul (transfer_factor L1 n_eff n_g D loss lam0 omega)
       (transfer_factor L2 n_eff n_g D loss lam0 omega).
Proof.
  rewrite !transfer_factor_cartesian.
  replace (- (loss * (L1 + L2)) / 20)
    with (- (loss * L1) / 20 + - (loss * L2) / 20) by field.
  rewrite Rpower_plus, Rmult_plus_distr_l, cos_plus, sin_plus.
  apply C_eq; simpl; ring.
Qed.

(** X5.  Waveguides cascade: with the same indices, dispersion, loss,
    central wavelength and sweep, the transfer coefficient of a
    waveguide of length [L1 + L2] is, at every sample, the product of
    the transfer coefficients of the waveguides of lengths [L1] and
    [L2] (each equation stores minus its transfer coefficient). *)
Theorem waveguide_cascade
    (L1 L2 n_eff n_g D loss lam0 : R) (omegas : list R)
    (pins1 pins2 pins12 : option (list Pin)) (n1 n1' n2 n2' n12 n12' : nat)
    (wg1 wg2 wg12 : Waveguide.t) :
  Waveguide.init L1 n_eff n_g D loss lam0 omegas pins1 n1 = (inr wg1, n1') ->
  Waveguide.init L2 n_eff n_g D loss lam0 omegas pins2 n2 = (inr wg2, n2') ->
  Waveguide.init (L1 + L2) n_eff n_g D loss lam0 omegas pins12 n12 = (inr wg12, n12') ->
  exists a1 b1 a2 b2 a12 b12 (zs1 zs2 zs12 : list C),
    (Waveguide.pins wg1 = [a1; b1] /\
     Waveguide.pins wg2 = [a2; b2] /\
     Waveguide.pins wg12 = [a12; b12]) /\
    Waveguide.field_equations wg1 =
      inr [ <[b1 := Scalar (RtoC 1)]> (<[a1 := Sweep zs1]> ∅) ] /\
    Waveguide.field_equations wg2 =
      inr [ <[b2 := Scalar (RtoC 1)]> (<[a2 := Sweep zs2]> ∅) ] /\
    Waveguide.field_equations wg12 =
      inr [ <[b12 := Scalar (RtoC 1)]> (<[a12 := Sweep zs12]> ∅) ] /\
    length zs1 = length omegas /\
    length zs2 = length omegas /\
    length zs12 = length omegas /\
    forall (i : nat) (z1 z2 : C),
      zs1 !! i = Some z1 -> zs2 !! i = Some z2 ->
      exists z12, zs12 !! i = Some z12 /\
                  Copp z12 = Cmul (Copp z1) (Copp z2).
Proof.
  intros H1 H2 H12.
  destruct (Waveguide_equation_closed_form _ _ _ _ _ _ _ _ _ _ _ H1)
    as (a1 & b1 & Hp1 & Hf1).
  destruct (Waveguide_equation_closed_form _ _ _ _ _ _ _ _ _ _ _ H2)
    as (a2 & b2 & Hp2 & Hf2).
  destruct (Waveguide_equation_closed_form _ _ _ _ _ _ _ _ _ _ _ H12)
    as (a12 & b12 & Hp12 & Hf12).
  exists a1, b1, a2, b2, a12, b12. do 3 eexists.
  split; [auto|].
  split; [exact Hf1|]. split; [exact Hf2|]. split; [exact Hf12|].
  split; [apply length_map|]. split; [apply length_map|].
  split; [apply length_map|].
  intros i z1 z2 Hz1 Hz2.
  rewrite list_lookup_fmap in Hz1, Hz2 |- *.
  destruct (omegas !! i) as [omega|]; [|discriminate].
  injection Hz1 as <-. injection Hz2 as <-.
  eexists; split; [reflexivity|].
  rewrite !Copp_involutive. apply transfer_factor_add.
Qed.

(** Three lossy waveguides of lengths 1, 2 and 1 + 2 built in a row. *)
Lemma waveguide_cascade_witness :
  exists wg1 wg2 wg12,
    Waveguide.init 1 1 1 0 20 1 [0] None 0%nat = (inr wg1, 2%nat) /\
    Waveguide.init 2 1 1 0 20 1 [0] None 2%nat = (inr wg2, 4%nat) /\
    Waveguide.init (1 + 2) 1 1 0 20 1 [0] None 4%nat = (inr wg12, 6%nat) /\
    exists (zs1 zs2 zs12 : list C),
      Waveguide.field_equations wg12 =
        inr [ <[5%nat := Scalar (RtoC 1)]> (<[4%nat := Sweep zs12]> ∅) ] /\
      length zs1 = 1%nat /\ length zs2 = 1%nat /\
      forall (z1 z2 : C),
        zs1 !! 0%nat = Some z1 -> zs2 !! 0%nat = Some z2 ->
        exists z12, zs12 !! 0%nat = Some z12 /\ Copp z12 = Cmul (Copp z1) (Copp z2).
Proof.
  assert (H1 : Waveguide.init 1 1 1 0 20 1 [0] None 0%nat =
               (inr (Waveguide.mk [0%nat; 1%nat] 1 1 1 0 20 1 [0] (2 * PI / 1 * c)),
                2%nat)).
  { apply Waveguide_init_ok; [lra | reflexivity]. }
  assert (H2 : Waveguide.init 2 1 1 0 20 1 [0] None 2%nat =
               (inr (Waveguide.mk [2%nat; 3%nat] 2 1 1 0 20 1 [0] (2 * PI / 1 * c)),
                4%nat)).
  { apply Waveguide_init_ok; [lra | reflexivity]. }
  assert (H12 : Waveguide.init (1 + 2) 1 1 0 20 1 [0] None 4%nat =
                (inr (Waveguide.mk [4%nat; 5%nat] (1 + 2) 1 1 0 20 1 [0]
                                   (2 * PI / 1 * c)), 6%nat)).
  { apply Waveguide_init_ok; [lra | reflexivity]. }
  do 3 eexists. split; [exact H1|]. split; [exact H2|]. split; [exact H12|].
  destruct (waveguide_cascade _ _ _ _ _ _ _ _ _ _ _ _ _ _ _ _ _ _ _ _ H1 H2 H12)
    as (a1 & b1 & a2 & b2 & a12 & b12 & zs1 & zs2 & zs12
        & (_ & _ & Hp12) & _ & _ & Hf12 & Hl1 & Hl2 & _ & Hz).
  simpl in Hp12; injection Hp12 as <- <-.
  exists zs1, zs2, zs12. split; [exact Hf12|].
  split; [exact Hl1|]. split; [exact Hl2|].
  intros z1 z2. apply Hz.
Defined.

(** X6.  A waveguide is passive: with a non-negative loss and a
    non-negative length, every entry of the [pin_in] array of its
    equation has modulus at most 1. *)
Theorem waveguide_passive
    (L n_eff n_g D loss lam0 : R) (omegas : list R)
    (pins : option (list Pin)) (n n' : nat) (wg : Waveguide.t) :
  0 <= loss -> 0 <= L ->
  Waveguide.init L n_eff n_g D loss lam0 omegas pins n = (inr wg, n') ->
  exists pin_in pin_out (zs : list C),
    Waveguide.field_equations wg =
      inr [ <[pin_out := Scalar (RtoC 1)]> (<[pin_in := Sweep zs]> ∅) ] /\
    length zs = length omegas /\
    forall (i : nat) (z : C), zs !! i = Some z -> Cabs z <= 1.
Proof.
  intros Hloss HL H.
  destruct (Waveguide_equation_closed_form _ _ _ _ _ _ _ _ _ _ _ H)
    as (pin_in & pin_out & _ & Hf).
  exists pin_in, pin_out; eexists. split; [exact Hf|].
  split; [apply length_map|].
  intros i z Hz. rewrite list_lookup_fmap in Hz.
  destruct (omegas !! i) as [omega|]; [|discriminate].
  injection Hz as <-.
  rewrite Cabs_Copp, Cabs_transfer_factor.
  unfold Rpower. rewrite <- exp_0.
  assert (Hx : - (loss * L) / 20 * ln 10 <= 0).
  { pose proof ln_10_pos. assert (0 <= loss * L) by nra. nra. }
  destruct Hx as [Hx|Hx]; [left; apply exp_increasing; exact Hx | right; f_equal; exact Hx].
Qed.

Lemma waveguide_passive_witness :
  exists wg (zs : list C),
    0 <= 20 /\ 0 <= 1 /\
    Waveguide.init 1 1 1 0 20 1 [0; 1] None 0%nat = (inr wg, 2%nat) /\
    length zs = 2%nat /\
    forall (i : nat) (z : C), zs !! i = Some z -> Cabs z <= 1.
Proof.
  assert (H : Waveguide.init 1 1 1 0 20 1 [0; 1] None 0%nat =
              (inr (Waveguide.mk [0%nat; 1%nat] 1 1 1 0 20 1 [0; 1]
                                 (2 * PI / 1 * c)), 2%nat)).
  { apply Waveguide_init_ok; [lra | reflexivity]. }
  destruct (waveguide_passive 1 1 1 0 20 1 [0; 1] None 0 2 _
              ltac:(lra) ltac:(lra) H) as (pin_in & pin_out & zs & _ & Hl & Hz).
  eexists; exists zs. split; [lra|]. split; [lra|]. split; [exact H|].
  split; [exact Hl | exact Hz].
Defined.

(** X7.  A waveguide constructed on the same pin twice loses its
    propagation term: the second key of the dict overwrites the first,
    and the single equation is [{pin: 1}], whatever the length, the
    loss and the sweep. *)
Theorem waveguide_same_pin_twice
    (L n_eff n_g D loss lam0 : R) (omegas : list R) (pin : Pin)
    (n n' : nat) (wg : Waveguide.t) :
  Waveguide.init L n_eff n_g D loss lam0 omegas (Some [pin; pin]) n = (inr wg, n') ->
  Waveguide.field_equations wg = inr [ <[pin := Scalar (RtoC 1)]> ∅ ].
Proof.
  intros H.
  destruct (Waveguide_equation_closed_form _ _ _ _ _ _ _ _ _ _ _ H)
    as (pin_in & pin_out & Hp & Hf).
  apply Waveguide_init_inv in H as (_ & ps & Hb & ->).
  apply BaseStructure_init_inv in Hb as [_ [-> _]].
  simpl in Hp; injection Hp as <- <-.
  rewrite Hf, insert_insert_eq. reflexivity.
Qed.

Lemma waveguide_same_pin_twice_witness :
  exists wg,
    Waveguide.init 1 1 1 0 20 1 [0; 1] (Some [7; 7]%nat) 0%nat = (inr wg, 0%nat) /\
    Waveguide.field_equations wg = inr [ <[7%nat := Scalar (RtoC 1)]> ∅ ].
Proof.
  assert (H : Waveguide.init 1 1 1 0 20 1 [0; 1] (Some [7; 7]%nat) 0%nat =
              (inr (Waveguide.mk [7%nat; 7%nat] 1 1 1 0 20 1 [0; 1]
                                 (2 * PI / 1 * c)), 0%nat)).
  { apply Waveguide_init_ok; [lra | reflexivity]. }
  eexists; split; [exact H|].
  exact (waveguide_same_pin_twice _ _ _ _ _ _ _ _ _ _ _ H).
Defined.

(** ** Leaf structures: number of equations and missing pins *)

(** X8.  Each leaf's [field_equations] reads the first [num_pins]
    entries of [self.pins]: with at least that many pins it returns
    exactly [num_equations] equations, and with fewer it raises
    [IndexError]. *)
Theorem leaf_field_equations_count :
  (forall w : Waveguide.t,
      ((Waveguide.num_pins <= length (Waveguide.pins w))%nat ->
       exists eqs, Waveguide.field_equations w = inr eqs /\
                   length eqs = Waveguide.num_equations) /\
      ((length (Waveguide.pins w) < Waveguide.num_pins)%nat ->
       Waveguide.field_equations w = inl IndexError)) /\
  (forall s : Source.t,
      ((Source.num_pins <= length (Source.pins s))%nat ->
       exists eqs, Source.field_equations s = inr eqs /\
                   length eqs = Source.num_equations) /\
      ((length (Source.pins s) < Source.num_pins)%nat ->
       Source.field_equations s = inl IndexError)) /\
  (forall d : DirectionalCoupler.t,
      ((DirectionalCoupler.num_pins <= length (DirectionalCoupler.pins d))%nat ->
       exists eqs, DirectionalCoupler.field_equations d = inr eqs /\
                   length eqs = DirectionalCoupler.num_equations) /\
      ((length (DirectionalCoupler.pins d) < DirectionalCoupler.num_pins)%nat ->
       DirectionalCoupler.field_equations d = inl IndexError)).
Proof.
  split; [|split].
  - intros [ps ? ? ? ? ? ? ? ?]; cbn [Waveguide.pins]; split; intros Hlen.
    + destruct ps as [|a [|b ps]]; simpl in Hlen; try (unfold Waveguide.num_pins in Hlen; lia).
      eexists; split; reflexivity.
    + destruct ps as [|a [|b ps]]; simpl in Hlen;
        try (unfold Waveguide.num_pins in Hlen; lia); reflexivity.
  - intros [ps ? ?]; cbn [Source.pins]; split; intros Hlen.
    + destruct ps as [|a ps]; simpl in Hlen; try (unfold Source.num_pins in Hlen; lia).
      eexists; split; reflexivity.
    + destruct ps as [|a ps]; simpl in Hlen;
        try (unfold Source.num_pins in Hlen; lia); reflexivity.
  - intros [ps ? ?]; cbn [DirectionalCoupler.pins]; split; intros Hlen.
    + destruct ps as [|a [|b [|c0 [|d ps]]]]; simpl in Hlen;
        try (unfold DirectionalCoupler.num_pins in Hlen; lia).
      eexists; split; reflexivity.
    + destruct ps as [|a [|b [|c0 [|d ps]]]]; simpl in Hlen;
        try (unfold DirectionalCoupler.num_pins in Hlen; lia); reflexivity.
Qed.

(** A coupler left with three pins raises; a source with a spare pin
    still gives its one equation. *)
Lemma leaf_field_equations_count_witness :
  DirectionalCoupler.field_equations
    (DirectionalCoupler.mk [0; 1; 2]%nat (RtoC 0) (RtoC 1)) = inl IndexError /\
  exists eqs,
    Source.field_equations (Source.mk [5; 6]%nat (RtoC 1) 0) = inr eqs /\
    length eqs = 1%nat.
Proof.
  destruct leaf_field_equations_count as (_ & Hs & Hd).
  split.
  - apply (Hd (DirectionalCoupler.mk [0; 1; 2]%nat (RtoC 0) (RtoC 1))).
    simpl; unfold DirectionalCoupler.num_pins; lia.
  - apply (Hs (Source.mk [5; 6]%nat (RtoC 1) 0)).
    simpl; unfold Source.num_pins; lia.
Defined.

(** ** Directional coupler: the scattering relation *)

Lemma Cabs_sq (z : C) : Cabs z ^ 2 = re z * re z + im z * im z.
Proof.
  unfold Cabs. rewrite <- Rsqr_pow2, Rsqr_sqrt; [reflexivity|]. nra.
Qed.

(** The stored coefficients of a constructed coupler have unit norm. *)
Lemma coupler_norm (kap phi_self phi_cross : R) :
  0 <= kap <= 1 ->
  Cabs (Cmul (RtoC (sqrt (1 - kap ^ 2))) (Cexp (Cmul Ci (RtoC phi_self)))) ^ 2 +
  Cabs (Cmul (RtoC kap) (Cexp (Cmul Ci (RtoC phi_cross)))) ^ 2 = 1.
Proof.
  intros [H0 H1].
  rewrite !Cabs_polar, <- !Rsqr_pow2, <- !Rsqr_abs.
  rewrite Rsqr_sqrt by (unfold Rsqr; nra).
  unfold Rsqr; ring.
Qed.

(** The two equations of a coupler over four different pins, read as
    relations between amplitudes. *)
Lemma coupler_scattering (p0 p1 p2 p3 : Pin) (k s : C) (A : nat -> C) (i : nat) :
  NoDup [p0; p1; p2; p3] ->
  (equation_lhs A i
     (<[p2 := Scalar (RtoC (-1))]> (<[p1 := Scalar k]> (<[p0 := Scalar s]> ∅)))
     = RtoC 0 <->
   A p2 = Cadd (Cmul s (A p0)) (Cmul k (A p1))) /\
  (equation_lhs A i
     (<[p3 := Scalar (RtoC (-1))]>
        (<[p1 := Scalar (conj s)]> (<[p0 := Scalar (Copp (conj k))]> ∅)))
     = RtoC 0 <->
   A p3 = Cadd (Cmul (Copp (conj k)) (A p0)) (Cmul (conj s) (A p1))).
Proof.
  intros Hnd.
  apply NoDup_cons in Hnd as [H0 Hnd]. apply NoDup_cons in Hnd as [H1 Hnd].
  apply NoDup_cons in Hnd as [H2 _].
  repeat rewrite not_elem_of_cons in H0.
  repeat rewrite not_elem_of_cons in H1.
  repeat rewrite not_elem_of_cons in H2.
  destruct H0 as (H01 & H02 & H03 & _), H1 as (H12 & H13 & _), H2 as (H23 & _).
  rewrite !equation_lhs_three by congruence.
  split; apply scattering_row.
Qed.

(** The output power of the scattering relation, for any coefficients. *)
Lemma scattering_power (s k a b : C) :
  Cabs (Cadd (Cmul s a) (Cmul k b)) ^ 2 +
  Cabs (Cadd (Cmul (Copp (conj k)) a) (Cmul (conj s) b)) ^ 2 =
  (Cabs s ^ 2 + Cabs k ^ 2) * (Cabs a ^ 2 + Cabs b ^ 2).
Proof.
  rewrite !Cabs_sq. destruct s, k, a, b; simpl. ring.
Qed.

(** X9.  A coupler with a cross-coupling magnitude between 0 and 1
    conserves power: amplitudes that satisfy its two equations over
    four different pins have [|A2|^2 + |A3|^2 = |A0|^2 + |A1|^2],
    whatever the two phases. *)
Theorem coupler_power_conservation
    (kap phi_self phi_cross : R) (pins : option (list Pin)) (n n' : nat)
    (dc : DirectionalCoupler.t) :
  0 <= kap <= 1 ->
  DirectionalCoupler.init kap phi_self phi_cross pins n = (inr dc, n') ->
  NoDup (DirectionalCoupler.pins dc) ->
  exists p0 p1 p2 p3 (eq1 eq2 : gmap nat coef),
    DirectionalCoupler.pins dc = [p0; p1; p2; p3] /\
    DirectionalCoupler.field_equations dc = inr [eq1; eq2] /\
    forall (A : nat -> C) (i : nat),
      equation_lhs A i eq1 = RtoC 0 ->
      equation_lhs A i eq2 = RtoC 0 ->
      Cabs (A p2) ^ 2 + Cabs (A p3) ^ 2 = Cabs (A p0) ^ 2 + Cabs (A p1) ^ 2.
Proof.
  intros Hk H Hnd. apply DirectionalCoupler_init_inv in H as (ps & Hb & ->).
  apply BaseStructure_init_inv in Hb as [Hlen _].
  cbn [DirectionalCoupler.pins] in Hnd.
  destruct (DirectionalCoupler_equations ps
              (Cmul (RtoC kap) (Cexp (Cmul Ci (RtoC phi_cross))))
              (Cmul (RtoC (sqrt (1 - kap ^ 2))) (Cexp (Cmul Ci (RtoC phi_self))))
              Hlen) as (p0 & p1 & p2 & p3 & -> & Hf).
  exists p0, p1, p2, p3; do 2 eexists.
  split; [reflexivity|]. split; [exact Hf|].
  intros A i E1 E2.
  destruct (coupler_scattering p0 p1 p2 p3
              (Cmul (RtoC kap) (Cexp (Cmul Ci (RtoC phi_cross))))
              (Cmul (RtoC (sqrt (1 - kap ^ 2))) (Cexp (Cmul Ci (RtoC phi_self))))
              A i Hnd) as [R1 R2].
  apply R1 in E1. apply R2 in E2. rewrite E1, E2.
  rewrite scattering_power, (coupler_norm kap phi_self phi_cross Hk). ring.
Qed.

Lemma coupler_power_conservation_witness :
  exists dc (eq1 eq2 : gmap nat coef),
    0 <= 1 / 2 <= 1 /\
    DirectionalCoupler.init (1 / 2) 0 (PI / 2) None 0%nat = (inr dc, 4%nat) /\
    NoDup (DirectionalCoupler.pins dc) /\
    DirectionalCoupler.field_equations dc = inr [eq1; eq2] /\
    forall (A : nat -> C),
      equation_lhs A 0 eq1 = RtoC 0 ->
      equation_lhs A 0 eq2 = RtoC 0 ->
      Cabs (A 2%nat) ^ 2 + Cabs (A 3%nat) ^ 2 = Cabs (A 0%nat) ^ 2 + Cabs (A 1%nat) ^ 2.
Proof.
  pose proof (DirectionalCoupler_init_ok (1 / 2) 0 (PI / 2) None 0 4 (seq 0 4) eq_refl)
    as H.
  destruct (coupler_power_conservation (1 / 2) 0 (PI / 2) None 0 4 _
              ltac:(lra) H (NoDup_seq 0 4))
    as (p0 & p1 & p2 & p3 & eq1 & eq2 & Hp & Hf & Hpow).
  simpl in Hp; injection Hp as <- <- <- <-.
  eexists; exists eq1, eq2. split; [lra|]. split; [exact H|].
  split; [exact (NoDup_seq 0 4)|]. split; [exact Hf|].
  intros A. exact (Hpow A 0%nat).
Defined.

(** The scattering relation with coefficients of unit norm is inverted
    by the conjugate transpose. *)
Lemma scattering_inverse (s k a b x y : C) :
  Cabs s ^ 2 + Cabs k ^ 2 = 1 ->
  (x = Cadd (Cmul s a) (Cmul k b) /\
   y = Cadd (Cmul (Copp (conj k)) a) (Cmul (conj s) b)) <->
  (a = Cadd (Cmul (conj s) x) (Cmul (Copp k) y) /\
   b = Cadd (Cmul (conj k) x) (Cmul s y)).
Proof.
  rewrite !Cabs_sq.
  destruct s as [sr si], k as [kr ki], a as [ar ai], b as [br bi],
           x as [xr xi], y as [yr yi].
  unfold Cadd, Cmul, Copp, conj; simpl. intros N.
  split; intros [E1 E2]; injection E1 as -> ->; injection E2 as -> ->;
    split; f_equal.
  - transitivity ((sr * sr + si * si + (kr * kr + ki * ki)) * ar);
      [rewrite N; ring | ring].
  - transitivity ((sr * sr + si * si + (kr * kr + ki * ki)) * ai);
      [rewrite N; ring | ring].
  - transitivity ((sr * sr + si * si + (kr * kr + ki * ki)) * br);
      [rewrite N; ring | ring].
  - transitivity ((sr * sr + si * si + (kr * kr + ki * ki)) * bi);
      [rewrite N; ring | ring].
  - transitivity ((sr * sr + si * si + (kr * kr + ki * ki)) * xr);
      [rewrite N; ring | ring].
  - transitivity ((sr * sr + si * si + (kr * kr + ki * ki)) * xi);
      [rewrite N; ring | ring].
  - transitivity ((sr * sr + si * si + (kr * kr + ki * ki)) * yr);
      [rewrite N; ring | ring].
  - transitivity ((sr * sr + si * si + (kr * kr + ki * ki)) * yi);
      [rewrite N; ring | ring].
Qed.

(** X10.  The coupler is reciprocal: for a cross-coupling magnitude
    between 0 and 1, amplitudes satisfy its two equations over four
    different pins exactly when the inputs are recovered from the
    outputs by the conjugate-transposed coefficients,
    [A0 = conj(sigma) A2 - k A3] and [A1 = conj(k) A2 + sigma A3]. *)
Theorem coupler_inverse_relation
    (kap phi_self phi_cross : R) (pins : option (list Pin)) (n n' : nat)
    (dc : DirectionalCoupler.t) :
  0 <= kap <= 1 ->
  DirectionalCoupler.init kap phi_self phi_cross pins n = (inr dc, n') ->
  NoDup (DirectionalCoupler.pins dc) ->
  exists p0 p1 p2 p3 (eq1 eq2 : gmap nat coef),
    let k := DirectionalCoupler.kappa dc in
    let s := DirectionalCoupler.sigma dc in
    DirectionalCoupler.pins dc = [p0; p1; p2; p3] /\
    DirectionalCoupler.field_equations dc = inr [eq1; eq2] /\
    forall (A : nat -> C) (i : nat),
      (equation_lhs A i eq1 = RtoC 0 /\ equation_lhs A i eq2 = RtoC 0) <->
      (A p0 = Cadd (Cmul (conj s) (A p2)) (Cmul (Copp k) (A p3)) /\
       A p1 = Cadd (Cmul (conj k) (A p2)) (Cmul s (A p3))).
Proof.
  intros Hk H Hnd. apply DirectionalCoupler_init_inv in H as (ps & Hb & ->).
  apply BaseStructure_init_inv in Hb as [Hlen _].
  cbn [DirectionalCoupler.pins] in Hnd.
  destruct (DirectionalCoupler_equations ps
              (Cmul (RtoC kap) (Cexp (Cmul Ci (RtoC phi_cross))))
              (Cmul (RtoC (sqrt (1 - kap ^ 2))) (Cexp (Cmul Ci (RtoC phi_self))))
              Hlen) as (p0 & p1 & p2 & p3 & -> & Hf).
  exists p0, p1, p2, p3; do 2 eexists. cbn zeta.
  cbn [DirectionalCoupler.kappa DirectionalCoupler.sigma].
  split; [reflexivity|]. split; [exact Hf|].
  intros A i.
  destruct (coupler_scattering p0 p1 p2 p3
              (Cmul (RtoC kap) (Cexp (Cmul Ci (RtoC phi_cross))))
              (Cmul (RtoC (sqrt (1 - kap ^ 2))) (Cexp (Cmul Ci (RtoC phi_self))))
              A i Hnd) as [R1 R2].
  rewrite R1, R2.
  apply scattering_inverse, coupler_norm, Hk.
Qed.

Lemma coupler_inverse_relation_witness :
  exists dc (eq1 eq2 : gmap nat coef),
    0 <= 1 / 2 <= 1 /\
    DirectionalCoupler.init (1 / 2) 0 (PI / 2) None 0%nat = (inr dc, 4%nat) /\
    DirectionalCoupler.field_equations dc = inr [eq1; eq2] /\
    forall (A : nat -> C),
      (equation_lhs A 0 eq1 = RtoC 0 /\ equation_lhs A 0 eq2 = RtoC 0) <->
      (A 0%nat = Cadd (Cmul (conj (DirectionalCoupler.sigma dc)) (A 2%nat))
                      (Cmul (Copp (DirectionalCoupler.kappa dc)) (A 3%nat)) /\
       A 1%nat = Cadd (Cmul (conj (DirectionalCoupler.kappa dc)) (A 2%nat))
                      (Cmul (DirectionalCoupler.sigma dc) (A 3%nat))).
Proof.
  pose proof (DirectionalCoupler_init_ok (1 / 2) 0 (PI / 2) None 0 4 (seq 0 4) eq_refl)
    as H.
  destruct (coupler_inverse_relation (1 / 2) 0 (PI / 2) None 0 4 _
              ltac:(lra) H (NoDup_seq 0 4))
    as (p0 & p1 & p2 & p3 & eq1 & eq2 & Hp & Hf & Hinv).
  simpl in Hp; injection Hp as <- <- <- <-.
  eexists; exists eq1, eq2. split; [lra|]. split; [exact H|]. split; [exact Hf|].
  intros A. exact (Hinv A 0%nat).
Defined.

(** With the default phases the cross coefficient is [i kappa] and the
    self coefficient is real. *)
Lemma default_phase_coefficients (kap : R) :
  DirectionalCoupler.kappa (coupler_on [] kap) = mkC 0 kap /\
  DirectionalCoupler.sigma (coupler_on [] kap) = mkC (sqrt (1 - kap ^ 2)) 0.
Proof.
  unfold coupler_on; cbn [DirectionalCoupler.kappa DirectionalCoupler.sigma].
  rewrite !polar_form.
  unfold DirectionalCoupler.default_cross_coupling_phase,
         DirectionalCoupler.default_self_coupling_phase.
  rewrite cos_PI2, sin_PI2, cos_0, sin_0.
  split; apply C_eq; simpl; ring.
Qed.

(** X11.  With the default phases (self 0, cross [pi/2]) and a
    coupling coefficient whose square is at most 1, so that
    [1 - kappa^2] has a real square root, the coupler is symmetric: it
    stores [k = i kappa] and the real [sigma = sqrt(1 - kappa^2)], and
    its two equations are [{pin0: sigma, pin1: i kappa, pin2: -1}] and
    [{pin0: i kappa, pin1: sigma, pin3: -1}], the matrix of the class
    docstring with [-1] where the docstring writes [1]. *)
Theorem coupler_default_phases_symmetric
    (kap : R) (pins : option (list Pin)) (n n' : nat) (dc : DirectionalCoupler.t) :
  0 <= 1 - kap ^ 2 ->
  DirectionalCoupler.init kap DirectionalCoupler.default_self_coupling_phase
      DirectionalCoupler.default_cross_coupling_phase pins n = (inr dc, n') ->
  exists p0 p1 p2 p3,
    let k := DirectionalCoupler.kappa dc in
    let s := DirectionalCoupler.sigma dc in
    DirectionalCoupler.pins dc = [p0; p1; p2; p3] /\
    k = mkC 0 kap /\
    s = mkC (sqrt (1 - kap ^ 2)) 0 /\
    DirectionalCoupler.field_equations dc =
      inr [ <[p2 := Scalar (RtoC (-1))]> (<[p1 := Scalar k]> (<[p0 := Scalar s]> ∅));
            <[p3 := Scalar (RtoC (-1))]> (<[p1 := Scalar s]> (<[p0 := Scalar k]> ∅)) ].
Proof.
  intros _ H. apply DirectionalCoupler_init_inv in H as (ps & Hb & ->).
  apply BaseStructure_init_inv in Hb as [Hlen _].
  destruct (DirectionalCoupler_equations ps
              (Cmul (RtoC kap)
                 (Cexp (Cmul Ci (RtoC DirectionalCoupler.default_cross_coupling_phase))))
              (Cmul (RtoC (sqrt (1 - kap ^ 2)))
                 (Cexp (Cmul Ci (RtoC DirectionalCoupler.default_self_coupling_phase))))
              Hlen) as (p0 & p1 & p2 & p3 & -> & Hf).
  destruct (default_phase_coefficients kap) as [Ek Es].
  unfold coupler_on in Ek, Es.
  cbn [DirectionalCoupler.kappa DirectionalCoupler.sigma] in Ek, Es.
  exists p0, p1, p2, p3; cbn zeta.
  cbn [DirectionalCoupler.kappa DirectionalCoupler.sigma DirectionalCoupler.pins].
  rewrite Hf, Ek, Es.
  split; [reflexivity|]. split; [reflexivity|]. split; [reflexivity|].
  replace (Copp (conj (mkC 0 kap))) with (mkC 0 kap) by (apply C_eq; simpl; ring).
  replace (conj (mkC (sqrt (1 - kap ^ 2)) 0)) with (mkC (sqrt (1 - kap ^ 2)) 0)
    by (apply C_eq; simpl; ring).
  reflexivity.
Qed.

(** The coupler with [kappa = 1/2] and the default phases. *)
Lemma coupler_default_phases_symmetric_witness :
  exists dc,
    0 <= 1 - (1 / 2) ^ 2 /\
    DirectionalCoupler.init (1 / 2) DirectionalCoupler.default_self_coupling_phase
        DirectionalCoupler.default_cross_coupling_phase None 0%nat = (inr dc, 4%nat) /\
    DirectionalCoupler.kappa dc = mkC 0 (1 / 2) /\
    DirectionalCoupler.sigma dc = mkC (sqrt (1 - (1 / 2) ^ 2)) 0 /\
    DirectionalCoupler.field_equations dc =
      inr [ <[2%nat := Scalar (RtoC (-1))]>
              (<[1%nat := Scalar (DirectionalCoupler.kappa dc)]>
                 (<[0%nat := Scalar (DirectionalCoupler.sigma dc)]> ∅));
            <[3%nat := Scalar (RtoC (-1))]>
              (<[1%nat := Scalar (DirectionalCoupler.sigma dc)]>
                 (<[0%nat := Scalar (DirectionalCoupler.kappa dc)]> ∅)) ].
Proof.
  pose proof (DirectionalCoupler_init_ok (1 / 2)
                DirectionalCoupler.default_self_coupling_phase
                DirectionalCoupler.default_cross_coupling_phase
                None 0 4 (seq 0 4) eq_refl) as H.
  assert (Hdom : 0 <= 1 - (1 / 2) ^ 2) by lra.
  destruct (coupler_default_phases_symmetric _ _ _ _ _ Hdom H)
    as (p0 & p1 & p2 & p3 & Hp & Hk & Hs & Hf).
  simpl in Hp; injection Hp as <- <- <- <-.
  eexists; split; [exact Hdom|]. split; [exact H|]. split; [exact Hk|].
  split; [exact Hs | exact Hf].
Defined.

(** The coupler with the default phases at [kappa = 0] and [kappa = 1]. *)
Lemma coupler_extreme_states
    (pins : option (list Pin)) (n n' : nat) (dc : DirectionalCoupler.t)
    (kap : R) :
  kap = 0 \/ kap = 1 ->
  DirectionalCoupler.init kap DirectionalCoupler.default_self_coupling_phase
      DirectionalCoupler.default_cross_coupling_phase pins n = (inr dc, n') ->
  NoDup (DirectionalCoupler.pins dc) ->
  exists p0 p1 p2 p3 (eq1 eq2 : gmap nat coef),
    DirectionalCoupler.pins dc = [p0; p1; p2; p3] /\
    DirectionalCoupler.field_equations dc = inr [eq1; eq2] /\
    forall (A : nat -> C) (i : nat),
      (equation_lhs A i eq1 = RtoC 0 /\ equation_lhs A i eq2 = RtoC 0) <->
      (if Req_dec_T kap 0
       then A p2 = A p0 /\ A p3 = A p1
       else A p2 = Cmul Ci (A p1) /\ A p3 = Cmul Ci (A p0)).
Proof.
  intros Hkap H Hnd. apply DirectionalCoupler_init_inv in H as (ps & Hb & ->).
  apply BaseStructure_init_inv in Hb as [Hlen _].
  cbn [DirectionalCoupler.pins] in Hnd.
  destruct (DirectionalCoupler_equations ps
              (Cmul (RtoC kap)
                 (Cexp (Cmul Ci (RtoC DirectionalCoupler.default_cross_coupling_phase))))
              (Cmul (RtoC (sqrt (1 - kap ^ 2)))
                 (Cexp (Cmul Ci (RtoC DirectionalCoupler.default_self_coupling_phase))))
              Hlen) as (p0 & p1 & p2 & p3 & -> & Hf).
  exists p0, p1, p2, p3; do 2 eexists.
  split; [reflexivity|]. split; [exact Hf|].
  intros A i.
  destruct (coupler_scattering p0 p1 p2 p3
              (Cmul (RtoC kap)
                 (Cexp (Cmul Ci (RtoC DirectionalCoupler.default_cross_coupling_phase))))
              (Cmul (RtoC (sqrt (1 - kap ^ 2)))
                 (Cexp (Cmul Ci (RtoC DirectionalCoupler.default_self_coupling_phase))))
              A i Hnd) as [R1 R2].
  rewrite R1, R2.
  destruct (default_phase_coefficients kap) as [Ek Es].
  unfold coupler_on in Ek, Es.
  cbn [DirectionalCoupler.kappa DirectionalCoupler.sigma] in Ek, Es.
  rewrite Ek, Es.
  destruct (A p0) as [ar ai], (A p1) as [br bi], (A p2) as [xr xi], (A p3) as [yr yi].
  destruct (Req_dec_T kap 0) as [E|E].
  - subst kap. replace (1 - 0 ^ 2) with 1 by ring. rewrite sqrt_1.
    unfold Cadd, Cmul, Copp, conj; simpl.
    split; intros [E1 E2]; injection E1 as -> ->; injection E2 as -> ->;
      split; f_equal; ring.
  - destruct Hkap as [->| ->]; [contradiction|].
    replace (1 - 1 ^ 2) with 0 by ring. rewrite sqrt_0.
    unfold Cadd, Cmul, Copp, conj, Ci; simpl.
    split; intros [E1 E2]; injection E1 as -> ->; injection E2 as -> ->;
      split; f_equal; ring.
Qed.

(** X12.  The two extreme couplers, with the default phases.  With
    [kappa = 0] nothing crosses: the equations hold exactly when
    [A2 = A0] and [A3 = A1].  With [kappa = 1] everything crosses with
    a quarter-turn phase: they hold exactly when [A2 = i A1] and
    [A3 = i A0]. *)
Theorem coupler_bar_and_cross_states :
  (forall (pins : option (list Pin)) (n n' : nat) (dc : DirectionalCoupler.t),
      DirectionalCoupler.init 0 DirectionalCoupler.default_self_coupling_phase
          DirectionalCoupler.default_cross_coupling_phase pins n = (inr dc, n') ->
      NoDup (DirectionalCoupler.pins dc) ->
      exists p0 p1 p2 p3 (eq1 eq2 : gmap nat coef),
        DirectionalCoupler.pins dc = [p0; p1; p2; p3] /\
        DirectionalCoupler.field_equations dc = inr [eq1; eq2] /\
        forall (A : nat -> C) (i : nat),
          (equation_lhs A i eq1 = RtoC 0 /\ equation_lhs A i eq2 = RtoC 0) <->
          (A p2 = A p0 /\ A p3 = A p1)) /\
  (forall (pins : option (list Pin)) (n n' : nat) (dc : DirectionalCoupler.t),
      DirectionalCoupler.init 1 DirectionalCoupler.default_self_coupling_phase
          DirectionalCoupler.default_cross_coupling_phase pins n = (inr dc, n') ->
      NoDup (DirectionalCoupler.pins dc) ->
      exists p0 p1 p2 p3 (eq1 eq2 : gmap nat coef),
        DirectionalCoupler.pins dc = [p0; p1; p2; p3] /\
        DirectionalCoupler.field_equations dc = inr [eq1; eq2] /\
        forall (A : nat -> C) (i : nat),
          (equation_lhs A i eq1 = RtoC 0 /\ equation_lhs A i eq2 = RtoC 0) <->
          (A p2 = Cmul Ci (A p1) /\ A p3 = Cmul Ci (A p0))).
Proof.
  split; intros pins n n' dc H Hnd.
  - destruct (coupler_extreme_states pins n n' dc 0 (or_introl eq_refl) H Hnd)
      as (p0 & p1 & p2 & p3 & eq1 & eq2 & Hp & Hf & Hrel).
    exists p0, p1, p2, p3, eq1, eq2. split; [exact Hp|]. split; [exact Hf|].
    intros A i. pose proof (Hrel A i) as Hr.
    destruct (Req_dec_T 0 0) as [_|E]; [exact Hr | exfalso; apply E; reflexivity].
  - destruct (coupler_extreme_states pins n n' dc 1 (or_intror eq_refl) H Hnd)
      as (p0 & p1 & p2 & p3 & eq1 & eq2 & Hp & Hf & Hrel).
    exists p0, p1, p2, p3, eq1, eq2. split; [exact Hp|]. split; [exact Hf|].
    intros A i. pose proof (Hrel A i) as Hr.
    destruct (Req_dec_T 1 0) as [E|_]; [exfalso; lra | exact Hr].
Qed.

Lemma coupler_bar_and_cross_states_witness :
  exists dc0 dc1 (e1 e2 f1 f2 : gmap nat coef),
    DirectionalCoupler.init 0 DirectionalCoupler.default_self_coupling_phase
        DirectionalCoupler.default_cross_coupling_phase None 0%nat = (inr dc0, 4%nat) /\
    DirectionalCoupler.init 1 DirectionalCoupler.default_self_coupling_phase
        DirectionalCoupler.default_cross_coupling_phase None 0%nat = (inr dc1, 4%nat) /\
    DirectionalCoupler.field_equations dc0 = inr [e1; e2] /\
    DirectionalCoupler.field_equations dc1 = inr [f1; f2] /\
    forall A : nat -> C,
      ((equation_lhs A 0 e1 = RtoC 0 /\ equation_lhs A 0 e2 = RtoC 0) <->
       (A 2%nat = A 0%nat /\ A 3%nat = A 1%nat)) /\
      ((equation_lhs A 0 f1 = RtoC 0 /\ equation_lhs A 0 f2 = RtoC 0) <->
       (A 2%nat = Cmul Ci (A 1%nat) /\ A 3%nat = Cmul Ci (A 0%nat))).
Proof.
  pose proof (DirectionalCoupler_init_ok 0
                DirectionalCoupler.default_self_coupling_phase
                DirectionalCoupler.default_cross_coupling_phase
                None 0 4 (seq 0 4) eq_refl) as H0.
  pose proof (DirectionalCoupler_init_ok 1
                DirectionalCoupler.default_self_coupling_phase
                DirectionalCoupler.default_cross_coupling_phase
                None 0 4 (seq 0 4) eq_refl) as H1.
  destruct coupler_bar_and_cross_states as [Hbar Hcross].
  destruct (Hbar None 0%nat 4%nat _ H0 (NoDup_seq 0 4))
    as (p0 & p1 & p2 & p3 & e1 & e2 & Hp & Hf & Hb).
  simpl in Hp; injection Hp as <- <- <- <-.
  destruct (Hcross None 0%nat 4%nat _ H1 (NoDup_seq 0 4))
    as (q0 & q1 & q2 & q3 & f1 & f2 & Hq & Hg & Hc).
  simpl in Hq; injection Hq as <- <- <- <-.
  do 2 eexists; exists e1, e2, f1, f2.
  split; [exact H0|]. split; [exact H1|]. split; [exact Hf|]. split; [exact Hg|].
  intros A. split; [exact (Hb A 0%nat) | exact (Hc A 0%nat)].
Defined.

(** ** Ring resonator: the theoretical curve of [plot_spectrum] *)

(** The loss factor over a non-negative path is in (0, 1]. *)
Lemma loss_factor_range (loss x : R) :
  0 <= loss -> 0 <= x ->
  0 < exp (- loss * ln 10 / 20 * x) <= 1.
Proof.
  intros Hl Hx. split; [apply exp_pos|].
  rewrite <- exp_0.
  assert (H : - loss * ln 10 / 20 * x <= 0).
  { pose proof ln_10_pos. assert (0 <= loss * x) by nra. nra. }
  destruct H as [H|H]; [left; apply exp_increasing; exact H | right; f_equal; exact H].
Qed.

Lemma loss_factor_strict (loss x : R) :
  0 < loss * x -> exp (- loss * ln 10 / 20 * x) < 1.
Proof.
  intros H. rewrite <- exp_0. apply exp_increasing.
  pose proof ln_10_pos. nra.
Qed.

(** The self-coupling magnitude is in [0, 1], and below 1 when some
    light crosses. *)
Lemma sigma_range (kap : R) :
  0 <= kap <= 1 ->
  0 <= sqrt (1 - kap ^ 2) <= 1 /\
  sqrt (1 - kap ^ 2) ^ 2 = 1 - kap ^ 2 /\
  (0 < kap -> sqrt (1 - kap ^ 2) < 1).
Proof.
  intros [H0 H1].
  assert (Hd : 0 <= 1 - kap ^ 2) by (simpl; nra).
  split; [split; [apply sqrt_pos|]|split].
  - rewrite <- sqrt_1 at 2. apply sqrt_le_1_alt. simpl; nra.
  - rewrite <- Rsqr_pow2. apply Rsqr_sqrt. exact Hd.
  - intros Hk. rewrite <- sqrt_1 at 2. apply sqrt_lt_1_alt. simpl; nra.
Qed.

(** The all-pass quotient lies in [0, 1]. *)
Lemma ring_curve_range (s a co : R) :
  0 <= s <= 1 -> 0 < a <= 1 -> s * a < 1 -> -1 <= co <= 1 ->
  0 < 1 + (s * a) ^ 2 - 2 * s * a * co /\
  0 <= (s ^ 2 + a ^ 2 - 2 * s * a * co) / (1 + (s * a) ^ 2 - 2 * s * a * co) <= 1.
Proof.
  intros Hs Ha Hsa Hc.
  assert (Hsa0 : 0 <= s * a) by (apply Rmult_le_pos; lra).
  assert (Hcross : 0 <= 2 * (s * a) * (1 - co)).
  { apply Rmult_le_pos; [lra | lra]. }
  assert (Hden : 0 < 1 + (s * a) ^ 2 - 2 * s * a * co).
  { replace (1 + (s * a) ^ 2 - 2 * s * a * co)
      with ((1 - s * a) * (1 - s * a) + 2 * (s * a) * (1 - co)) by ring.
    assert (0 < (1 - s * a) * (1 - s * a)) by (apply Rmult_lt_0_compat; lra).
    lra. }
  assert (Hnum : 0 <= s ^ 2 + a ^ 2 - 2 * s * a * co).
  { replace (s ^ 2 + a ^ 2 - 2 * s * a * co)
      with ((s - a) * (s - a) + 2 * (s * a) * (1 - co)) by ring.
    pose proof (Rle_0_sqr (s - a)) as Hsq. unfold Rsqr in Hsq. lra. }
  assert (Hle : s ^ 2 + a ^ 2 - 2 * s * a * co <= 1 + (s * a) ^ 2 - 2 * s * a * co).
  { assert (H : 0 <= (1 - s * s) * (1 - a * a)) by (apply Rmult_le_pos; nra).
    replace (1 + (s * a) ^ 2 - 2 * s * a * co)
      with (s ^ 2 + a ^ 2 - 2 * s * a * co + (1 - s * s) * (1 - a * a)) by ring.
    lra. }
  split; [exact Hden|]. split.
  - apply Rmult_le_pos; [exact Hnum | left; apply Rinv_0_lt_compat; exact Hden].
  - apply (Rmult_le_reg_r (1 + (s * a) ^ 2 - 2 * s * a * co)); [exact Hden|].
    unfold Rdiv. rewrite Rmult_assoc, Rinv_l by lra. lra.
Qed.

(** The product of the two magnitudes stays below 1 unless the ring
    neither couples nor loses. *)
Lemma sigma_loss_below_one (kap loss x : R) :
  0 <= kap <= 1 -> 0 <= loss -> 0 <= x -> 0 < kap \/ 0 < loss * x ->
  sqrt (1 - kap ^ 2) * exp (- loss * ln 10 / 20 * x) < 1.
Proof.
  intros Hk Hl Hx Hor.
  destruct (sigma_range kap Hk) as ([Hs0 Hs1] & _ & Hlt).
  destruct (loss_factor_range loss x Hl Hx) as [Ha0 Ha1].
  destruct Hor as [Hpos|Hpos].
  - specialize (Hlt Hpos). nra.
  - pose proof (loss_factor_strict loss x Hpos). nra.
Qed.

(** X13.  The theoretical transmission of a ring is a fraction of the
    input power: for a cross-coupling magnitude between 0 and 1, a
    non-negative loss and radius, and a ring that couples or loses
    ([kappa > 0] or [loss radius > 0]), every value of the curve lies
    between 0 and 1, and there is one value per wavevector sample. *)
Theorem ring_teo_transmission_range (self : RingResonator.t) (wavevector : list R) :
  0 <= RingResonator.cross_coupling_coefficient self <= 1 ->
  0 <= Composite.loss_dB (RingResonator.base self) ->
  0 <= RingResonator.radius self ->
  0 < RingResonator.cross_coupling_coefficient self \/
  0 < Composite.loss_dB (RingResonator.base self) * RingResonator.radius self ->
  length (RingResonator.teo_transmission self wavevector) = length wavevector /\
  forall (i : nat) (T : R),
    RingResonator.teo_transmission self wavevector !! i = Some T -> 0 <= T <= 1.
Proof.
  intros Hk Hl Hr Hor. split; [apply length_map|].
  intros i T HT. unfold RingResonator.teo_transmission in HT.
  rewrite list_lookup_fmap in HT.
  destruct (wavevector !! i) as [k|]; [|discriminate].
  injection HT as <-.
  assert (Hx : 0 <= RingResonator.radius self * (2 * PI)).
  { pose proof PI_RGT_0. nra. }
  replace (- Composite.loss_dB (RingResonator.base self) * ln 10 / 20
           * RingResonator.radius self * 2 * PI)
    with (- Composite.loss_dB (RingResonator.base self) * ln 10 / 20
          * (RingResonator.radius self * (2 * PI))) by ring.
  apply ring_curve_range.
  - apply sigma_range, Hk.
  - apply loss_factor_range; assumption.
  - apply sigma_loss_below_one; try assumption.
    destruct Hor as [H|H]; [left; exact H | right].
    pose proof PI_RGT_0. nra.
  - apply COS_bound.
Qed.

Lemma ring_teo_transmission_range_witness :
  let self := ring_on 0 1 2 3 1 (1 / 2) 1 1 0 10 1 [0] in
  0 <= RingResonator.cross_coupling_coefficient self <= 1 /\
  forall (i : nat) (T : R),
    RingResonator.teo_transmission self [0; 1; 2] !! i = Some T -> 0 <= T <= 1.
Proof.
  cbn zeta. split; [simpl; lra|].
  apply (ring_teo_transmission_range (ring_on 0 1 2 3 1 (1 / 2) 1 1 0 10 1 [0]) [0; 1; 2]);
    simpl; lra.
Defined.

(** Without loss the quotient is 1. *)
Lemma ring_curve_lossless (s co : R) :
  0 <= s < 1 -> -1 <= co <= 1 ->
  (s ^ 2 + 1 ^ 2 - 2 * s * 1 * co) / (1 + (s * 1) ^ 2 - 2 * s * 1 * co) = 1.
Proof.
  intros Hs Hc.
  destruct (ring_curve_range s 1 co ltac:(lra) ltac:(lra) ltac:(lra) Hc) as [Hden _].
  apply (Rmult_eq_reg_r (1 + (s * 1) ^ 2 - 2 * s * 1 * co)); [|lra].
  unfold Rdiv. rewrite Rmult_assoc, Rinv_l by lra. ring.
Qed.

(** X14.  A lossless ring is all-pass: with [loss_dB = 0] and a
    cross-coupling magnitude in (0, 1], the theoretical transmission is
    1 at every wavevector sample. *)
Theorem ring_teo_transmission_lossless (self : RingResonator.t) (wavevector : list R) :
  0 < RingResonator.cross_coupling_coefficient self <= 1 ->
  Composite.loss_dB (RingResonator.base self) = 0 ->
  forall (i : nat) (T : R),
    RingResonator.teo_transmission self wavevector !! i = Some T -> T = 1.
Proof.
  intros [Hk0 Hk1] Hl i T HT. unfold RingResonator.teo_transmission in HT.
  rewrite list_lookup_fmap in HT.
  destruct (wavevector !! i) as [k|]; [|discriminate].
  rewrite Hl in HT.
  replace (- 0 * ln 10 / 20 * RingResonator.radius self * 2 * PI) with 0 in HT
    by (unfold Rdiv; ring).
  rewrite exp_0 in HT.
  injection HT as <-.
  destruct (sigma_range (RingResonator.cross_coupling_coefficient self)
              ltac:(lra)) as (Hs & _ & Hlt).
  specialize (Hlt Hk0).
  apply (ring_curve_lossless
           (sqrt (1 - RingResonator.cross_coupling_coefficient self ^ 2))
           (cos (k * RingResonator.radius self * 2 * PI))); [lra | apply COS_bound].
Qed.

Lemma ring_teo_transmission_lossless_witness :
  let self := ring_on 0 1 2 3 1 (1 / 2) 1 1 0 0 1 [0] in
  0 < RingResonator.cross_coupling_coefficient self <= 1 /\
  Composite.loss_dB (RingResonator.base self) = 0 /\
  RingResonator.teo_transmission self [0; 1; 2] !! 1%nat = Some 1.
Proof.
  cbn zeta. split; [simpl; lra|]. split; [reflexivity|].
  destruct (RingResonator.teo_transmission (ring_on 0 1 2 3 1 (1 / 2) 1 1 0 0 1 [0])
              [0; 1; 2] !! 1%nat) as [T|] eqn:E; [|discriminate].
  f_equal.
  apply (ring_teo_transmission_lossless (ring_on 0 1 2 3 1 (1 / 2) 1 1 0 0 1 [0])
           [0; 1; 2] ltac:(simpl; lra) eq_refl 1%nat T E).
Defined.

(** Equal magnitudes on resonance give a zero numerator. *)
Lemma ring_curve_critical (s : R) :
  (s ^ 2 + s ^ 2 - 2 * s * s * 1) / (1 + (s * s) ^ 2 - 2 * s * s * 1) = 0.
Proof.
  replace (s ^ 2 + s ^ 2 - 2 * s * s * 1) with 0 by ring.
  unfold Rdiv; ring.
Qed.

(** X15.  Critical coupling: when the self-coupling magnitude equals
    the round-trip loss factor, the theoretical transmission vanishes
    at every sample on resonance, that is where the round-trip phase
    has cosine 1. *)
Theorem ring_teo_transmission_critical (self : RingResonator.t) (wavevector : list R)
    (i : nat) (k T : R) :
  0 < RingResonator.cross_coupling_coefficient self <= 1 ->
  sqrt (1 - RingResonator.cross_coupling_coefficient self ^ 2) =
    exp (- Composite.loss_dB (RingResonator.base self) * ln 10 / 20
           * RingResonator.radius self * 2 * PI) ->
  wavevector !! i = Some k ->
  cos (k * RingResonator.radius self * 2 * PI) = 1 ->
  RingResonator.teo_transmission self wavevector !! i = Some T ->
  T = 0.
Proof.
  intros Hk Hcrit Hi Hres HT. unfold RingResonator.teo_transmission in HT.
  rewrite list_lookup_fmap, Hi in HT.
  rewrite <- Hcrit in HT. cbn [fmap option_fmap option_map] in HT.
  rewrite Hres in HT.
  injection HT as <-.
  apply (ring_curve_critical
           (sqrt (1 - RingResonator.cross_coupling_coefficient self ^ 2))).
Qed.

(** A ring whose loss is chosen so that the round-trip factor is the
    self-coupling magnitude, sampled at wavevector 0. *)
Lemma ring_teo_transmission_critical_witness :
  let loss := - ln (sqrt (1 - (1 / 2) ^ 2)) * 20 / (ln 10 * (2 * PI)) in
  let self := ring_on 0 1 2 3 1 (1 / 2) 1 1 0 loss 1 [0] in
  0 < RingResonator.cross_coupling_coefficient self <= 1 /\
  RingResonator.teo_transmission self [0] !! 0%nat = Some 0.
Proof.
  cbn zeta. split; [simpl; lra|].
  set (loss := - ln (sqrt (1 - (1 / 2) ^ 2)) * 20 / (ln 10 * (2 * PI))).
  set (self := ring_on 0 1 2 3 1 (1 / 2) 1 1 0 loss 1 [0]).
  destruct (RingResonator.teo_transmission self [0] !! 0%nat) as [T|] eqn:E;
    [|discriminate].
  f_equal.
  apply (ring_teo_transmission_critical self [0] 0%nat 0 T).
  - simpl; lra.
  - unfold self, ring_on, loss.
    cbn [RingResonator.cross_coupling_coefficient RingResonator.base
         RingResonator.radius Composite.loss_dB].
    assert (Hs : 0 < sqrt (1 - (1 / 2) ^ 2)) by (apply sqrt_lt_R0; lra).
    pose proof ln_10_pos. pose proof PI_RGT_0.
    replace (- (- ln (sqrt (1 - (1 / 2) ^ 2)) * 20 / (ln 10 * (2 * PI))) * ln 10 / 20
             * 1 * 2 * PI) with (ln (sqrt (1 - (1 / 2) ^ 2))) by (field; lra).
    symmetry; apply exp_ln; exact Hs.
  - reflexivity.
  - unfold self, ring_on; cbn [RingResonator.radius].
    replace (0 * 1 * 2 * PI) with 0 by ring. apply cos_0.
  - exact E.
Defined.

(** ** Circuits closed by sources *)

(** The equation of a source fixes the amplitude of its pin. *)
Lemma source_row (A : nat -> C) (i : nat) (p : Pin) (b : C) :
  equation_lhs A i (<[p := Scalar (RtoC 1)]> ∅) = b <-> A p = b.
Proof.
  unfold equation_lhs.
  rewrite map_fold_insert_L; cycle 1.
  { intros; apply equation_term_comm. }
  { apply lookup_empty. }
  rewrite map_fold_empty. cbn [coef_at].
  replace (Cadd (Cmul (RtoC 1) (A p)) (RtoC 0)) with (A p); [reflexivity|].
  destruct (A p); apply C_eq; simpl; ring.
Qed.

(** What [attach_source] returns on an existing pin. *)
Lemma attach_source_ok (k : CompositeStructure.t) (amplitude : C) (i : nat)
      (p : Pin) (n : nat) :
  Composite.pins k !! i = Some p ->
  attach_source k amplitude i n =
    (inr (CompositeStructure.append k (OfSource (Source.mk [p] amplitude 0))), n).
Proof.
  intros Hp. unfold attach_source, bind, lift, getitem. rewrite Hp. reflexivity.
Qed.

(** The four equations of a ring closed by a source on its first pin. *)
Lemma ring_with_source_equations (p0 p1 p2 p3 : Pin)
      (radius kap n_eff n_g D loss lam0 : R) (omegas : list R) (amplitude : C) :
  let dc := coupler_on [p0; p1; p2; p3] kap in
  field_equations (OfComposite (CompositeStructure.append
     (RingResonator.base (ring_on p0 p1 p2 p3 radius kap n_eff n_g D loss lam0 omegas))
     (OfSource (Source.mk [p0] amplitude 0)))) =
  inr [ <[p2 := Scalar (RtoC (-1))]>
          (<[p1 := Scalar (DirectionalCoupler.kappa dc)]>
             (<[p0 := Scalar (DirectionalCoupler.sigma dc)]> ∅));
        <[p3 := Scalar (RtoC (-1))]>
          (<[p1 := Scalar (conj (DirectionalCoupler.sigma dc))]>
             (<[p0 := Scalar (Copp (conj (DirectionalCoupler.kappa dc)))]> ∅));
        <[p1 := Scalar (RtoC 1)]>
          (<[p3 := Sweep (map (fun omega =>
                Copp (transfer_factor (2 * PI * radius) n_eff n_g D loss lam0 omega))
                omegas)]> ∅);
        <[p0 := Scalar (RtoC 1)]> ∅ ].
Proof.
  cbn zeta. unfold ring_on, CompositeStructure.append, CompositeStructure.set_structures.
  cbn [field_equations RingResonator.base Composite.structures app].
  unfold Waveguide.field_equations.
  cbn [Waveguide.pins Waveguide.loss_dB Waveguide.length getitem lookup list_lookup rbind].
  rewrite waveguide_coefficient.
  reflexivity.
Qed.

(** The through amplitude of a ring, from its four relations. *)
Lemma ring_through_algebra (r kap a phi : R) (s A0 A1 A2 A3 : C) :
  r * r + kap * kap = 1 ->
  A0 = s ->
  A2 = Cadd (Cmul (mkC r 0) A0) (Cmul (mkC 0 kap) A1) ->
  A3 = Cadd (Cmul (Copp (conj (mkC 0 kap))) A0) (Cmul (conj (mkC r 0)) A1) ->
  A1 = Cmul (mkC (a * cos phi) (a * sin phi)) A3 ->
  Cabs A2 ^ 2 * (1 + (r * a) ^ 2 - 2 * r * a * cos phi) =
  Cabs s ^ 2 * (r ^ 2 + a ^ 2 - 2 * r * a * cos phi).
Proof.
  intros N E0 E2 E3 E1. subst A0. rewrite !Cabs_sq.
  destruct s as [sr si], A1 as [x1 y1], A2 as [x2 y2], A3 as [x3 y3].
  unfold Cadd, Cmul, Copp, conj in *; cbn [re im] in *.
  injection E2 as E2x E2y. injection E3 as E3x E3y. injection E1 as E1x E1y.
  pose proof (cos2_sin2 phi) as Hcs.
  set (co := cos phi) in *. set (sn := sin phi) in *. clearbody co sn.
  subst x2 y2 x3 y3.
  assert (G1 : (r * sr - 0 * si + (0 * x1 - kap * y1)) * (1 - r * (a * co))
               - (r * si + 0 * sr + (0 * y1 + kap * x1)) * (- r * (a * sn))
               = sr * (r - a * co) + si * (a * sn)) by nsatz.
  assert (G2 : (r * sr - 0 * si + (0 * x1 - kap * y1)) * (- r * (a * sn))
               + (r * si + 0 * sr + (0 * y1 + kap * x1)) * (1 - r * (a * co))
               = - sr * (a * sn) + si * (r - a * co)) by nsatz.
  clear E1x E1y N.
  set (X := r * sr - 0 * si + (0 * x1 - kap * y1)) in *.
  set (Y := r * si + 0 * sr + (0 * y1 + kap * x1)) in *.
  clearbody X Y.
  assert (Hden : 1 + (r * a) ^ 2 - 2 * r * a * co =
                 (1 - r * (a * co)) * (1 - r * (a * co))
                 + (- r * (a * sn)) * (- r * (a * sn))).
  { transitivity (1 - 2 * r * a * co + r * r * (a * a) * (co * co + sn * sn));
      [rewrite Hcs; ring | ring]. }
  assert (Hnum : (sr * sr + si * si) * (r ^ 2 + a ^ 2 - 2 * r * a * co) =
                 (sr * (r - a * co) + si * (a * sn)) * (sr * (r - a * co) + si * (a * sn))
                 + (- sr * (a * sn) + si * (r - a * co))
                   * (- sr * (a * sn) + si * (r - a * co))).
  { transitivity ((sr * sr + si * si)
                  * (r * r - 2 * r * a * co + a * a * (co * co + sn * sn)));
      [rewrite Hcs; ring | ring]. }
  rewrite Hden, Hnum, <- G1, <- G2. ring.
Qed.

(** The transfer factor of the ring's waveguide, in the quantities of
    the theoretical curve. *)
Lemma ring_transfer_factor (radius n_eff n_g D loss lam0 omega : R) :
  transfer_factor (2 * PI * radius) n_eff n_g D loss lam0 omega =
  mkC (exp (- loss * ln 10 / 20 * radius * 2 * PI)
       * cos (taylor_wavevector n_eff n_g D lam0 omega * radius * 2 * PI))
      (exp (- loss * ln 10 / 20 * radius * 2 * PI)
       * sin (taylor_wavevector n_eff n_g D lam0 omega * radius * 2 * PI)).
Proof.
  rewrite transfer_factor_cartesian.
  replace (Rpower 10 (- (loss * (2 * PI * radius)) / 20))
    with (exp (- loss * ln 10 / 20 * radius * 2 * PI))
    by (unfold Rpower; f_equal; field).
  replace (taylor_wavevector n_eff n_g D lam0 omega * (2 * PI * radius))
    with (taylor_wavevector n_eff n_g D lam0 omega * radius * 2 * PI) by ring.
  reflexivity.
Qed.

(** The same four equations with the default-phase coefficients in
    Cartesian form. *)
Lemma ring_with_source_equations_cartesian (p0 p1 p2 p3 : Pin)
      (radius kap n_eff n_g D loss lam0 : R) (omegas : list R) (amplitude : C) :
  field_equations (OfComposite (CompositeStructure.append
     (RingResonator.base (ring_on p0 p1 p2 p3 radius kap n_eff n_g D loss lam0 omegas))
     (OfSource (Source.mk [p0] amplitude 0)))) =
  inr [ <[p2 := Scalar (RtoC (-1))]>
          (<[p1 := Scalar (mkC 0 kap)]>
             (<[p0 := Scalar (mkC (sqrt (1 - kap ^ 2)) 0)]> ∅));
        <[p3 := Scalar (RtoC (-1))]>
          (<[p1 := Scalar (conj (mkC (sqrt (1 - kap ^ 2)) 0))]>
             (<[p0 := Scalar (Copp (conj (mkC 0 kap)))]> ∅));
        <[p1 := Scalar (RtoC 1)]>
          (<[p3 := Sweep (map (fun omega =>
                Copp (transfer_factor (2 * PI * radius) n_eff n_g D loss lam0 omega))
                omegas)]> ∅);
        <[p0 := Scalar (RtoC 1)]> ∅ ].
Proof.
  pose proof (ring_with_source_equations p0 p1 p2 p3 radius kap n_eff n_g D
                loss lam0 omegas amplitude) as He.
  cbn zeta in He.
  destruct (default_phase_coefficients kap) as [Ek Es].
  change (DirectionalCoupler.kappa (coupler_on [p0; p1; p2; p3] kap))
    with (DirectionalCoupler.kappa (coupler_on [] kap)) in He.
  change (DirectionalCoupler.sigma (coupler_on [p0; p1; p2; p3] kap))
    with (DirectionalCoupler.sigma (coupler_on [] kap)) in He.
  rewrite Ek, Es in He. exact He.
Qed.

(** Amplitudes solve a ring closed by a source on its first pin, at a
    sample of frequency [omega], exactly when they satisfy the source,
    coupler and waveguide relations. *)
Lemma ring_with_source_system (p0 p1 p2 p3 : Pin)
      (radius kap n_eff n_g D loss lam0 : R) (omegas : list R) (amplitude : C)
      (A : nat -> C) (i : nat) (omega : R) :
  NoDup [p0; p1; p2; p3] ->
  omegas !! i = Some omega ->
  solves A i (OfComposite (CompositeStructure.append
     (RingResonator.base (ring_on p0 p1 p2 p3 radius kap n_eff n_g D loss lam0 omegas))
     (OfSource (Source.mk [p0] amplitude 0)))) <->
  (A p0 = amplitude /\
   A p2 = Cadd (Cmul (mkC (sqrt (1 - kap ^ 2)) 0) (A p0)) (Cmul (mkC 0 kap) (A p1)) /\
   A p3 = Cadd (Cmul (Copp (conj (mkC 0 kap))) (A p0))
               (Cmul (conj (mkC (sqrt (1 - kap ^ 2)) 0)) (A p1)) /\
   A p1 = Cmul (transfer_factor (2 * PI * radius) n_eff n_g D loss lam0 omega) (A p3)).
Proof.
  intros Hnd Hi.
  destruct (coupler_scattering p0 p1 p2 p3 (mkC 0 kap) (mkC (sqrt (1 - kap ^ 2)) 0)
              A i Hnd) as [R1 R2].
  assert (H31 : p3 <> p1).
  { pose proof Hnd as Hnd'.
    apply NoDup_cons in Hnd' as [_ Hnd']. apply NoDup_cons in Hnd' as [H1 _].
    repeat rewrite not_elem_of_cons in H1. destruct H1 as (_ & H13 & _).
    congruence. }
  assert (R3 : equation_lhs A i
                 (<[p1 := Scalar (RtoC 1)]>
                    (<[p3 := Sweep (map (fun omega =>
                          Copp (transfer_factor (2 * PI * radius) n_eff n_g D loss
                                  lam0 omega)) omegas)]> ∅)) = RtoC 0 <->
               A p1 = Cmul (transfer_factor (2 * PI * radius) n_eff n_g D loss
                              lam0 omega) (A p3)).
  { rewrite equation_lhs_two by exact H31. cbn [coef_at].
    erewrite nth_lookup_Some; [|rewrite list_lookup_fmap, Hi; reflexivity].
    apply transfer_row. }
  assert (Ho : ordinate_vector (OfComposite (CompositeStructure.append
                 (RingResonator.base
                    (ring_on p0 p1 p2 p3 radius kap n_eff n_g D loss lam0 omegas))
                 (OfSource (Source.mk [p0] amplitude 0)))) =
               [RtoC 0; RtoC 0; RtoC 0; amplitude]) by reflexivity.
  unfold solves. rewrite Ho, ring_with_source_equations_cartesian. split.
  - intros (eqs & He & HF). injection He as <-.
    apply Forall2_cons_1 in HF as [E1 HF].
    apply Forall2_cons_1 in HF as [E2 HF].
    apply Forall2_cons_1 in HF as [E3 HF].
    apply Forall2_cons_1 in HF as [E4 _].
    apply R1 in E1. apply R2 in E2. apply R3 in E3. apply source_row in E4. auto.
  - intros (E4 & E1 & E2 & E3). eexists. split; [reflexivity|].
    apply Forall2_cons; split; [apply R1; exact E1|].
    apply Forall2_cons; split; [apply R2; exact E2|].
    apply Forall2_cons; split; [apply R3; exact E3|].
    apply Forall2_cons; split; [apply source_row; exact E4|].
    constructor.
Qed.

(** X16.  The simulated and the theoretical curve of a ring agree.  For
    a ring returned by the constructor on four different pins and
    closed by a source on [pins[0]], with a cross-coupling magnitude
    between 0 and 1, a non-negative loss and radius, and a ring that
    couples or loses: amplitudes that satisfy all four field equations
    at a sample have, at the through pin [pins[2]], a squared modulus
    equal to the squared modulus of the source amplitude times the
    value of [teo_transmission] at that sample, the curve being taken
    on the wavevector of the ring's own waveguide. *)
Theorem ring_through_port_closed_form
    (radius kap n_eff n_g D loss lam0 : R) (omegas : list R)
    (pins : option (list Pin)) (n n' n'' : nat)
    (ring : RingResonator.t) (k : CompositeStructure.t) (amplitude : C) :
  0 <= kap <= 1 -> 0 <= loss -> 0 <= radius ->
  0 < kap \/ 0 < loss * radius ->
  RingResonator.init radius kap n_eff n_g D loss lam0 omegas pins n = (inr ring, n') ->
  NoDup (Composite.pins (RingResonator.base ring)) ->
  attach_source (RingResonator.base ring) amplitude 0 n' = (inr k, n'') ->
  exists p0 p1 p2 p3,
    Composite.pins (RingResonator.base ring) = [p0; p1; p2; p3] /\
    forall (A : nat -> C) (i : nat) (omega : R),
      omegas !! i = Some omega ->
      solves A i (OfComposite k) ->
      exists T,
        RingResonator.teo_transmission ring
          (map (taylor_wavevector n_eff n_g D lam0) omegas) !! i = Some T /\
        Cabs (A p2) ^ 2 = Cabs amplitude ^ 2 * T.
Proof.
  intros Hk Hl Hr Hor H Hnd Hs.
  apply RingResonator_init_inv in H as (_ & p0 & p1 & p2 & p3 & _ & ->).
  rewrite (attach_source_ok
             (RingResonator.base
                (ring_on p0 p1 p2 p3 radius kap n_eff n_g D loss lam0 omegas))
             amplitude 0 p0 n' eq_refl) in Hs.
  apply (f_equal fst) in Hs. cbn [fst] in Hs. injection Hs as Hs. subst k.
  exists p0, p1, p2, p3. split; [reflexivity|].
  intros A i omega Hi Hsol.
  apply (ring_with_source_system p0 p1 p2 p3 radius kap n_eff n_g D loss lam0
           omegas amplitude A i omega Hnd Hi) in Hsol as (E4 & E1 & E2 & E3).
  rewrite ring_transfer_factor in E3.
  destruct (sigma_range kap Hk) as (Hsr & Hsq & _).
  assert (Hnorm : sqrt (1 - kap ^ 2) * sqrt (1 - kap ^ 2) + kap * kap = 1).
  { rewrite <- Rsqr_pow2 in Hsq. unfold Rsqr in Hsq. rewrite Hsq. ring. }
  pose proof (ring_through_algebra _ kap _ _ amplitude _ _ _ _ Hnorm E4 E1 E2 E3)
    as Halg.
  assert (Ha : 0 < exp (- loss * ln 10 / 20 * radius * 2 * PI) <= 1).
  { replace (- loss * ln 10 / 20 * radius * 2 * PI)
      with (- loss * ln 10 / 20 * (radius * (2 * PI))) by ring.
    apply loss_factor_range; [exact Hl|]. pose proof PI_RGT_0. nra. }
  assert (Hra : sqrt (1 - kap ^ 2) * exp (- loss * ln 10 / 20 * radius * 2 * PI) < 1).
  { replace (- loss * ln 10 / 20 * radius * 2 * PI)
      with (- loss * ln 10 / 20 * (radius * (2 * PI))) by ring.
    apply sigma_loss_below_one; try assumption.
    - pose proof PI_RGT_0. nra.
    - destruct Hor as [Hp|Hp]; [left; exact Hp | right]. pose proof PI_RGT_0. nra. }
  destruct (ring_curve_range _ _
              (cos (taylor_wavevector n_eff n_g D lam0 omega * radius * 2 * PI))
              Hsr Ha Hra (COS_bound _)) as [Hden _].
  eexists. split.
  - unfold RingResonator.teo_transmission.
    rewrite !list_lookup_fmap, Hi. reflexivity.
  - cbn [RingResonator.cross_coupling_coefficient RingResonator.base
         RingResonator.radius ring_on Composite.loss_dB].
    apply (Rmult_eq_reg_r
             (1 + (sqrt (1 - kap ^ 2) * exp (- loss * ln 10 / 20 * radius * 2 * PI)) ^ 2
              - 2 * sqrt (1 - kap ^ 2) * exp (- loss * ln 10 / 20 * radius * 2 * PI)
                * cos (taylor_wavevector n_eff n_g D lam0 omega * radius * 2 * PI)));
      [|lra].
    rewrite Halg. field. lra.
Qed.

(** A lossless ring of zero radius that couples everything
    ([kappa = 1]), fed with amplitude 1: the amplitudes
    [1, i, -1, i] solve it. *)
Lemma ring_through_port_closed_form_witness :
  exists (ring : RingResonator.t) (k : CompositeStructure.t) (A : nat -> C) (T : R),
    0 <= 1 <= 1 /\
    RingResonator.init 0 1 1 1 0 0 1 [0] None 0%nat = (inr ring, 4%nat) /\
    NoDup (Composite.pins (RingResonator.base ring)) /\
    attach_source (RingResonator.base ring) (RtoC 1) 0 4%nat = (inr k, 4%nat) /\
    solves A 0 (OfComposite k) /\
    RingResonator.teo_transmission ring
      (map (taylor_wavevector 1 1 0 1) [0]) !! 0%nat = Some T /\
    Cabs (A 2%nat) ^ 2 = Cabs (RtoC 1) ^ 2 * T.
Proof.
  pose (A := fun p : nat =>
               match p with
               | 0%nat => RtoC 1
               | 1%nat => Ci
               | 2%nat => RtoC (-1)
               | 3%nat => Ci
               | _ => RtoC 0
               end).
  assert (H : RingResonator.init 0 1 1 1 0 0 1 [0] None 0%nat =
              (inr (ring_on 0 1 2 3 0 1 1 1 0 0 1 [0]), 4%nat)).
  { apply RingResonator_init_ok; [lra | reflexivity]. }
  assert (Hnd : NoDup (Composite.pins (RingResonator.base
                         (ring_on 0 1 2 3 0 1 1 1 0 0 1 [0]))))
    by exact (NoDup_seq 0 4).
  assert (Hs : attach_source (RingResonator.base (ring_on 0 1 2 3 0 1 1 1 0 0 1 [0]))
                 (RtoC 1) 0 4%nat =
               (inr (CompositeStructure.append
                       (RingResonator.base (ring_on 0 1 2 3 0 1 1 1 0 0 1 [0]))
                       (OfSource (Source.mk [0%nat] (RtoC 1) 0))), 4%nat)).
  { apply attach_source_ok; reflexivity. }
  assert (Hsol : solves A 0 (OfComposite (CompositeStructure.append
                    (RingResonator.base (ring_on 0 1 2 3 0 1 1 1 0 0 1 [0]))
                    (OfSource (Source.mk [0%nat] (RtoC 1) 0))))).
  { apply (ring_with_source_system 0 1 2 3 0 1 1 1 0 0 1 [0] (RtoC 1) A 0%nat 0
             (NoDup_seq 0 4) eq_refl).
    rewrite transfer_factor_cartesian.
    replace (- (0 * (2 * PI * 0)) / 20) with 0 by field.
    replace (taylor_wavevector 1 1 0 1 0 * (2 * PI * 0)) with 0 by ring.
    rewrite Rpower_10_0, cos_0, sin_0.
    replace (1 - 1 ^ 2) with 0 by ring. rewrite sqrt_0.
    unfold A, Cadd, Cmul, Copp, conj, Ci, RtoC; cbn [re im].
    repeat split; f_equal; ring. }
  destruct (ring_through_port_closed_form 0 1 1 1 0 0 1 [0] None 0 4 4 _ _ (RtoC 1)
              ltac:(lra) ltac:(lra) ltac:(lra) ltac:(left; lra) H Hnd Hs)
    as (p0 & p1 & p2 & p3 & Hp & Hmatch).
  cbn in Hp. injection Hp as <- <- <- <-.
  destruct (Hmatch A 0%nat 0 eq_refl Hsol) as (T & HT & HA).
  do 2 eexists; exists A, T.
  split; [lra|]. split; [exact H|]. split; [exact Hnd|]. split; [exact Hs|].
  split; [exact Hsol|]. split; [exact HT | exact HA].
Defined.

(** ** Add-drop filter closed by its two sources *)

(** The eight equations of a filter closed by a source on its first
    pin and a zero source on its fifth, as [add_drop_filter_debug]
    closes it. *)
Lemma filter_with_sources_equations (p0 p1 p2 p3 p4 p5 p6 p7 : Pin)
      (radius kap_in kap_aux n_eff n_g D loss lam0 : R) (omegas : list R)
      (amplitude : C) :
  field_equations (OfComposite (CompositeStructure.append
     (CompositeStructure.append
        (AddDropFilter.base (filter_on p0 p1 p2 p3 p4 p5 p6 p7
           radius kap_in kap_aux n_eff n_g D loss lam0 omegas))
        (OfSource (Source.mk [p0] amplitude 0)))
     (OfSource (Source.mk [p4] (RtoC 0) 0)))) =
  inr [ <[p2 := Scalar (RtoC (-1))]>
          (<[p1 := Scalar (mkC 0 kap_in)]>
             (<[p0 := Scalar (mkC (sqrt (1 - kap_in ^ 2)) 0)]> ∅));
        <[p3 := Scalar (RtoC (-1))]>
          (<[p1 := Scalar (conj (mkC (sqrt (1 - kap_in ^ 2)) 0))]>
             (<[p0 := Scalar (Copp (conj (mkC 0 kap_in)))]> ∅));
        <[p6 := Scalar (RtoC (-1))]>
          (<[p5 := Scalar (mkC 0 kap_aux)]>
             (<[p4 := Scalar (mkC (sqrt (1 - kap_aux ^ 2)) 0)]> ∅));
        <[p7 := Scalar (RtoC (-1))]>
          (<[p5 := Scalar (conj (mkC (sqrt (1 - kap_aux ^ 2)) 0))]>
             (<[p4 := Scalar (Copp (conj (mkC 0 kap_aux)))]> ∅));
        <[p5 := Scalar (RtoC 1)]>
          (<[p3 := Sweep (map (fun omega =>
                Copp (transfer_factor (radius * PI) n_eff n_g D loss lam0 omega))
                omegas)]> ∅);
        <[p1 := Scalar (RtoC 1)]>
          (<[p7 := Sweep (map (fun omega =>
                Copp (transfer_factor (radius * PI) n_eff n_g D loss lam0 omega))
                omegas)]> ∅);
        <[p0 := Scalar (RtoC 1)]> ∅;
        <[p4 := Scalar (RtoC 1)]> ∅ ].
Proof.
  destruct (default_phase_coefficients kap_in) as [Ek Es].
  destruct (default_phase_coefficients kap_aux) as [Ek' Es'].
  rewrite <- Ek, <- Es, <- Ek', <- Es'.
  unfold filter_on, CompositeStructure.append, CompositeStructure.set_structures.
  cbn [field_equations AddDropFilter.base Composite.structures app].
  unfold Waveguide.field_equations.
  cbn [Waveguide.pins Waveguide.loss_dB Waveguide.length getitem lookup list_lookup rbind].
  rewrite !waveguide_coefficient.
  reflexivity.
Qed.

(** Amplitudes solve the closed filter, at a sample of frequency
    [omega], exactly when they satisfy the two source values, the two
    scattering relations and the two waveguide relations. *)
Lemma filter_with_sources_system (p0 p1 p2 p3 p4 p5 p6 p7 : Pin)
      (radius kap_in kap_aux n_eff n_g D loss lam0 : R) (omegas : list R)
      (amplitude : C) (A : nat -> C) (i : nat) (omega : R) :
  NoDup [p0; p1; p2; p3; p4; p5; p6; p7] ->
  omegas !! i = Some omega ->
  solves A i (OfComposite (CompositeStructure.append
     (CompositeStructure.append
        (AddDropFilter.base (filter_on p0 p1 p2 p3 p4 p5 p6 p7
           radius kap_in kap_aux n_eff n_g D loss lam0 omegas))
        (OfSource (Source.mk [p0] amplitude 0)))
     (OfSource (Source.mk [p4] (RtoC 0) 0)))) <->
  (A p0 = amplitude /\
   A p4 = RtoC 0 /\
   A p2 = Cadd (Cmul (mkC (sqrt (1 - kap_in ^ 2)) 0) (A p0))
               (Cmul (mkC 0 kap_in) (A p1)) /\
   A p3 = Cadd (Cmul (Copp (conj (mkC 0 kap_in))) (A p0))
               (Cmul (conj (mkC (sqrt (1 - kap_in ^ 2)) 0)) (A p1)) /\
   A p6 = Cadd (Cmul (mkC (sqrt (1 - kap_aux ^ 2)) 0) (A p4))
               (Cmul (mkC 0 kap_aux) (A p5)) /\
   A p7 = Cadd (Cmul (Copp (conj (mkC 0 kap_aux))) (A p4))
               (Cmul (conj (mkC (sqrt (1 - kap_aux ^ 2)) 0)) (A p5)) /\
   A p5 = Cmul (transfer_factor (radius * PI) n_eff n_g D loss lam0 omega) (A p3) /\
   A p1 = Cmul (transfer_factor (radius * PI) n_eff n_g D loss lam0 omega) (A p7)).
Proof.
  intros Hnd Hi.
  change [p0; p1; p2; p3; p4; p5; p6; p7]
    with ([p0; p1; p2; p3] ++ [p4; p5; p6; p7]) in Hnd.
  apply NoDup_app in Hnd as (Hnd1 & Hdis & Hnd2).
  assert (H35 : p3 <> p5).
  { intros E. apply (Hdis p3); [set_solver | rewrite E; set_solver]. }
  assert (H71 : p7 <> p1).
  { intros E. apply (Hdis p1); [set_solver | rewrite <- E; set_solver]. }
  destruct (coupler_scattering p0 p1 p2 p3 (mkC 0 kap_in) (mkC (sqrt (1 - kap_in ^ 2)) 0)
              A i Hnd1) as [R1 R2].
  destruct (coupler_scattering p4 p5 p6 p7 (mkC 0 kap_aux)
              (mkC (sqrt (1 - kap_aux ^ 2)) 0) A i Hnd2) as [R3 R4].
  assert (R5 : forall pa pb : Pin, pa <> pb ->
               (equation_lhs A i
                  (<[pb := Scalar (RtoC 1)]>
                     (<[pa := Sweep (map (fun omega =>
                           Copp (transfer_factor (radius * PI) n_eff n_g D loss
                                   lam0 omega)) omegas)]> ∅)) = RtoC 0 <->
                A pb = Cmul (transfer_factor (radius * PI) n_eff n_g D loss
                               lam0 omega) (A pa))).
  { intros pa pb Hab. rewrite equation_lhs_two by exact Hab. cbn [coef_at].
    erewrite nth_lookup_Some; [|rewrite list_lookup_fmap, Hi; reflexivity].
    apply transfer_row. }
  assert (Ho : ordinate_vector (OfComposite (CompositeStructure.append
                 (CompositeStructure.append
                    (AddDropFilter.base (filter_on p0 p1 p2 p3 p4 p5 p6 p7
                       radius kap_in kap_aux n_eff n_g D loss lam0 omegas))
                    (OfSource (Source.mk [p0] amplitude 0)))
                 (OfSource (Source.mk [p4] (RtoC 0) 0)))) =
               [RtoC 0; RtoC 0; RtoC 0; RtoC 0; RtoC 0; RtoC 0; amplitude; RtoC 0])
    by reflexivity.
  unfold solves. rewrite Ho, filter_with_sources_equations. split.
  - intros (eqs & He & HF). injection He as <-.
    apply Forall2_cons_1 in HF as [E1 HF].
    apply Forall2_cons_1 in HF as [E2 HF].
    apply Forall2_cons_1 in HF as [E3 HF].
    apply Forall2_cons_1 in HF as [E4 HF].
    apply Forall2_cons_1 in HF as [E5 HF].
    apply Forall2_cons_1 in HF as [E6 HF].
    apply Forall2_cons_1 in HF as [E7 HF].
    apply Forall2_cons_1 in HF as [E8 _].
    apply R1 in E1. apply R2 in E2. apply R3 in E3. apply R4 in E4.
    apply (R5 p3 p5 H35) in E5. apply (R5 p7 p1 H71) in E6.
    apply source_row in E7. apply source_row in E8.
    repeat split; assumption.
  - intros (E7 & E8 & E1 & E2 & E3 & E4 & E5 & E6). eexists. split; [reflexivity|].
    apply Forall2_cons; split; [apply R1; exact E1|].
    apply Forall2_cons; split; [apply R2; exact E2|].
    apply Forall2_cons; split; [apply R3; exact E3|].
    apply Forall2_cons; split; [apply R4; exact E4|].
    apply Forall2_cons; split; [apply (R5 p3 p5 H35); exact E5|].
    apply Forall2_cons; split; [apply (R5 p7 p1 H71); exact E6|].
    apply Forall2_cons; split; [apply source_row; exact E7|].
    apply Forall2_cons; split; [apply source_row; exact E8|].
    constructor.
Qed.

(** The drop amplitude of the closed filter, from its relations; [h] is
    the transfer factor of half a round trip. *)
Lemma filter_drop_algebra (r1 k1 r2 k2 a theta : R) (s A0 A1 A3 A4 A5 A6 A7 : C) :
  A0 = s -> A4 = RtoC 0 ->
  A3 = Cadd (Cmul (Copp (conj (mkC 0 k1))) A0) (Cmul (conj (mkC r1 0)) A1) ->
  A6 = Cadd (Cmul (mkC r2 0) A4) (Cmul (mkC 0 k2) A5) ->
  A7 = Cadd (Cmul (Copp (conj (mkC 0 k2))) A4) (Cmul (conj (mkC r2 0)) A5) ->
  A5 = Cmul (mkC (a * cos theta) (a * sin theta)) A3 ->
  A1 = Cmul (mkC (a * cos theta) (a * sin theta)) A7 ->
  Cabs A6 ^ 2 * (1 + (r1 * r2 * (a * a)) ^ 2
                 - 2 * r1 * r2 * (a * a) * (cos theta * cos theta - sin theta * sin theta)) =
  Cabs s ^ 2 * (k1 * k2) ^ 2 * (a * a).
Proof.
  intros E0 E4 E3 E6 E7 E5 E1. subst A0 A4. rewrite !Cabs_sq.
  destruct s as [sr si], A1 as [x1 y1], A3 as [x3 y3], A5 as [x5 y5],
           A6 as [x6 y6], A7 as [x7 y7].
  unfold Cadd, Cmul, Copp, conj, RtoC in *; cbn [re im] in *.
  injection E3 as E3x E3y. injection E6 as E6x E6y. injection E7 as E7x E7y.
  injection E5 as E5x E5y. injection E1 as E1x E1y.
  pose proof (cos2_sin2 theta) as Hcs.
  set (co := cos theta) in *. set (sn := sin theta) in *. clearbody co sn.
  set (hr := a * co) in *. set (hi := a * sn) in *.
  assert (G : x6 * (1 - r1 * r2 * (hr * hr - hi * hi))
              - y6 * (- r1 * r2 * (2 * hr * hi))
              = - k1 * k2 * (hr * sr - hi * si) /\
              x6 * (- r1 * r2 * (2 * hr * hi))
              + y6 * (1 - r1 * r2 * (hr * hr - hi * hi))
              = - k1 * k2 * (hr * si + hi * sr)).
  { clear Hcs. clearbody hr hi.
    subst x3 y3 x6 y6 x7 y7 x1 y1. split; nsatz. }
  destruct G as [G1 G2].
  clear E3x E3y E6x E6y E7x E7y E5x E5y E1x E1y.
  assert (Hden : 1 + (r1 * r2 * (a * a)) ^ 2
                 - 2 * r1 * r2 * (a * a) * (co * co - sn * sn) =
                 (1 - r1 * r2 * (hr * hr - hi * hi)) * (1 - r1 * r2 * (hr * hr - hi * hi))
                 + (- r1 * r2 * (2 * hr * hi)) * (- r1 * r2 * (2 * hr * hi))).
  { unfold hr, hi.
    transitivity (1 - 2 * r1 * r2 * (a * a) * (co * co - sn * sn)
                  + (r1 * r2 * (a * a)) ^ 2 * ((co * co + sn * sn) * (co * co + sn * sn)));
      [rewrite Hcs; ring | ring]. }
  assert (Hnum : (sr * sr + si * si) * (k1 * k2) ^ 2 * (a * a) =
                 (- k1 * k2 * (hr * sr - hi * si)) * (- k1 * k2 * (hr * sr - hi * si))
                 + (- k1 * k2 * (hr * si + hi * sr)) * (- k1 * k2 * (hr * si + hi * sr))).
  { unfold hr, hi.
    transitivity ((sr * sr + si * si) * (k1 * k2) ^ 2 * (a * a * (co * co + sn * sn)));
      [rewrite Hcs; ring | ring]. }
  rewrite Hden, Hnum, <- G1, <- G2. ring.
Qed.

(** A product of magnitudes in [0, 1] stays below 1 when one of them
    does. *)
Lemma product_below_one (s1 s2 e : R) :
  0 <= s1 <= 1 -> 0 <= s2 <= 1 -> 0 < e <= 1 ->
  s1 < 1 \/ s2 < 1 \/ e < 1 ->
  0 <= s1 * s2 <= 1 /\ s1 * s2 * e < 1.
Proof.
  intros H1 H2 He Hor.
  assert (H12 : 0 <= s1 * s2) by (apply Rmult_le_pos; lra).
  assert (H12' : s1 * s2 <= 1).
  { assert (s1 * s2 <= 1 * 1) by (apply Rmult_le_compat; lra). lra. }
  split; [lra|].
  destruct Hor as [Hp|[Hp|Hp]].
  - assert (s1 * s2 <= s1 * 1) by (apply Rmult_le_compat_l; lra).
    assert (s1 * s2 * e <= s1 * s2 * 1) by (apply Rmult_le_compat_l; lra). lra.
  - assert (s1 * s2 <= 1 * s2) by (apply Rmult_le_compat_r; lra).
    assert (s1 * s2 * e <= s1 * s2 * 1) by (apply Rmult_le_compat_l; lra). lra.
  - assert (s1 * s2 * e <= 1 * e) by (apply Rmult_le_compat_r; lra). lra.
Qed.

(** The transfer factor of half a round trip, and its square in the
    quantities of the theoretical curve. *)
Lemma half_ring_transfer_factor (radius n_eff n_g D loss lam0 omega : R) :
  let a := exp (- loss * ln 10 / 20 * radius * PI) in
  let theta := taylor_wavevector n_eff n_g D lam0 omega * radius * PI in
  transfer_factor (radius * PI) n_eff n_g D loss lam0 omega =
    mkC (a * cos theta) (a * sin theta) /\
  a * a = exp (- loss * ln 10 / 20 * radius * 2 * PI) /\
  cos theta * cos theta - sin theta * sin theta =
    cos (taylor_wavevector n_eff n_g D lam0 omega * 2 * radius * PI).
Proof.
  cbn zeta. split; [|split].
  - rewrite transfer_factor_cartesian.
    replace (Rpower 10 (- (loss * (radius * PI)) / 20))
      with (exp (- loss * ln 10 / 20 * radius * PI))
      by (unfold Rpower; f_equal; field).
    replace (taylor_wavevector n_eff n_g D lam0 omega * (radius * PI))
      with (taylor_wavevector n_eff n_g D lam0 omega * radius * PI) by ring.
    reflexivity.
  - rewrite <- exp_plus. f_equal. field.
  - rewrite <- cos_2a. f_equal. ring.
Qed.

(** X17.  The simulated drop port of an add-drop filter is the
    theoretical curve of [plot_spectrum] times the round-trip loss
    factor.  For a filter returned by the constructor on eight
    different pins and closed as in [add_drop_filter_debug] (a source
    on [pins[0]], a zero source on [pins[4]]), with cross-coupling
    magnitudes between 0 and 1, a non-negative loss and radius, and a
    filter that couples or loses: amplitudes that satisfy all eight
    field equations at a sample have, at [pins[6]],
    [|A6|^2 = |amplitude|^2 * exp(-loss ln(10)/20 * radius * 2 pi) * T],
    where [T] is the value of [teo_transmission] at that sample, taken
    on the wavevector of the filter's own waveguides.  So the simulated
    value is at most [|amplitude|^2 * T], and equal to it when
    [loss * radius = 0]. *)
Theorem filter_drop_port_closed_form
    (radius kap_in kap_aux n_eff n_g D loss lam0 : R) (omegas : list R)
    (pins : option (list Pin)) (n n' n1 n2 : nat)
    (adf : AddDropFilter.t) (k1 k2 : CompositeStructure.t) (amplitude : C) :
  0 <= kap_in <= 1 -> 0 <= kap_aux <= 1 -> 0 <= loss -> 0 <= radius ->
  0 < kap_in \/ 0 < kap_aux \/ 0 < loss * radius ->
  AddDropFilter.init radius kap_in kap_aux n_eff n_g D loss lam0 omegas pins n =
    (inr adf, n') ->
  NoDup (Composite.pins (AddDropFilter.base adf)) ->
  attach_source (AddDropFilter.base adf) amplitude 0 n' = (inr k1, n1) ->
  attach_source k1 (RtoC 0) 4 n1 = (inr k2, n2) ->
  exists p0 p1 p2 p3 p4 p5 p6 p7,
    Composite.pins (AddDropFilter.base adf) = [p0; p1; p2; p3; p4; p5; p6; p7] /\
    forall (A : nat -> C) (i : nat) (omega : R),
      omegas !! i = Some omega ->
      solves A i (OfComposite k2) ->
      exists T,
        AddDropFilter.teo_transmission adf
          (map (taylor_wavevector n_eff n_g D lam0) omegas) !! i = Some T /\
        Cabs (A p6) ^ 2 =
          Cabs amplitude ^ 2 * exp (- loss * ln 10 / 20 * radius * 2 * PI) * T /\
        Cabs (A p6) ^ 2 <= Cabs amplitude ^ 2 * T /\
        (loss * radius = 0 -> Cabs (A p6) ^ 2 = Cabs amplitude ^ 2 * T).
Proof.
  intros Hki Hka Hl Hr Hor H Hnd Hs1 Hs2.
  apply AddDropFilter_init_inv in H
    as (_ & p0 & p1 & p2 & p3 & p4 & p5 & p6 & p7 & _ & ->).
  assert (Ek1 : k1 = CompositeStructure.append
                      (AddDropFilter.base (filter_on p0 p1 p2 p3 p4 p5 p6 p7
                         radius kap_in kap_aux n_eff n_g D loss lam0 omegas))
                      (OfSource (Source.mk [p0] amplitude 0))).
  { pose proof (eq_trans (eq_sym Hs1)
                  (attach_source_ok
                     (AddDropFilter.base (filter_on p0 p1 p2 p3 p4 p5 p6 p7
                        radius kap_in kap_aux n_eff n_g D loss lam0 omegas))
                     amplitude 0 p0 n' eq_refl)) as E.
    congruence. }
  subst k1.
  assert (Ek2 : k2 = CompositeStructure.append
                      (CompositeStructure.append
                         (AddDropFilter.base (filter_on p0 p1 p2 p3 p4 p5 p6 p7
                            radius kap_in kap_aux n_eff n_g D loss lam0 omegas))
                         (OfSource (Source.mk [p0] amplitude 0)))
                      (OfSource (Source.mk [p4] (RtoC 0) 0))).
  { pose proof (eq_trans (eq_sym Hs2)
                  (attach_source_ok
                     (CompositeStructure.append
                        (AddDropFilter.base (filter_on p0 p1 p2 p3 p4 p5 p6 p7
                           radius kap_in kap_aux n_eff n_g D loss lam0 omegas))
                        (OfSource (Source.mk [p0] amplitude 0)))
                     (RtoC 0) 4 p4 n1 eq_refl)) as E.
    congruence. }
  subst k2. clear Hs1 Hs2.
  exists p0, p1, p2, p3, p4, p5, p6, p7. split; [reflexivity|].
  intros A i omega Hi Hsol.
  apply (filter_with_sources_system p0 p1 p2 p3 p4 p5 p6 p7 radius kap_in kap_aux
           n_eff n_g D loss lam0 omegas amplitude A i omega Hnd Hi) in Hsol
    as (E0 & E4 & _ & E3 & E6 & E7 & E5 & E1).
  destruct (half_ring_transfer_factor radius n_eff n_g D loss lam0 omega)
    as (Eh & Eaa & Ecos).
  cbn zeta in Eh, Eaa, Ecos.
  rewrite Eh in E5, E1.
  pose proof (filter_drop_algebra _ kap_in _ kap_aux _ _ amplitude _ _ _ _ _ _ _
                E0 E4 E3 E6 E7 E5 E1) as Halg.
  rewrite Eaa, Ecos in Halg.
  destruct (sigma_range kap_in Hki) as (Hs1 & _ & Hlt1).
  destruct (sigma_range kap_aux Hka) as (Hs2 & _ & Hlt2).
  assert (Ha : 0 < exp (- loss * ln 10 / 20 * radius * 2 * PI) <= 1).
  { replace (- loss * ln 10 / 20 * radius * 2 * PI)
      with (- loss * ln 10 / 20 * (radius * (2 * PI))) by ring.
    apply loss_factor_range; [exact Hl|]. pose proof PI_RGT_0. nra. }
  destruct (product_below_one (sqrt (1 - kap_in ^ 2)) (sqrt (1 - kap_aux ^ 2))
              (exp (- loss * ln 10 / 20 * radius * 2 * PI)) Hs1 Hs2 Ha)
    as [Hs12 Hlt].
  { destruct Hor as [Hp|[Hp|Hp]].
    - left; apply Hlt1, Hp.
    - right; left; apply Hlt2, Hp.
    - right; right.
      replace (- loss * ln 10 / 20 * radius * 2 * PI)
        with (- loss * ln 10 / 20 * (radius * (2 * PI))) by ring.
      apply loss_factor_strict. pose proof PI_RGT_0. nra. }
  destruct (ring_curve_range _ _
              (cos (taylor_wavevector n_eff n_g D lam0 omega * 2 * radius * PI))
              Hs12 Ha Hlt (COS_bound _)) as [Hden _].
  set (den := 1 + (sqrt (1 - kap_in ^ 2) * sqrt (1 - kap_aux ^ 2)
                   * exp (- loss * ln 10 / 20 * radius * 2 * PI)) ^ 2
              - 2 * sqrt (1 - kap_in ^ 2) * sqrt (1 - kap_aux ^ 2)
                * exp (- loss * ln 10 / 20 * radius * 2 * PI)
                * cos (taylor_wavevector n_eff n_g D lam0 omega * 2 * radius * PI)).
  assert (Hden' : 0 < den) by (unfold den; lra).
  assert (Hmain : Cabs (A p6) ^ 2 =
                  Cabs amplitude ^ 2 * exp (- loss * ln 10 / 20 * radius * 2 * PI)
                  * ((kap_in * kap_aux) ^ 2 / den)).
  { apply (Rmult_eq_reg_r den); [|lra].
    unfold den at 1. rewrite Halg. field. lra. }
  assert (HT0 : 0 <= Cabs amplitude ^ 2 * ((kap_in * kap_aux) ^ 2 / den)).
  { apply Rmult_le_pos; [apply pow2_ge_0|].
    apply Rmult_le_pos; [apply pow2_ge_0|].
    left; apply Rinv_0_lt_compat, Hden'. }
  exists ((kap_in * kap_aux) ^ 2 / den). split; [|split; [exact Hmain|split]].
  - unfold AddDropFilter.teo_transmission.
    rewrite !list_lookup_fmap, Hi. reflexivity.
  - rewrite Hmain.
    replace (Cabs amplitude ^ 2 * exp (- loss * ln 10 / 20 * radius * 2 * PI)
             * ((kap_in * kap_aux) ^ 2 / den))
      with (Cabs amplitude ^ 2 * ((kap_in * kap_aux) ^ 2 / den)
            * exp (- loss * ln 10 / 20 * radius * 2 * PI)) by ring.
    rewrite <- (Rmult_1_r (Cabs amplitude ^ 2 * ((kap_in * kap_aux) ^ 2 / den))) at 2.
    apply Rmult_le_compat_l; [exact HT0 | apply Ha].
  - intros Hz. rewrite Hmain.
    replace (- loss * ln 10 / 20 * radius * 2 * PI)
      with (- (loss * radius) * ln 10 / 20 * 2 * PI) by field.
    rewrite Hz.
    replace (- 0 * ln 10 / 20 * 2 * PI) with 0 by field.
    rewrite exp_0. ring.
Qed.

(** A lossless filter of zero radius whose two couplers cross
    everything, fed with amplitude 1: the amplitudes
    [1, 0, 0, i, 0, i, -1, 0] solve it. *)
Lemma filter_drop_port_closed_form_witness :
  exists (adf : AddDropFilter.t) (k1 k2 : CompositeStructure.t)
         (A : nat -> C) (T : R),
    0 <= 1 <= 1 /\
    AddDropFilter.init 0 1 1 1 1 0 0 1 [0] None 0%nat = (inr adf, 8%nat) /\
    NoDup (Composite.pins (AddDropFilter.base adf)) /\
    attach_source (AddDropFilter.base adf) (RtoC 1) 0 8%nat = (inr k1, 8%nat) /\
    attach_source k1 (RtoC 0) 4 8%nat = (inr k2, 8%nat) /\
    solves A 0 (OfComposite k2) /\
    AddDropFilter.teo_transmission adf
      (map (taylor_wavevector 1 1 0 1) [0]) !! 0%nat = Some T /\
    Cabs (A 6%nat) ^ 2 = Cabs (RtoC 1) ^ 2 * exp (- 0 * ln 10 / 20 * 0 * 2 * PI) * T /\
    Cabs (A 6%nat) ^ 2 = Cabs (RtoC 1) ^ 2 * T.
Proof.
  pose (A := fun p : nat =>
               match p with
               | 0%nat => RtoC 1
               | 3%nat => Ci
               | 5%nat => Ci
               | 6%nat => RtoC (-1)
               | _ => RtoC 0
               end).
  pose (built := filter_on 0 1 2 3 4 5 6 7 0 1 1 1 1 0 0 1 [0]).
  pose (c1 := CompositeStructure.append (AddDropFilter.base built)
                (OfSource (Source.mk [0%nat] (RtoC 1) 0))).
  pose (c2 := CompositeStructure.append c1 (OfSource (Source.mk [4%nat] (RtoC 0) 0))).
  assert (H : AddDropFilter.init 0 1 1 1 1 0 0 1 [0] None 0%nat = (inr built, 8%nat)).
  { apply AddDropFilter_init_ok; [lra | reflexivity]. }
  assert (Hnd : NoDup (Composite.pins (AddDropFilter.base built)))
    by exact (NoDup_seq 0 8).
  assert (Hs1 : attach_source (AddDropFilter.base built) (RtoC 1) 0 8%nat =
                (inr c1, 8%nat)).
  { apply attach_source_ok; reflexivity. }
  assert (Hs2 : attach_source c1 (RtoC 0) 4 8%nat = (inr c2, 8%nat)).
  { apply attach_source_ok; reflexivity. }
  assert (Hsol : solves A 0 (OfComposite c2)).
  { apply (filter_with_sources_system 0 1 2 3 4 5 6 7 0 1 1 1 1 0 0 1 [0] (RtoC 1)
             A 0%nat 0 (NoDup_seq 0 8) eq_refl).
    rewrite transfer_factor_cartesian.
    replace (- (0 * (0 * PI)) / 20) with 0 by field.
    replace (taylor_wavevector 1 1 0 1 0 * (0 * PI)) with 0 by ring.
    rewrite Rpower_10_0, cos_0, sin_0.
    replace (1 - 1 ^ 2) with 0 by ring. rewrite sqrt_0.
    unfold A, Cadd, Cmul, Copp, conj, Ci, RtoC; cbn [re im].
    repeat split; f_equal; ring. }
  destruct (filter_drop_port_closed_form 0 1 1 1 1 0 0 1 [0] None 0 8 8 8
              built c1 c2 (RtoC 1)
              ltac:(lra) ltac:(lra) ltac:(lra) ltac:(lra) ltac:(left; lra)
              H Hnd Hs1 Hs2)
    as (p0 & p1 & p2 & p3 & p4 & p5 & p6 & p7 & Hp & Hmatch).
  cbn in Hp. injection Hp as <- <- <- <- <- <- <- <-.
  destruct (Hmatch A 0%nat 0 eq_refl Hsol) as (T & HT & HA & _ & HA0).
  exists built, c1, c2, A, T.
  split; [lra|]. split; [exact H|]. split; [exact Hnd|]. split; [exact Hs1|].
  split; [exact Hs2|]. split; [exact Hsol|]. split; [exact HT|].
  split; [exact HA | apply HA0; lra].
Defined.

(** ** Add-drop filter: derived series, errors and bounds *)



(** ** Circuits closed by sources are square *)

(** The only error of the sweep of solves is the numerical one. *)
Lemma solve_sweep_exn (solve : list (list C) -> list C -> option (list C))
      (eqs : list (gmap nat coef)) (b : list C) (n : nat) (samples : list nat) (e : exn) :
  solve_sweep solve eqs b n samples = inl e -> e = NumericalSolveError.
Proof.
  revert e; induction samples as [|i rest IH]; intros e; cbn [solve_sweep].
  - discriminate.
  - destruct (solve (coefficient_matrix eqs n i) b) as [x|].
    + destruct (solve_sweep solve eqs b n rest) as [e'|xs]; cbn [rbind].
      * intros H; injection H as <-. apply IH; reflexivity.
      * discriminate.
    + intros H; injection H as <-; reflexivity.
Qed.

(** A composite with as many equations as distinct pins passes the
    validation of [fields]. *)
Lemma fields_square (solve : list (list C) -> list C -> option (list C))
      (k : CompositeStructure.t) (eqs : list (gmap nat coef)) :
  field_equations (OfComposite k) = inr eqs ->
  length eqs = size (all_pins (OfComposite k)) ->
  fields solve k <> inl StructuralValidationError.
Proof.
  intros He Hl. unfold fields. rewrite He; cbn [rbind]. rewrite Hl, Nat.eqb_refl.
  destruct (solve_sweep solve eqs (ordinate_vector (OfComposite k))
              (size (all_pins (OfComposite k)))
              (seq 0 (length (Composite.angular_frequencies k)))) as [e|xs] eqn:E;
    cbn [rbind]; [|discriminate].
  apply solve_sweep_exn in E as ->. discriminate.
Qed.

Lemma ring_with_source_all_pins (p0 p1 p2 p3 : Pin)
      (radius kap n_eff n_g D loss lam0 : R) (omegas : list R) (amplitude : C) :
  all_pins (OfComposite (CompositeStructure.append
     (RingResonator.base (ring_on p0 p1 p2 p3 radius kap n_eff n_g D loss lam0 omegas))
     (OfSource (Source.mk [p0] amplitude 0)))) =
  list_to_set [p0; p1; p2; p3].
Proof.
  unfold ring_on, coupler_on, CompositeStructure.append,
         CompositeStructure.set_structures.
  cbn [all_pins RingResonator.base Composite.pins Composite.structures
       DirectionalCoupler.pins Waveguide.pins Source.pins app].
  apply set_eq; intros x.
  rewrite !elem_of_union, !elem_of_list_to_set, !elem_of_cons, elem_of_empty.
  rewrite !elem_of_nil. tauto.
Qed.

Lemma filter_with_sources_all_pins (p0 p1 p2 p3 p4 p5 p6 p7 : Pin)
      (radius kap_in kap_aux n_eff n_g D loss lam0 : R) (omegas : list R)
      (amplitude : C) :
  all_pins (OfComposite (CompositeStructure.append
     (CompositeStructure.append
        (AddDropFilter.base (filter_on p0 p1 p2 p3 p4 p5 p6 p7
           radius kap_in kap_aux n_eff n_g D loss lam0 omegas))
        (OfSource (Source.mk [p0] amplitude 0)))
     (OfSource (Source.mk [p4] (RtoC 0) 0)))) =
  list_to_set [p0; p1; p2; p3; p4; p5; p6; p7].
Proof.
  unfold filter_on, coupler_on, CompositeStructure.append,
         CompositeStructure.set_structures.
  cbn [all_pins AddDropFilter.base Composite.pins Composite.structures
       DirectionalCoupler.pins Waveguide.pins Source.pins app].
  apply set_eq; intros x.
  rewrite !elem_of_union, !elem_of_list_to_set, !elem_of_cons, elem_of_empty.
  rewrite !elem_of_nil. tauto.
Qed.

(** X19.  Closing a circuit as [ring_degub] and [add_drop_filter_debug]
    do makes it square.  A ring on four different pins with a source
    attached to [pins[0]] has four equations for four distinct pins; a
    filter on eight different pins with sources attached to [pins[0]]
    and [pins[4]] has eight for eight.  Attaching a source takes no pin
    from the counter, and [fields] does not raise the
    structural-validation error on either circuit. *)
Theorem closed_circuits_square :
  (forall (radius kap n_eff n_g D loss lam0 : R) (omegas : list R)
          (pins : option (list Pin)) (n n' n'' : nat)
          (ring : RingResonator.t) (k : CompositeStructure.t) (amplitude : C),
      RingResonator.init radius kap n_eff n_g D loss lam0 omegas pins n =
        (inr ring, n') ->
      NoDup (Composite.pins (RingResonator.base ring)) ->
      attach_source (RingResonator.base ring) amplitude 0 n' = (inr k, n'') ->
      n'' = n' /\
      exists eqs,
        field_equations (OfComposite k) = inr eqs /\
        length eqs = 4%nat /\
        size (all_pins (OfComposite k)) = 4%nat /\
        ordinate_vector (OfComposite k) = [RtoC 0; RtoC 0; RtoC 0; amplitude] /\
        forall solve, fields solve k <> inl StructuralValidationError) /\
  (forall (radius kap_in kap_aux n_eff n_g D loss lam0 : R) (omegas : list R)
          (pins : option (list Pin)) (n n' n1 n2 : nat)
          (adf : AddDropFilter.t) (k1 k2 : CompositeStructure.t) (amplitude : C),
      AddDropFilter.init radius kap_in kap_aux n_eff n_g D loss lam0 omegas pins n =
        (inr adf, n') ->
      NoDup (Composite.pins (AddDropFilter.base adf)) ->
      attach_source (AddDropFilter.base adf) amplitude 0 n' = (inr k1, n1) ->
      attach_source k1 (RtoC 0) 4 n1 = (inr k2, n2) ->
      n2 = n' /\
      exists eqs,
        field_equations (OfComposite k2) = inr eqs /\
        length eqs = 8%nat /\
        size (all_pins (OfComposite k2)) = 8%nat /\
        ordinate_vector (OfComposite k2) =
          [RtoC 0; RtoC 0; RtoC 0; RtoC 0; RtoC 0; RtoC 0; amplitude; RtoC 0] /\
        forall solve, fields solve k2 <> inl StructuralValidationError).
Proof.
  split.
  - intros * H Hnd Hs.
    apply RingResonator_init_inv in H as (_ & p0 & p1 & p2 & p3 & _ & ->).
    pose proof (eq_trans (eq_sym Hs)
                  (attach_source_ok
                     (RingResonator.base
                        (ring_on p0 p1 p2 p3 radius kap n_eff n_g D loss lam0 omegas))
                     amplitude 0 p0 n' eq_refl)) as E.
    assert (Ek : k = CompositeStructure.append
                       (RingResonator.base
                          (ring_on p0 p1 p2 p3 radius kap n_eff n_g D loss lam0 omegas))
                       (OfSource (Source.mk [p0] amplitude 0))) by congruence.
    assert (En : n'' = n') by congruence.
    subst k. split; [exact En|].
    assert (Hsize : size (all_pins (OfComposite (CompositeStructure.append
                       (RingResonator.base
                          (ring_on p0 p1 p2 p3 radius kap n_eff n_g D loss lam0 omegas))
                       (OfSource (Source.mk [p0] amplitude 0))))) = 4%nat).
    { rewrite ring_with_source_all_pins, size_list_to_set; [reflexivity | exact Hnd]. }
    eexists. split; [apply ring_with_source_equations_cartesian|].
    split; [reflexivity|]. split; [exact Hsize|]. split; [reflexivity|].
    intros solve. eapply fields_square; [apply ring_with_source_equations_cartesian|].
    rewrite Hsize. reflexivity.
  - intros * H Hnd Hs1 Hs2.
    apply AddDropFilter_init_inv in H
      as (_ & p0 & p1 & p2 & p3 & p4 & p5 & p6 & p7 & _ & ->).
    pose proof (eq_trans (eq_sym Hs1)
                  (attach_source_ok
                     (AddDropFilter.base (filter_on p0 p1 p2 p3 p4 p5 p6 p7
                        radius kap_in kap_aux n_eff n_g D loss lam0 omegas))
                     amplitude 0 p0 n' eq_refl)) as E1.
    assert (Ek1 : k1 = CompositeStructure.append
                        (AddDropFilter.base (filter_on p0 p1 p2 p3 p4 p5 p6 p7
                           radius kap_in kap_aux n_eff n_g D loss lam0 omegas))
                        (OfSource (Source.mk [p0] amplitude 0))) by congruence.
    assert (En1 : n1 = n') by congruence.
    subst k1.
    pose proof (eq_trans (eq_sym Hs2)
                  (attach_source_ok
                     (CompositeStructure.append
                        (AddDropFilter.base (filter_on p0 p1 p2 p3 p4 p5 p6 p7
                           radius kap_in kap_aux n_eff n_g D loss lam0 omegas))
                        (OfSource (Source.mk [p0] amplitude 0)))
                     (RtoC 0) 4 p4 n1 eq_refl)) as E2.
    assert (Ek2 : k2 = CompositeStructure.append
                        (CompositeStructure.append
                           (AddDropFilter.base (filter_on p0 p1 p2 p3 p4 p5 p6 p7
                              radius kap_in kap_aux n_eff n_g D loss lam0 omegas))
                           (OfSource (Source.mk [p0] amplitude 0)))
                        (OfSource (Source.mk [p4] (RtoC 0) 0))) by congruence.
    assert (En2 : n2 = n1) by congruence.
    subst k2. split; [congruence|].
    assert (Hsize : size (all_pins (OfComposite (CompositeStructure.append
                       (CompositeStructure.append
                          (AddDropFilter.base (filter_on p0 p1 p2 p3 p4 p5 p6 p7
                             radius kap_in kap_aux n_eff n_g D loss lam0 omegas))
                          (OfSource (Source.mk [p0] amplitude 0)))
                       (OfSource (Source.mk [p4] (RtoC 0) 0))))) = 8%nat).
    { rewrite filter_with_sources_all_pins, size_list_to_set; [reflexivity | exact Hnd]. }
    eexists. split; [apply filter_with_sources_equations|].
    split; [reflexivity|]. split; [exact Hsize|]. split; [reflexivity|].
    intros solve. eapply fields_square; [apply filter_with_sources_equations|].
    rewrite Hsize. reflexivity.
Qed.

(** The ring of the first witness of closure and a filter, both built
    first after a reset of the counter. *)
Lemma closed_circuits_square_witness :
  (exists ring k eqs,
     RingResonator.init 1 (1 / 2) 1 1 0 0 1 [0] None 0%nat = (inr ring, 4%nat) /\
     attach_source (RingResonator.base ring) (RtoC 1) 0 4%nat = (inr k, 4%nat) /\
     field_equations (OfComposite k) = inr eqs /\ length eqs = 4%nat /\
     size (all_pins (OfComposite k)) = 4%nat) /\
  (exists adf k1 k2 eqs,
     AddDropFilter.init 1 (1 / 2) (1 / 2) 1 1 0 0 1 [0] None 0%nat = (inr adf, 8%nat) /\
     attach_source (AddDropFilter.base adf) (RtoC 1) 0 8%nat = (inr k1, 8%nat) /\
     attach_source k1 (RtoC 0) 4 8%nat = (inr k2, 8%nat) /\
     field_equations (OfComposite k2) = inr eqs /\ length eqs = 8%nat /\
     size (all_pins (OfComposite k2)) = 8%nat).
Proof.
  destruct closed_circuits_square as [Hring Hadf].
  split.
  - pose (built := ring_on 0 1 2 3 1 (1 / 2) 1 1 0 0 1 [0]).
    assert (H : RingResonator.init 1 (1 / 2) 1 1 0 0 1 [0] None 0%nat =
                (inr built, 4%nat)).
    { apply RingResonator_init_ok; [lra | reflexivity]. }
    assert (Hs : attach_source (RingResonator.base built) (RtoC 1) 0 4%nat =
                 (inr (CompositeStructure.append (RingResonator.base built)
                         (OfSource (Source.mk [0%nat] (RtoC 1) 0))), 4%nat)).
    { apply attach_source_ok; reflexivity. }
    destruct (Hring _ _ _ _ _ _ _ _ _ _ _ _ _ _ _ H (NoDup_seq 0 4) Hs)
      as (_ & eqs & He & Hl & Hsz & _).
    exists built; eexists; exists eqs.
    split; [exact H|]. split; [exact Hs|]. split; [exact He|].
    split; [exact Hl | exact Hsz].
  - pose (built := filter_on 0 1 2 3 4 5 6 7 1 (1 / 2) (1 / 2) 1 1 0 0 1 [0]).
    pose (c1 := CompositeStructure.append (AddDropFilter.base built)
                  (OfSource (Source.mk [0%nat] (RtoC 1) 0))).
    assert (H : AddDropFilter.init 1 (1 / 2) (1 / 2) 1 1 0 0 1 [0] None 0%nat =
                (inr built, 8%nat)).
    { apply AddDropFilter_init_ok; [lra | reflexivity]. }
    assert (Hs1 : attach_source (AddDropFilter.base built) (RtoC 1) 0 8%nat =
                  (inr c1, 8%nat)).
    { apply attach_source_ok; reflexivity. }
    assert (Hs2 : attach_source c1 (RtoC 0) 4 8%nat =
                  (inr (CompositeStructure.append c1
                          (OfSource (Source.mk [4%nat] (RtoC 0) 0))), 8%nat)).
    { apply attach_source_ok; reflexivity. }
    destruct (Hadf _ _ _ _ _ _ _ _ _ _ _ _ _ _ _ _ _ _ H (NoDup_seq 0 8) Hs1 Hs2)
      as (_ & eqs & He & Hl & Hsz & _).
    exists built, c1; eexists; exists eqs.
    split; [exact H|]. split; [exact Hs1|]. split; [exact Hs2|].
    split; [exact He|]. split; [exact Hl | exact Hsz].
Defined.

(** The drop quotient lies in [0, 1]. *)
Lemma drop_curve_range (k1 k2 s1 s2 a co : R) :
  0 <= k1 -> 0 <= k2 ->
  0 <= s1 <= 1 -> 0 <= s2 <= 1 ->
  s1 * s1 = 1 - k1 * k1 -> s2 * s2 = 1 - k2 * k2 ->
  0 < a <= 1 -> s1 * s2 * a < 1 -> -1 <= co <= 1 ->
  0 <= (k1 * k2) ^ 2 / (1 + (s1 * s2 * a) ^ 2 - 2 * s1 * s2 * a * co) <= 1.
Proof.
  intros Hk1 Hk2 Hs1 Hs2 E1 E2 Ha Hlt Hc.
  assert (Hs12 : 0 <= s1 * s2) by (apply Rmult_le_pos; lra).
  assert (Hs12' : s1 * s2 <= 1).
  { assert (s1 * s2 <= 1 * 1) by (apply Rmult_le_compat; lra). lra. }
  destruct (ring_curve_range (s1 * s2) a co ltac:(lra) Ha Hlt Hc) as [Hden _].
  assert (Hden' : 0 < 1 + (s1 * s2 * a) ^ 2 - 2 * s1 * s2 * a * co).
  { replace (2 * s1 * s2 * a * co) with (2 * (s1 * s2) * a * co) by ring. exact Hden. }
  assert (Hk12 : 0 <= k1 * k2) by (apply Rmult_le_pos; lra).
  assert (Hsum : k1 * k2 + s1 * s2 <= 1).
  { pose proof (Rle_0_sqr (k1 - k2)) as Q1. pose proof (Rle_0_sqr (s1 - s2)) as Q2.
    unfold Rsqr in Q1, Q2. nra. }
  assert (Hsa : s1 * s2 * a <= s1 * s2).
  { assert (s1 * s2 * a <= s1 * s2 * 1) by (apply Rmult_le_compat_l; lra). lra. }
  assert (Hgap : k1 * k2 <= 1 - s1 * s2 * a) by lra.
  assert (Hsq : (k1 * k2) ^ 2 <= (1 - s1 * s2 * a) * (1 - s1 * s2 * a)).
  { simpl. rewrite Rmult_1_r. apply Rmult_le_compat; lra. }
  assert (Hcross : 0 <= 2 * (s1 * s2 * a) * (1 - co)).
  { apply Rmult_le_pos; [|lra].
    assert (0 <= s1 * s2 * a) by (apply Rmult_le_pos; lra). lra. }
  assert (Hle : (k1 * k2) ^ 2 <= 1 + (s1 * s2 * a) ^ 2 - 2 * s1 * s2 * a * co).
  { replace (1 + (s1 * s2 * a) ^ 2 - 2 * s1 * s2 * a * co)
      with ((1 - s1 * s2 * a) * (1 - s1 * s2 * a) + 2 * (s1 * s2 * a) * (1 - co))
      by ring.
    lra. }
  split.
  - apply Rmult_le_pos; [apply pow2_ge_0 | left; apply Rinv_0_lt_compat; exact Hden'].
  - apply (Rmult_le_reg_r (1 + (s1 * s2 * a) ^ 2 - 2 * s1 * s2 * a * co));
      [exact Hden'|].
    unfold Rdiv. rewrite Rmult_assoc, Rinv_l by lra. lra.
Qed.

(** X20.  The theoretical drop transmission of a filter is a fraction of
    the input power: for cross-coupling magnitudes between 0 and 1, a
    non-negative loss and radius, and a filter that couples or loses,
    every value of the curve lies between 0 and 1, and there is one
    value per wavevector sample. *)
Theorem filter_teo_transmission_range (self : AddDropFilter.t) (wavevector : list R) :
  0 <= AddDropFilter.input_cross_coupling_coefficient self <= 1 ->
  0 <= AddDropFilter.auxiliary_cross_coupling_coefficient self <= 1 ->
  0 <= Composite.loss_dB (AddDropFilter.base self) ->
  0 <= AddDropFilter.radius self ->
  0 < AddDropFilter.input_cross_coupling_coefficient self \/
  0 < AddDropFilter.auxiliary_cross_coupling_coefficient self \/
  0 < Composite.loss_dB (AddDropFilter.base self) * AddDropFilter.radius self ->
  length (AddDropFilter.teo_transmission self wavevector) = length wavevector /\
  forall (i : nat) (T : R),
    AddDropFilter.teo_transmission self wavevector !! i = Some T -> 0 <= T <= 1.
Proof.
  intros Hk1 Hk2 Hl Hr Hor. split; [apply length_map|].
  intros i T HT. unfold AddDropFilter.teo_transmission in HT.
  rewrite list_lookup_fmap in HT.
  destruct (wavevector !! i) as [k|]; [|discriminate].
  injection HT as <-.
  destruct (sigma_range _ Hk1) as (Hs1 & Hq1 & Hlt1).
  destruct (sigma_range _ Hk2) as (Hs2 & Hq2 & Hlt2).
  assert (Ha : 0 < exp (- Composite.loss_dB (AddDropFilter.base self) * ln 10 / 20
                        * AddDropFilter.radius self * 2 * PI) <= 1).
  { replace (- Composite.loss_dB (AddDropFilter.base self) * ln 10 / 20
             * AddDropFilter.radius self * 2 * PI)
      with (- Composite.loss_dB (AddDropFilter.base self) * ln 10 / 20
            * (AddDropFilter.radius self * (2 * PI))) by ring.
    apply loss_factor_range; [exact Hl|]. pose proof PI_RGT_0. nra. }
  destruct (product_below_one _ _ _ Hs1 Hs2 Ha) as [_ Hlt].
  { destruct Hor as [Hp|[Hp|Hp]].
    - left; apply Hlt1, Hp.
    - right; left; apply Hlt2, Hp.
    - right; right.
      replace (- Composite.loss_dB (AddDropFilter.base self) * ln 10 / 20
               * AddDropFilter.radius self * 2 * PI)
        with (- Composite.loss_dB (AddDropFilter.base self) * ln 10 / 20
              * (AddDropFilter.radius self * (2 * PI))) by ring.
      apply loss_factor_strict. pose proof PI_RGT_0. nra. }
  rewrite <- Rsqr_pow2 in Hq1, Hq2. unfold Rsqr in Hq1, Hq2.
  assert (Hq1' : sqrt (1 - AddDropFilter.input_cross_coupling_coefficient self ^ 2)
                 * sqrt (1 - AddDropFilter.input_cross_coupling_coefficient self ^ 2)
                 = 1 - AddDropFilter.input_cross_coupling_coefficient self
                       * AddDropFilter.input_cross_coupling_coefficient self)
    by (rewrite Hq1; ring).
  assert (Hq2' : sqrt (1 - AddDropFilter.auxiliary_cross_coupling_coefficient self ^ 2)
                 * sqrt (1 - AddDropFilter.auxiliary_cross_coupling_coefficient self ^ 2)
                 = 1 - AddDropFilter.auxiliary_cross_coupling_coefficient self
                       * AddDropFilter.auxiliary_cross_coupling_coefficient self)
    by (rewrite Hq2; ring).
  exact (drop_curve_range _ _ _ _ _ _ (proj1 Hk1) (proj1 Hk2) Hs1 Hs2 Hq1' Hq2'
           Ha Hlt (COS_bound _)).
Qed.

Lemma filter_teo_transmission_range_witness :
  let self := filter_on 0 1 2 3 4 5 6 7 1 (1 / 2) (1 / 3) 1 1 0 10 1 [0] in
  0 <= AddDropFilter.input_cross_coupling_coefficient self <= 1 /\
  forall (i : nat) (T : R),
    AddDropFilter.teo_transmission self [0; 1; 2] !! i = Some T -> 0 <= T <= 1.
Proof.
  cbn zeta. split; [simpl; lra|].
  apply (filter_teo_transmission_range
           (filter_on 0 1 2 3 4 5 6 7 1 (1 / 2) (1 / 3) 1 1 0 10 1 [0]) [0; 1; 2]);
    simpl; lra.
Defined.

(** ** The two half rings of a filter make the ring *)

(** The equation of a waveguide record as the constructor fills it. *)
Lemma Waveguide_mk_equation (a b : Pin) (L n_eff n_g D loss lam0 : R) (omegas : list R) :
  Waveguide.field_equations
    (Waveguide.mk [a; b] L n_eff n_g D loss lam0 omegas (2 * PI / lam0 * c)) =
  inr [ <[b := Scalar (RtoC 1)]>
          (<[a := Sweep (map (fun omega =>
                Copp (transfer_factor L n_eff n_g D loss lam0 omega)) omegas)]> ∅) ].
Proof.
  unfold Waveguide.field_equations.
  cbn [Waveguide.pins Waveguide.loss_dB Waveguide.length getitem lookup list_lookup rbind].
  rewrite waveguide_coefficient. reflexivity.
Qed.

(** X21.  An add-drop filter and a ring resonator built with the same
    radius, indices, dispersion, loss, central wavelength and sweep:
    the filter's two waveguides, each half a circumference, carry the
    same coefficient array, and at every sample the transfer
    coefficient of the ring's waveguide is the square of the transfer
    coefficient of a half. *)
Theorem filter_half_rings_make_ring
    (radius kap kap_in kap_aux n_eff n_g D loss lam0 : R) (omegas : list R)
    (pins_f pins_r : option (list Pin)) (nf nf' nr nr' : nat)
    (adf : AddDropFilter.t) (ring : RingResonator.t) :
  AddDropFilter.init radius kap_in kap_aux n_eff n_g D loss lam0 omegas pins_f nf =
    (inr adf, nf') ->
  RingResonator.init radius kap n_eff n_g D loss lam0 omegas pins_r nr =
    (inr ring, nr') ->
  exists c_in c_aux wa wb c wr (half full : list C)
         p0 p1 p2 p3 p4 p5 p6 p7 q0 q1 q2 q3,
    Composite.pins (AddDropFilter.base adf) = [p0; p1; p2; p3; p4; p5; p6; p7] /\
    Composite.pins (RingResonator.base ring) = [q0; q1; q2; q3] /\
    Composite.structures (AddDropFilter.base adf) =
      [OfDirectionalCoupler c_in; OfDirectionalCoupler c_aux;
       OfWaveguide wa; OfWaveguide wb] /\
    Composite.structures (RingResonator.base ring) =
      [OfDirectionalCoupler c; OfWaveguide wr] /\
    Waveguide.field_equations wa =
      inr [ <[p5 := Scalar (RtoC 1)]> (<[p3 := Sweep half]> ∅) ] /\
    Waveguide.field_equations wb =
      inr [ <[p1 := Scalar (RtoC 1)]> (<[p7 := Sweep half]> ∅) ] /\
    Waveguide.field_equations wr =
      inr [ <[q1 := Scalar (RtoC 1)]> (<[q3 := Sweep full]> ∅) ] /\
    length half = length omegas /\
    length full = length omegas /\
    forall (i : nat) (z : C),
      half !! i = Some z ->
      exists zr, full !! i = Some zr /\ Copp zr = Cmul (Copp z) (Copp z).
Proof.
  intros Hf Hr.
  apply AddDropFilter_init_inv in Hf
    as (_ & p0 & p1 & p2 & p3 & p4 & p5 & p6 & p7 & _ & ->).
  apply RingResonator_init_inv in Hr as (_ & q0 & q1 & q2 & q3 & _ & ->).
  do 6 eexists.
  exists (map (fun omega => Copp (transfer_factor (radius * PI) n_eff n_g D loss lam0 omega))
              omegas),
         (map (fun omega => Copp (transfer_factor (2 * PI * radius) n_eff n_g D loss lam0
                                    omega)) omegas),
         p0, p1, p2, p3, p4, p5, p6, p7, q0, q1, q2, q3.
  split; [reflexivity|]. split; [reflexivity|].
  split; [reflexivity|]. split; [reflexivity|].
  split; [apply Waveguide_mk_equation|].
  split; [apply Waveguide_mk_equation|].
  split; [apply Waveguide_mk_equation|].
  split; [apply length_map|]. split; [apply length_map|].
  intros i z Hz. rewrite list_lookup_fmap in Hz |- *.
  destruct (omegas !! i) as [omega|]; [|discriminate].
  injection Hz as <-. eexists; split; [reflexivity|].
  rewrite !Copp_involutive.
  replace (2 * PI * radius) with (radius * PI + radius * PI) by ring.
  apply transfer_factor_add.
Qed.

Lemma filter_half_rings_make_ring_witness :
  exists adf ring (half full : list C),
    AddDropFilter.init 1 (1 / 2) (1 / 3) 1 1 0 20 1 [0; 1] None 0%nat =
      (inr adf, 8%nat) /\
    RingResonator.init 1 (1 / 2) 1 1 0 20 1 [0; 1] None 8%nat = (inr ring, 12%nat) /\
    length half = 2%nat /\ length full = 2%nat /\
    forall (i : nat) (z : C),
      half !! i = Some z ->
      exists zr, full !! i = Some zr /\ Copp zr = Cmul (Copp z) (Copp z).
Proof.
  assert (Hf : AddDropFilter.init 1 (1 / 2) (1 / 3) 1 1 0 20 1 [0; 1] None 0%nat =
               (inr (filter_on 0 1 2 3 4 5 6 7 1 (1 / 2) (1 / 3) 1 1 0 20 1 [0; 1]),
                8%nat)).
  { apply AddDropFilter_init_ok; [lra | reflexivity]. }
  assert (Hr : RingResonator.init 1 (1 / 2) 1 1 0 20 1 [0; 1] None 8%nat =
               (inr (ring_on 8 9 10 11 1 (1 / 2) 1 1 0 20 1 [0; 1]), 12%nat)).
  { apply RingResonator_init_ok; [lra | reflexivity]. }
  destruct (filter_half_rings_make_ring _ _ _ _ _ _ _ _ _ _ _ _ _ _ _ _ _ _ Hf Hr)
    as (c_in & c_aux & wa & wb & c0 & wr & half & full & H).
  destruct H as (p0 & p1 & p2 & p3 & p4 & p5 & p6 & p7 & q0 & q1 & q2 & q3
                 & _ & _ & _ & _ & _ & _ & _ & Hlh & Hlf & Hsq).
  do 2 eexists; exists half, full.
  split; [exact Hf|]. split; [exact Hr|]. split; [exact Hlh|]. split; [exact Hlf|].
  exact Hsq.
Defined.

(** ** The filter without its second coupling is the ring *)

(** The square of the half-trip factor is the round-trip factor. *)
Lemma half_factor_squared (a theta : R) (z : C) :
  Cmul (mkC (a * cos theta) (a * sin theta))
       (Cmul (mkC (a * cos theta) (a * sin theta)) z) =
  Cmul (mkC (a * a * cos (2 * theta)) (a * a * sin (2 * theta))) z.
Proof.
  rewrite cos_2a, sin_2a. destruct z as [x y].
  apply C_eq; simpl; ring.
Qed.

(** X22.  With no auxiliary coupling ([kappa_aux = 0]) the closed filter
    behaves as the bare ring: amplitudes that satisfy its eight field
    equations leave the drop pin [pins[6]] dark, and at the through pin
    [pins[2]] have the squared modulus that the theoretical curve of a
    ring resonator of the same radius, input coupling, loss and
    wavevector gives, times that of the source. *)
Theorem filter_without_aux_coupling_is_ring
    (radius kap n_eff n_g D loss lam0 : R) (omegas : list R)
    (pins : option (list Pin)) (n n' n1 n2 : nat)
    (adf : AddDropFilter.t) (k1 k2 : CompositeStructure.t) (amplitude : C) :
  0 <= kap <= 1 -> 0 <= loss -> 0 <= radius ->
  0 < kap \/ 0 < loss * radius ->
  AddDropFilter.init radius kap 0 n_eff n_g D loss lam0 omegas pins n = (inr adf, n') ->
  NoDup (Composite.pins (AddDropFilter.base adf)) ->
  attach_source (AddDropFilter.base adf) amplitude 0 n' = (inr k1, n1) ->
  attach_source k1 (RtoC 0) 4 n1 = (inr k2, n2) ->
  exists p0 p1 p2 p3 p4 p5 p6 p7,
    Composite.pins (AddDropFilter.base adf) = [p0; p1; p2; p3; p4; p5; p6; p7] /\
    forall (A : nat -> C) (i : nat) (omega : R),
      omegas !! i = Some omega ->
      solves A i (OfComposite k2) ->
      A p6 = RtoC 0 /\
      exists T,
        RingResonator.teo_transmission
          (ring_on p0 p1 p2 p3 radius kap n_eff n_g D loss lam0 omegas)
          (map (taylor_wavevector n_eff n_g D lam0) omegas) !! i = Some T /\
        Cabs (A p2) ^ 2 = Cabs amplitude ^ 2 * T.
Proof.
  intros Hk Hl Hr Hor H Hnd Hs1 Hs2.
  apply AddDropFilter_init_inv in H
    as (_ & p0 & p1 & p2 & p3 & p4 & p5 & p6 & p7 & _ & ->).
  assert (Ek1 : k1 = CompositeStructure.append
                      (AddDropFilter.base (filter_on p0 p1 p2 p3 p4 p5 p6 p7
                         radius kap 0 n_eff n_g D loss lam0 omegas))
                      (OfSource (Source.mk [p0] amplitude 0))).
  { pose proof (eq_trans (eq_sym Hs1)
                  (attach_source_ok
                     (AddDropFilter.base (filter_on p0 p1 p2 p3 p4 p5 p6 p7
                        radius kap 0 n_eff n_g D loss lam0 omegas))
                     amplitude 0 p0 n' eq_refl)) as E.
    congruence. }
  subst k1.
  assert (Ek2 : k2 = CompositeStructure.append
                      (CompositeStructure.append
                         (AddDropFilter.base (filter_on p0 p1 p2 p3 p4 p5 p6 p7
                            radius kap 0 n_eff n_g D loss lam0 omegas))
                         (OfSource (Source.mk [p0] amplitude 0)))
                      (OfSource (Source.mk [p4] (RtoC 0) 0))).
  { pose proof (eq_trans (eq_sym Hs2)
                  (attach_source_ok
                     (CompositeStructure.append
                        (AddDropFilter.base (filter_on p0 p1 p2 p3 p4 p5 p6 p7
                           radius kap 0 n_eff n_g D loss lam0 omegas))
                        (OfSource (Source.mk [p0] amplitude 0)))
                     (RtoC 0) 4 p4 n1 eq_refl)) as E.
    congruence. }
  subst k2. clear Hs1 Hs2.
  exists p0, p1, p2, p3, p4, p5, p6, p7. split; [reflexivity|].
  intros A i omega Hi Hsol.
  apply (filter_with_sources_system p0 p1 p2 p3 p4 p5 p6 p7 radius kap 0
           n_eff n_g D loss lam0 omegas amplitude A i omega Hnd Hi) in Hsol
    as (E0 & E4 & E2 & E3 & E6 & E7 & E5 & E1).
  replace (1 - 0 ^ 2) with 1 in E6, E7 by ring. rewrite sqrt_1 in E6, E7.
  assert (E6' : A p6 = RtoC 0).
  { rewrite E6, E4. apply C_eq; simpl; ring. }
  assert (E7' : A p7 = A p5).
  { rewrite E7, E4. destruct (A p5); apply C_eq; simpl; ring. }
  split; [exact E6'|].
  destruct (half_ring_transfer_factor radius n_eff n_g D loss lam0 omega)
    as (Eh & Eaa & _).
  cbn zeta in Eh, Eaa.
  rewrite Eh in E5, E1. rewrite E7', E5, half_factor_squared, Eaa in E1.
  replace (2 * (taylor_wavevector n_eff n_g D lam0 omega * radius * PI))
    with (taylor_wavevector n_eff n_g D lam0 omega * radius * 2 * PI) in E1 by ring.
  destruct (sigma_range kap Hk) as (Hsr & Hsq & _).
  assert (Hnorm : sqrt (1 - kap ^ 2) * sqrt (1 - kap ^ 2) + kap * kap = 1).
  { rewrite <- Rsqr_pow2 in Hsq. unfold Rsqr in Hsq. rewrite Hsq. ring. }
  pose proof (ring_through_algebra _ kap _ _ amplitude _ _ _ _ Hnorm E0 E2 E3 E1)
    as Halg.
  assert (Ha : 0 < exp (- loss * ln 10 / 20 * radius * 2 * PI) <= 1).
  { replace (- loss * ln 10 / 20 * radius * 2 * PI)
      with (- loss * ln 10 / 20 * (radius * (2 * PI))) by ring.
    apply loss_factor_range; [exact Hl|]. pose proof PI_RGT_0. nra. }
  assert (Hra : sqrt (1 - kap ^ 2) * exp (- loss * ln 10 / 20 * radius * 2 * PI) < 1).
  { replace (- loss * ln 10 / 20 * radius * 2 * PI)
      with (- loss * ln 10 / 20 * (radius * (2 * PI))) by ring.
    apply sigma_loss_below_one; try assumption.
    - pose proof PI_RGT_0. nra.
    - destruct Hor as [Hp|Hp]; [left; exact Hp | right]. pose proof PI_RGT_0. nra. }
  destruct (ring_curve_range _ _
              (cos (taylor_wavevector n_eff n_g D lam0 omega * radius * 2 * PI))
              Hsr Ha Hra (COS_bound _)) as [Hden _].
  eexists. split.
  - unfold RingResonator.teo_transmission.
    rewrite !list_lookup_fmap, Hi. reflexivity.
  - cbn [RingResonator.cross_coupling_coefficient RingResonator.base
         RingResonator.radius ring_on Composite.loss_dB].
    apply (Rmult_eq_reg_r
             (1 + (sqrt (1 - kap ^ 2) * exp (- loss * ln 10 / 20 * radius * 2 * PI)) ^ 2
              - 2 * sqrt (1 - kap ^ 2) * exp (- loss * ln 10 / 20 * radius * 2 * PI)
                * cos (taylor_wavevector n_eff n_g D lam0 omega * radius * 2 * PI)));
      [|lra].
    rewrite Halg. field. lra.
Qed.

(** A lossless filter of zero radius, full input coupling and no
    auxiliary coupling, fed with amplitude 1: the amplitudes
    [1, i, -1, i, 0, i, 0, i] solve it. *)
Lemma filter_without_aux_coupling_is_ring_witness :
  exists (adf : AddDropFilter.t) (k1 k2 : CompositeStructure.t)
         (A : nat -> C) (T : R),
    0 <= 1 <= 1 /\
    AddDropFilter.init 0 1 0 1 1 0 0 1 [0] None 0%nat = (inr adf, 8%nat) /\
    NoDup (Composite.pins (AddDropFilter.base adf)) /\
    attach_source (AddDropFilter.base adf) (RtoC 1) 0 8%nat = (inr k1, 8%nat) /\
    attach_source k1 (RtoC 0) 4 8%nat = (inr k2, 8%nat) /\
    solves A 0 (OfComposite k2) /\
    A 6%nat = RtoC 0 /\
    RingResonator.teo_transmission (ring_on 0 1 2 3 0 1 1 1 0 0 1 [0])
      (map (taylor_wavevector 1 1 0 1) [0]) !! 0%nat = Some T /\
    Cabs (A 2%nat) ^ 2 = Cabs (RtoC 1) ^ 2 * T.
Proof.
  pose (A := fun p : nat =>
               match p with
               | 0%nat => RtoC 1
               | 2%nat => RtoC (-1)
               | 4%nat => RtoC 0
               | 6%nat => RtoC 0
               | _ => Ci
               end).
  pose (built := filter_on 0 1 2 3 4 5 6 7 0 1 0 1 1 0 0 1 [0]).
  pose (c1 := CompositeStructure.append (AddDropFilter.base built)
                (OfSource (Source.mk [0%nat] (RtoC 1) 0))).
  pose (c2 := CompositeStructure.append c1 (OfSource (Source.mk [4%nat] (RtoC 0) 0))).
  assert (H : AddDropFilter.init 0 1 0 1 1 0 0 1 [0] None 0%nat = (inr built, 8%nat)).
  { apply AddDropFilter_init_ok; [lra | reflexivity]. }
  assert (Hnd : NoDup (Composite.pins (AddDropFilter.base built)))
    by exact (NoDup_seq 0 8).
  assert (Hs1 : attach_source (AddDropFilter.base built) (RtoC 1) 0 8%nat =
                (inr c1, 8%nat)).
  { apply attach_source_ok; reflexivity. }
  assert (Hs2 : attach_source c1 (RtoC 0) 4 8%nat = (inr c2, 8%nat)).
  { apply attach_source_ok; reflexivity. }
  assert (Hsol : solves A 0 (OfComposite c2)).
  { apply (filter_with_sources_system 0 1 2 3 4 5 6 7 0 1 0 1 1 0 0 1 [0] (RtoC 1)
             A 0%nat 0 (NoDup_seq 0 8) eq_refl).
    rewrite transfer_factor_cartesian.
    replace (- (0 * (0 * PI)) / 20) with 0 by field.
    replace (taylor_wavevector 1 1 0 1 0 * (0 * PI)) with 0 by ring.
    rewrite Rpower_10_0, cos_0, sin_0.
    replace (1 - 1 ^ 2) with 0 by ring. rewrite sqrt_0.
    replace (1 - 0 ^ 2) with 1 by ring. rewrite sqrt_1.
    unfold A, Cadd, Cmul, Copp, conj, Ci, RtoC; cbn [re im].
    repeat split; f_equal; ring. }
  destruct (filter_without_aux_coupling_is_ring 0 1 1 1 0 0 1 [0] None 0 8 8 8
              built c1 c2 (RtoC 1)
              ltac:(lra) ltac:(lra) ltac:(lra) ltac:(left; lra)
              H Hnd Hs1 Hs2)
    as (p0 & p1 & p2 & p3 & p4 & p5 & p6 & p7 & Hp & Hmatch).
  cbn in Hp. injection Hp as <- <- <- <- <- <- <- <-.
  destruct (Hmatch A 0%nat 0 eq_refl Hsol) as (Hdark & T & HT & HA).
  exists built, c1, c2, A, T.
  split; [lra|]. split; [exact H|]. split; [exact Hnd|]. split; [exact Hs1|].
  split; [exact Hs2|]. split; [exact Hsol|]. split; [exact Hdark|].
  split; [exact HT | exact HA].
Defined.
